(** * EVhumanization: preparation of the de-immunization problem

    Shallow embedding of
    [EVhumanization/deimmunization/deimmu_prep/abstract_deimmu_prep.py]:
    the frequency estimator [_frequencies], the single-site fitter
    [_independent_model], the parameter extractor [extract_ev_paras] and the
    serializer [to_data_file] with its [format_*] helpers, then
    [read_in_config_paras] and [generate_lp_files]; and of the part of
    [deimmunization/grafting/kabat_numbering.py] that reads the answer of the
    numbering service.

    Conventions of the embedding.
    - Python [int] is [Z]; a one-character [str] (a residue or an alphabet
      symbol) is [ascii]; longer text is [string].
    - A [dict] is a [gmap]; a missing key raises [KeyError].
    - A numpy array that the module only reads is a lookup function into
      [option]: [None] stands for the [IndexError] numpy raises outside the
      array.  The count matrix that [_frequencies] fills is a list of rows.
    - Stored energies are rationals [Q]: the only arithmetic the extractor
      performs on them is the product with [-1.0], which is exact in binary
      floating point as well.
    - The counts of [_frequencies] are natural numbers: a binary64 counter
      that starts at zero and grows by one holds every whole number below
      [2 ^ 53] exactly.  Its final division by [N] is the binary64 division
      of IEEE 754, rounding to nearest even, as the Standard Library
      specifies it ([SpecFloat]).
    - The objective and the gradient of the fitter are real functions ([R])
      on vectors of one width.
    - Collaborators that live outside this module are records of their
      observable answers ([Wildtype], [AlleleCollection], [EVcouplings]) or
      type classes ([tools.to_data_format] and [ALPHABET_PROTEIN_NOGAP] in
      [Tools], [scipy.optimize.fmin_bfgs] in [Optimizer], the builtin [int]
      on text in [Builtins]).
    - What a function prints to standard output is not modelled. *)

From Stdlib Require Import ZArith QArith Qabs Qpower Reals Lra String Ascii List.
From Stdlib Require Import Floats.SpecFloat.
From Stdlib Require Lqa.
From stdpp Require Import base gmap list strings sorting pretty.

Open Scope Z_scope.

(** ** Exceptions and the error monad *)

Inductive exn : Type :=
  | KeyError
  | IndexError
  | ValueError.

Inductive res (A : Type) : Type :=
  | Ok (a : A)
  | Raise (e : exn).
Arguments Ok {A} a.
Arguments Raise {A} e.

Definition res_bind {A B : Type} (m : res A) (k : A → res B) : res B :=
  match m with
  | Ok a => k a
  | Raise e => Raise e
  end.

Notation "'do' x <- m ; k" := (res_bind m (fun x => k))
  (at level 10, x name, m at level 100, k at level 200).

(** The value of a run, or [d] if it raised. *)
Definition value_of {A : Type} (m : res A) (d : A) : A :=
  match m with
  | Ok a => a
  | Raise _ => d
  end.

(** [for x in xs: body] over a threaded state; the first exception leaves the
    loop. *)
Fixpoint for_each {A S : Type} (xs : list A) (body : A → S → res S) (s : S)
  : res S :=
  match xs with
  | [] => Ok s
  | x :: xs' => do s' <- body x s; for_each xs' body s'
  end.

(** A generator or comprehension whose element expression may raise. *)
Fixpoint map_res {A B : Type} (f : A → res B) (xs : list A) : res (list B) :=
  match xs with
  | [] => Ok []
  | x :: xs' => do y <- f x; do ys <- map_res f xs'; Ok (y :: ys)
  end.

(** [d[k]] on a dict. *)
Definition dict_get `{Countable K} {V : Type} (d : gmap K V) (k : K) : res V :=
  match d !! k with
  | Some v => Ok v
  | None => Raise KeyError
  end.

(** [d.keys()]: the keys, each once, in the dict's own order. *)
Definition keys `{Countable K} {V : Type} (d : gmap K V) : list K :=
  (map_to_list d).*1.

(** Element access of an array whose cell may not exist. *)
Definition array_get {V : Type} (cell : option V) : res V :=
  match cell with
  | Some v => Ok v
  | None => Raise IndexError
  end.

(** [l[i]] on a Python list: negative indices count from the end. *)
Definition list_get {V : Type} (l : list V) (i : Z) : res V :=
  let n := Z.of_nat (length l) in
  if bool_decide (0 ≤ i < n) then array_get (l !! Z.to_nat i)
  else if bool_decide (- n ≤ i < 0) then array_get (l !! Z.to_nat (n + i))
  else Raise IndexError.

(** ** The collaborators, as far as this module observes them *)

(** [EVcouplings]: the alphabet map, the column map and the two parameter
    tables. *)
Record EVcouplings : Type := {
  alphabet_map : gmap ascii Z;
  index_map : gmap Z Z;
  num_symbols : nat;
  h_i : Z → Z → option Q;
  J_ij : Z → Z → Z → Z → option Q
}.

(** [Wildtype]: the residues, the native ("upper") and the insertion
    ("lower") positions, and the map from a position to a model column. *)
Record Wildtype : Type := {
  sequence : list ascii;
  upper : list Z;
  lower : list Z;
  map_to_uniprot : Z → Z;
  to_param_N : string
}.

(** [AlleleCollection]: it renders its own blocks of the data file. *)
Record AlleleCollection : Type := {
  to_set_A : string;
  to_param_pssm_thresh : string;
  to_param_p : string;
  to_param_pssm : Z → string
}.

(** The attributes of an [AbstractDeimmuPreparation] instance. *)
Record AbstractDeimmuPreparation : Type := {
  wildtype : Wildtype;
  num_mutations : Z;
  epitope_length : Z;
  allele_coll : AlleleCollection;
  excluded_pos : list Z;
  ignored_pos : list Z;
  use_single_site_model : bool;
  single_hi : Z → Z → option Q;
  possible_mutations : list (list ascii);
  hi : gmap (Z * ascii) Q;
  hi_indices : list Z;
  eij_indices : list (Z * Z);
  eij : gmap (Z * Z * ascii * ascii) Q
}.

Definition set_hi (hi' : gmap (Z * ascii) Q) (self : AbstractDeimmuPreparation)
  : AbstractDeimmuPreparation :=
  {| wildtype := wildtype self; num_mutations := num_mutations self;
     epitope_length := epitope_length self; allele_coll := allele_coll self;
     excluded_pos := excluded_pos self; ignored_pos := ignored_pos self;
     use_single_site_model := use_single_site_model self;
     single_hi := single_hi self;
     possible_mutations := possible_mutations self;
     hi := hi'; hi_indices := hi_indices self;
     eij_indices := eij_indices self; eij := eij self |}.

Definition set_hi_indices (l : list Z) (self : AbstractDeimmuPreparation)
  : AbstractDeimmuPreparation :=
  {| wildtype := wildtype self; num_mutations := num_mutations self;
     epitope_length := epitope_length self; allele_coll := allele_coll self;
     excluded_pos := excluded_pos self; ignored_pos := ignored_pos self;
     use_single_site_model := use_single_site_model self;
     single_hi := single_hi self;
     possible_mutations := possible_mutations self;
     hi := hi self; hi_indices := l;
     eij_indices := eij_indices self; eij := eij self |}.

Definition set_eij_indices (l : list (Z * Z)) (self : AbstractDeimmuPreparation)
  : AbstractDeimmuPreparation :=
  {| wildtype := wildtype self; num_mutations := num_mutations self;
     epitope_length := epitope_length self; allele_coll := allele_coll self;
     excluded_pos := excluded_pos self; ignored_pos := ignored_pos self;
     use_single_site_model := use_single_site_model self;
     single_hi := single_hi self;
     possible_mutations := possible_mutations self;
     hi := hi self; hi_indices := hi_indices self;
     eij_indices := l; eij := eij self |}.

Definition set_eij (e : gmap (Z * Z * ascii * ascii) Q)
  (self : AbstractDeimmuPreparation) : AbstractDeimmuPreparation :=
  {| wildtype := wildtype self; num_mutations := num_mutations self;
     epitope_length := epitope_length self; allele_coll := allele_coll self;
     excluded_pos := excluded_pos self; ignored_pos := ignored_pos self;
     use_single_site_model := use_single_site_model self;
     single_hi := single_hi self;
     possible_mutations := possible_mutations self;
     hi := hi self; hi_indices := hi_indices self;
     eij_indices := eij_indices self; eij := e |}.

(** ** The parameter extractor *)

(** [filter(lambda x: x != '-', ev_couplings.alphabet_map.keys())] *)
Definition nogap_keys (ev : EVcouplings) : list ascii :=
  filter (λ x, x ≠ "-"%char) (keys (alphabet_map ev)).

(** The body of the loop over the native positions: one field per symbol. *)
Definition native_fields (ev : EVcouplings) (wt : Wildtype) (i : Z)
  (tbl : gmap (Z * ascii) Q) : res (gmap (Z * ascii) Q) :=
  for_each (nogap_keys ev) (λ ai tbl,
    do c <- dict_get (index_map ev) (map_to_uniprot wt i);
    do a <- dict_get (alphabet_map ev) ai;
    do v <- array_get (h_i ev c a);
    Ok (<[(i, ai) := (- 1 * v)%Q]> tbl)) tbl.

(** The body of the loop over the insertion positions, under
    [use_single_site_model]: the index list and the table grow together. *)
Definition fallback_fields (ev : EVcouplings)
  (single : Z → Z → option Q) (ignored : list Z) (i : Z)
  (st : list Z * gmap (Z * ascii) Q) : res (list Z * gmap (Z * ascii) Q) :=
  if bool_decide (i ∉ ignored) then
    do tbl <- for_each (nogap_keys ev) (λ ai tbl,
        do a <- dict_get (alphabet_map ev) ai;
        do v <- array_get (single i a);
        Ok (<[(i, ai) := (- 1 * v)%Q]> tbl)) st.2;
    Ok (st.1 ++ [i], tbl)
  else Ok st.

(** The list comprehension under [sorted(set(...))]. *)
Definition pair_candidates (up ignored : list Z) : list (Z * Z) :=
  i ← up; j ← up;
  if bool_decide (i ≠ j)
     && ((bool_decide (i < j) && bool_decide (i ∉ ignored))
         || (bool_decide (j < i) && bool_decide (j ∉ ignored)))
  then [if bool_decide (i < j) then (i, j) else (j, i)]
  else [].

(** Python orders tuples lexicographically. *)
Definition tuple_le (p q : Z * Z) : Prop :=
  p.1 < q.1 ∨ (p.1 = q.1 ∧ p.2 ≤ q.2).

Definition tuple_lt (p q : Z * Z) : Prop :=
  p.1 < q.1 ∨ (p.1 = q.1 ∧ p.2 < q.2).

#[global] Instance tuple_le_dec : RelDecision tuple_le.
Proof. intros p q. unfold tuple_le. apply _. Defined.

(** [sorted(set(l))] on a list of pairs. *)
Definition sorted_set (l : list (Z * Z)) : list (Z * Z) :=
  merge_sort tuple_le (elements (list_to_set l : gset (Z * Z))).

Definition build_eij_indices (up ignored : list Z) : list (Z * Z) :=
  sorted_set (pair_candidates up ignored).

(** The body of the loop over the retained pairs. *)
Definition pair_couplings (ev : EVcouplings) (wt : Wildtype)
  (pm : list (list ascii)) (ij : Z * Z)
  (tbl : gmap (Z * Z * ascii * ascii) Q) : res (gmap (Z * Z * ascii * ascii) Q) :=
  let '(i, j) := ij in
  do mi <- list_get pm i;
  for_each mi (λ ai tbl,
    do mj <- list_get pm j;
    for_each mj (λ aj tbl,
      do ci <- dict_get (index_map ev) (map_to_uniprot wt i);
      do cj <- dict_get (index_map ev) (map_to_uniprot wt j);
      do a <- dict_get (alphabet_map ev) ai;
      do b <- dict_get (alphabet_map ev) aj;
      do v <- array_get (J_ij ev ci cj a b);
      Ok (<[(i, j, ai, aj) := (- 1 * v)%Q]> tbl)) tbl) tbl.

(** [extract_ev_paras(self, ev_couplings)]: the instance with its four
    tables assigned, or the exception that ended the call (what the call had
    assigned by then is not kept). *)
Definition extract_ev_paras (self : AbstractDeimmuPreparation)
  (ev : EVcouplings) : res AbstractDeimmuPreparation :=
  let wt := wildtype self in
  let ignored := ignored_pos self in
  let idx0 := filter (λ i, i ∉ ignored) (upper wt) in
  do hi0 <- for_each (upper wt) (native_fields ev wt) ∅;
  do st <- (if use_single_site_model self
            then for_each (lower wt)
                   (fallback_fields ev (single_hi self) ignored) (idx0, hi0)
            else Ok (idx0, hi0));
  let idx := merge_sort Z.le st.1 in
  let pairs := build_eij_indices (upper wt) ignored in
  do e <- for_each pairs (pair_couplings ev wt (possible_mutations self)) ∅;
  Ok (set_eij e (set_eij_indices pairs (set_hi_indices idx (set_hi st.2 self)))).

(** ** The frequency estimator *)

(** [c.upper()] and [c.lower()] on a one-character [str]: the ASCII letters
    change case, every other character stays. *)
Definition upper_char (c : ascii) : ascii :=
  let n := nat_of_ascii c in
  if bool_decide (97 ≤ n ≤ 122)%nat then ascii_of_nat (n - 32) else c.

Definition lower_char (c : ascii) : ascii :=
  let n := nat_of_ascii c in
  if bool_decide (65 ≤ n ≤ 90)%nat then ascii_of_nat (n + 32) else c.

(** The symbols [_frequencies] leaves out. *)
Definition excluded_symbols : list ascii := ["-"; "."; "X"; "B"; "Z"]%char.

(** [N, L = matrix.shape] on the array built from a list of rows: an empty
    or a ragged list has no two-dimensional shape, and the unpacking raises. *)
Definition shape (matrix : list (list ascii)) : res (nat * nat) :=
  match matrix with
  | [] => Raise ValueError
  | row :: rest =>
      if bool_decide (Forall (λ r, length r = length row) rest)
      then Ok (length matrix, length row)
      else Raise ValueError
  end.

(** [matrix[s, i]] *)
Definition cell (matrix : list (list ascii)) (s i : nat) : option ascii :=
  matrix !! s ≫= (.!! i).

(** A numpy index into an axis of length [n]: negative indices wrap once. *)
Definition np_index (n : nat) (k : Z) : res nat :=
  if bool_decide (0 ≤ k < Z.of_nat n) then Ok (Z.to_nat k)
  else if bool_decide (- Z.of_nat n ≤ k < 0) then Ok (Z.to_nat (Z.of_nat n + k))
  else Raise IndexError.

(** [fi[i, k] += 1] *)
Definition bump (i k : nat) (fi : list (list nat)) : list (list nat) :=
  alter (alter S k) i fi.

(** The body of the inner loop of [_frequencies]. *)
Definition count_cell (ev : EVcouplings) (matrix : list (list ascii))
  (s i : nat) (fi : list (list nat)) : res (list (list nat)) :=
  do c <- array_get (cell matrix s i);
  let aa := upper_char c in
  if bool_decide (aa ∉ excluded_symbols) then
    do k <- dict_get (alphabet_map ev) aa;
    do k' <- np_index (num_symbols ev) k;
    Ok (bump i k' fi)
  else Ok fi.

(** A binary64 number, as numpy's [float64] holds it. *)
Definition float64 : Type := spec_float.

(** The binary64 number nearest to an integer: [float(n)], and what numpy
    makes of an [int] that meets a [float64] array. *)
Definition float64_of_Z (n : Z) : float64 := binary_normalize 53 1024 n 0 false.

(** [x / y] on binary64 numbers. *)
Definition float64_div (x y : float64) : float64 := SFdiv 53 1024 x y.

(** One entry of [fi / N]: the count, held exactly, over the number of
    sequences. *)
Definition frequency (c N : nat) : float64 :=
  float64_div (float64_of_Z (Z.of_nat c)) (float64_of_Z (Z.of_nat N)).

(** [_frequencies(matrix, ev_couplings)].  The counts are natural numbers
    and the final division by [N] is the binary64 division. *)
Definition _frequencies (matrix : list (list ascii)) (ev : EVcouplings)
  : res (list (list float64)) :=
  do NL <- shape matrix;
  let N := NL.1 in
  let L := NL.2 in
  let fi0 := replicate L (replicate (num_symbols ev) 0%nat) in
  do fi <- for_each (seq 0 N) (λ s fi,
             for_each (seq 0 L) (count_cell ev matrix s) fi) fi0;
  Ok (map (map (λ c : nat, frequency c N)) fi).

(** ** The single-site fitter

    The objective and its gradient are taken over the real numbers; a numpy
    vector is a list, an elementwise operation a [map] or a [zip_with].
    The lists stand for vectors of one width, as [__init__] passes them
    (the rows of the frequency matrix and [x0] both have [num_symbols]
    entries); on vectors of different widths numpy raises or broadcasts,
    which the lists do not model. *)

(** [v.sum()] *)
Definition vsum (v : list R) : R := foldr Rplus 0%R v.

(** [_log_post(x, *args)] with [args = (fi, lambda_h, N)] *)
Definition _log_post (x : list R) (args : list R * R * R) : R :=
  let '(fi, lambda_h, N) := args in
  let logZ := ln (vsum (map exp x)) in
  (N * (logZ - vsum (zip_with Rmult fi x))
   + lambda_h * vsum (map (λ t, t ^ 2) x))%R.

(** [_gradient(x, *args)] *)
Definition _gradient (x : list R) (args : list R * R * R) : list R :=
  let '(fi, lambda_h, N) := args in
  let Z := vsum (map exp x) in
  let P := map (λ e, e / Z)%R (map exp x) in
  zip_with Rplus (map (Rmult N) (zip_with Rminus P fi))
                 (map (Rmult (lambda_h * 2)) x).

(** [scipy.optimize.fmin_bfgs(f, x0, fprime, args=...)]: the objective and
    the gradient arrive closed over [args]. *)
Class Optimizer : Type := {
  fmin_bfgs : (list R → R) → list R → (list R → list R) → list R
}.

(** [_independent_model(f_i, lambda_h, N_eff, L, num_symbols)]: row [i] of
    the result is what the optimizer returns for row [i] of [f_i]. *)
Definition _independent_model `{Optimizer} (f_i : list (list R))
  (lambda_h N_eff : R) (L num_symbols : nat) : res (list (list R)) :=
  map_res (λ i : nat,
      let x0 := replicate num_symbols 0%R in
      do fi <- array_get (f_i !! i);
      Ok (fmin_bfgs (λ x, _log_post x (fi, lambda_h, N_eff)) x0
                    (λ x, _gradient x (fi, lambda_h, N_eff))))
    (seq 0 L).

(** ** A small instance, used to run the definitions

    Alphabet [-AC] with the gap first, three model columns 10, 11, 12 and a
    wildtype whose position [i] sits in column [i + 10]. *)

Definition demo_model (symbols : gmap ascii Z) (columns : gmap Z Z)
  : EVcouplings :=
  {| alphabet_map := symbols;
     index_map := columns;
     num_symbols := 3;
     h_i := λ c a,
       if bool_decide (0 ≤ c < 3 ∧ 0 ≤ a < 3)
       then Some (inject_Z (10 * c + a)) else None;
     J_ij := λ c d a b,
       if bool_decide (0 ≤ c < 3 ∧ 0 ≤ d < 3 ∧ 0 ≤ a < 3 ∧ 0 ≤ b < 3)
       then Some (inject_Z (1000 * c + 100 * d + 10 * a + b)) else None |}.

Definition demo_ev : EVcouplings :=
  demo_model {[ "-"%char := 0; "A"%char := 1; "C"%char := 2 ]}
             {[ 10 := 0; 11 := 1; 12 := 2 ]}.

Definition demo_wildtype (up lo : list Z) : Wildtype :=
  {| sequence := ["A"; "C"; "A"]%char;
     upper := up;
     lower := lo;
     map_to_uniprot := λ i, i + 10;
     to_param_N := "3" |}.

Definition demo_alleles : AlleleCollection :=
  {| to_set_A := "a1";
     to_param_pssm_thresh := "a1 0";
     to_param_p := "a1 1";
     to_param_pssm := λ _, "" |}.

Definition demo_prep (up lo ignored : list Z) (single : bool)
  (pm : list (list ascii)) : AbstractDeimmuPreparation :=
  {| wildtype := demo_wildtype up lo;
     num_mutations := 1;
     epitope_length := 9;
     allele_coll := demo_alleles;
     excluded_pos := [];
     ignored_pos := ignored;
     use_single_site_model := single;
     single_hi := λ i a,
       if bool_decide (0 ≤ i < 3 ∧ 0 ≤ a < 3)
       then Some (inject_Z (7 * i + a)) else None;
     possible_mutations := pm;
     hi := ∅; hi_indices := []; eij_indices := []; eij := ∅ |}.

(** ** Properties the extracted tables are measured against *)

(** The pair rule in the words of the specification: every pair of distinct
    native positions with at least one endpoint outside the ignored list is
    retained, smaller position first. *)
Definition keeps_pairs_with_a_kept_endpoint
  (self self' : AbstractDeimmuPreparation) : Prop :=
  ∀ i j : Z,
    i ∈ upper (wildtype self) → j ∈ upper (wildtype self) → i < j →
    (i ∉ ignored_pos self ∨ j ∉ ignored_pos self) →
    (i, j) ∈ eij_indices self'.

(** An entry of [hi] written by the loop over the native positions. *)
Definition native_entry (self : AbstractDeimmuPreparation) (ev : EVcouplings)
  (i : Z) (aa : ascii) (v : Q) : Prop :=
  i ∈ upper (wildtype self) ∧ aa ≠ "-"%char ∧
  ∃ c a field,
    index_map ev !! map_to_uniprot (wildtype self) i = Some c ∧
    alphabet_map ev !! aa = Some a ∧
    h_i ev c a = Some field ∧
    v = Qopp field.

(** An entry of [hi] written by the loop over the insertion positions. *)
Definition fallback_entry (self : AbstractDeimmuPreparation) (ev : EVcouplings)
  (i : Z) (aa : ascii) (v : Q) : Prop :=
  use_single_site_model self = true ∧
  i ∈ lower (wildtype self) ∧ (i ∉ ignored_pos self) ∧ aa ≠ "-"%char ∧
  ∃ a field,
    alphabet_map ev !! aa = Some a ∧
    single_hi self i a = Some field ∧
    v = Qopp field.

(** An entry of [eij]. *)
Definition coupling_entry (self : AbstractDeimmuPreparation) (ev : EVcouplings)
  (i j : Z) (ai aj : ascii) (v : Q) : Prop :=
  (i, j) ∈ build_eij_indices (upper (wildtype self)) (ignored_pos self) ∧
  (∃ mi mj,
     list_get (possible_mutations self) i = Ok mi ∧ ai ∈ mi ∧
     list_get (possible_mutations self) j = Ok mj ∧ aj ∈ mj) ∧
  ∃ ci cj a b coupling,
    index_map ev !! map_to_uniprot (wildtype self) i = Some ci ∧
    index_map ev !! map_to_uniprot (wildtype self) j = Some cj ∧
    alphabet_map ev !! ai = Some a ∧
    alphabet_map ev !! aj = Some b ∧
    J_ij ev ci cj a b = Some coupling ∧
    v = Qopp coupling.

Definition hi_from_native (self : AbstractDeimmuPreparation) (ev : EVcouplings)
  (tbl : gmap (Z * ascii) Q) : Prop :=
  ∀ i aa v, tbl !! (i, aa) = Some v → native_entry self ev i aa v.

Definition hi_from_either (self : AbstractDeimmuPreparation) (ev : EVcouplings)
  (tbl : gmap (Z * ascii) Q) : Prop :=
  ∀ i aa v, tbl !! (i, aa) = Some v →
    native_entry self ev i aa v ∨ fallback_entry self ev i aa v.

Definition eij_from_couplings (self : AbstractDeimmuPreparation)
  (ev : EVcouplings) (tbl : gmap (Z * Z * ascii * ascii) Q) : Prop :=
  ∀ i j ai aj v, tbl !! (i, j, ai, aj) = Some v →
    coupling_entry self ev i j ai aj v.

(** The allowed-mutation rule for [hi] in the words of the specification:
    the amino acid of every key of [hi] is allowed at the key's position. *)
Definition hi_keys_within_possible_mutations
  (self' : AbstractDeimmuPreparation) : Prop :=
  ∀ (i : Z) (aa : ascii),
    is_Some (hi self' !! (i, aa)) →
    ∃ mi, list_get (possible_mutations self') i = Ok mi ∧ aa ∈ mi.

(** The ignored-position rule for [hi] in the words of the specification:
    no key of [hi] sits on an ignored position. *)
Definition hi_keys_avoid_ignored (self' : AbstractDeimmuPreparation) : Prop :=
  ∀ (i : Z) (aa : ascii),
    is_Some (hi self' !! (i, aa)) → i ∉ ignored_pos self'.

(** ** The serializer *)

(** What the serializer takes from [tools] and [EVhumanization.utilities],
    and how a float prints.  The two keyword arguments of [to_data_format]
    are [None] where the call leaves them at their defaults. *)
Class Tools : Type := {
  to_data_format : string → string → string → option bool → option bool → string;
  ALPHABET_PROTEIN_NOGAP : list ascii;
  str_float : Q → string
}.

Definition nl : string := String "010"%char "".
Definition tab : string := String "009"%char "".

(** [str(n)] and ['%i' % n] on an [int]: the decimal numeral. *)
Definition str_int (n : Z) : string := pretty n.

(** A one-character [str] as text. *)
Definition str_char (c : ascii) : string := String c "".

(** [sep.join(parts)] *)
Definition join (sep : string) (parts : list string) : string :=
  String.concat sep parts.

Section serializer.

Context `{Tools}.

(** [format_eij_indices(self)] *)
Definition format_eij_indices (self : AbstractDeimmuPreparation) : string :=
  join tab (map (λ ij : Z * Z,
                   let '(i, j) := ij in
                   str_int (i + 1) +:+ " " +:+ str_int (j + 1))
                (eij_indices self)).

(** [format_hi(self)] *)
Definition format_hi (self : AbstractDeimmuPreparation) : res string :=
  do rows <- map_res (λ i : Z,
      do cells <- map_res (λ aa, do v <- dict_get (hi self) (i, aa);
                                 Ok (str_float v))
                          ALPHABET_PROTEIN_NOGAP;
      Ok (str_int (i + 1) +:+ " " +:+ join " " cells))
    (hi_indices self);
  Ok (nl +:+ join nl rows).

(** [format_hi_indices(self)] *)
Definition format_hi_indices (self : AbstractDeimmuPreparation) : string :=
  join tab (map (λ i : Z, str_int (i + 1)) (hi_indices self)).

(** One turn of the loop of [format_eij]: the block of the pair [(i, j)]. *)
Definition format_eij_block (self : AbstractDeimmuPreparation) (ij : Z * Z)
  : res string :=
  let '(i, j) := ij in
  let keyword := "[" +:+ str_int (i + 1) +:+ "," +:+ str_int (j + 1) +:+ ",*,*]:" in
  do mj <- list_get (possible_mutations self) j;
  let identifier := join tab (map str_char mj) in
  do mi <- list_get (possible_mutations self) i;
  do content <- for_each mi (λ ai content,
      do mj' <- list_get (possible_mutations self) j;
      do cells <- map_res (λ aj, do v <- dict_get (eij self) (i, j, ai, aj);
                                 Ok (str_float v)) mj';
      Ok (content +:+ str_char ai +:+ tab +:+ join tab cells +:+ nl)) nl;
  Ok (to_data_format keyword identifier content (Some false) (Some false)).

(** [format_eij(self)] *)
Definition format_eij (self : AbstractDeimmuPreparation) : res string :=
  for_each (eij_indices self) (λ ij s,
    do block <- format_eij_block self ij; Ok (s +:+ block)) nl.

Definition banner (title : string) : string :=
  "##################################" +:+ nl +:+ "#" +:+ nl +:+
  "# " +:+ title +:+ nl +:+ "#" +:+ nl +:+
  "##################################" +:+ nl +:+ nl.

(** The positions of the wildtype sequence, [xrange(len(sequence))]. *)
Definition sequence_positions (self : AbstractDeimmuPreparation) : list Z :=
  Z.of_nat <$> seq 0 (length (sequence (wildtype self))).

(** The loop that writes one [WT[...]] set per position. *)
Definition wt_sets (self : AbstractDeimmuPreparation) : list (res string) :=
  map (λ i : Z,
         do aa <- list_get (sequence (wildtype self)) i;
         Ok (to_data_format "set" ("WT[" +:+ str_int (i + 1) +:+ "]")
               (str_char aa) None None))
      (sequence_positions self).

(** The loop that writes one [M[...]] set per position. *)
Definition m_sets (self : AbstractDeimmuPreparation) : list (res string) :=
  map (λ i : Z,
         do mi <- list_get (possible_mutations self) i;
         Ok (to_data_format "set" ("M[" +:+ str_int (i + 1) +:+ "]")
               (join " " (map str_char mi)) None None))
      (sequence_positions self).

(** The arguments of the [f.write] calls of [to_data_file], in order. *)
Definition data_file_chunks (self : AbstractDeimmuPreparation)
  : list (res string) :=
  [ Ok (banner "Sets I");
    Ok (to_data_format "set" "SIGMA"
          (join " " (map str_char ALPHABET_PROTEIN_NOGAP)) None None);
    Ok (to_data_format "set" "A" (to_set_A (allele_coll self)) None None
        +:+ nl);
    Ok (banner "Params I");
    Ok (to_data_format "param" "N" (to_param_N (wildtype self)) None None);
    Ok (to_data_format "param" "eN" (str_int (epitope_length self)) None None);
    Ok (to_data_format "param" "k" (str_int (num_mutations self)) None None);
    Ok (to_data_format "param" "pssm_thresh"
          (to_param_pssm_thresh (allele_coll self)) None None +:+ nl);
    Ok (to_data_format "param" "p" (to_param_p (allele_coll self)) None None
        +:+ nl);
    Ok (to_data_format "param" "pssm"
          (to_param_pssm (allele_coll self) (epitope_length self)) None None
        +:+ nl);
    Ok (banner "Sets II");
    Ok (to_data_format "set" "Eij" (format_eij_indices self) None None);
    Ok (to_data_format "set" "E" (format_hi_indices self) None None +:+ nl) ]
  ++ wt_sets self
  ++ m_sets self
  ++ [ Ok nl;
       Ok (banner "Params II");
       (do s <- format_hi self;
        Ok (to_data_format "param"
              ("h" +:+ ": " +:+ join " " (map str_char ALPHABET_PROTEIN_NOGAP))
              s None None +:+ nl));
       (do s <- format_eij self;
        Ok (to_data_format "param" "eij" s None None));
       Ok (nl +:+ "end;" +:+ nl +:+ nl) ].

(** The [f.write] calls on a file opened for writing: text written before an
    exception stays in the file. *)
Fixpoint write_all (chunks : list (res string)) (written : string)
  : res unit * string :=
  match chunks with
  | [] => (Ok (), written)
  | Ok s :: rest => write_all rest (written +:+ s)
  | Raise e :: _ => (Raise e, written)
  end.

(** [to_data_file(self, out)] on a file system that maps a path to the text
    of the file: [open(out, 'w')] starts from the empty file. *)
Definition to_data_file (self : AbstractDeimmuPreparation) (out : string)
  (fs : gmap string string) : res unit * gmap string string :=
  let '(r, text) := write_all (data_file_chunks self) "" in
  (r, <[out := text]> fs).

(** Modelled from the spec: the run that extracts the parameters and then
    serializes them (data flow of section 2: the extractor feeds the
    serializer, which emits the file); the script that calls
    [extract_ev_paras] and [to_data_file] in turn is not among the sources.
    An exception of the extraction ends the run. *)
Definition prepare_data_file (self : AbstractDeimmuPreparation)
  (ev : EVcouplings) (out : string) (fs : gmap string string)
  : res AbstractDeimmuPreparation * gmap string string :=
  match extract_ev_paras self ev with
  | Ok self' =>
      let '(r, fs') := to_data_file self' out fs in
      (do _ <- r; Ok self', fs')
  | Raise e => (Raise e, fs)
  end.

End serializer.

(** The tools of the small instance: a block is [kind name := content;]. *)
Definition demo_tools : Tools :=
  {| to_data_format := λ kind name content _ _,
       kind +:+ " " +:+ name +:+ " := " +:+ content +:+ ";" +:+ nl;
     ALPHABET_PROTEIN_NOGAP := ["A"; "C"]%char;
     str_float := λ q, str_int (Qnum q) +:+ "/" +:+ str_int (Zpos (Qden q)) |}.

(** A position the extraction works on: a native one, or an insertion one
    that the single-site fallback takes. *)
Definition position_processed (self : AbstractDeimmuPreparation) (i : Z)
  : Prop :=
  i ∈ upper (wildtype self) ∨
  (use_single_site_model self = true ∧
   i ∈ lower (wildtype self) ∧ i ∉ ignored_pos self).

(** The abort rule in the words of the specification: a processed position
    whose column is absent from [index_map] makes the extraction fail. *)
Definition absent_column_aborts (self : AbstractDeimmuPreparation)
  (ev : EVcouplings) : Prop :=
  ∀ i : Z,
    position_processed self i →
    index_map ev !! map_to_uniprot (wildtype self) i = None →
    ∃ e, extract_ev_paras self ev = Raise e.

(** Two instances that agree on every attribute the serializer reads. *)
Definition same_serialized_state (a b : AbstractDeimmuPreparation) : Prop :=
  wildtype a = wildtype b ∧ allele_coll a = allele_coll b ∧
  num_mutations a = num_mutations b ∧ epitope_length a = epitope_length b ∧
  possible_mutations a = possible_mutations b ∧
  hi a = hi b ∧ hi_indices a = hi_indices b ∧
  eij a = eij b ∧ eij_indices a = eij_indices b.

(** ** The positions of the output, in the words of the specification

    The output numbers positions from one.  The renderers below take the
    positions as the file shows them. *)

Definition one_based (i : Z) : Z := i + 1.

Definition render_positions (ps : list Z) : string :=
  join tab (map str_int ps).

Definition render_position_pairs (ps : list (Z * Z)) : string :=
  join tab (map (λ p : Z * Z, str_int p.1 +:+ " " +:+ str_int p.2) ps).

Definition set_name (base : string) (p : Z) : string :=
  base +:+ "[" +:+ str_int p +:+ "]".

Definition block_label (p q : Z) : string :=
  "[" +:+ str_int p +:+ "," +:+ str_int q +:+ ",*,*]:".

Definition h_row (p : Z) (cells : list string) : string :=
  str_int p +:+ " " +:+ join " " cells.

(** ** The data file, in the words of the specification

    Six sections in fixed order, then the end marker.  The tables number
    the positions from zero; every position in the file is the position of
    the tables plus one. *)

(** The pieces of a text, one after the other. *)
Definition text_of (pieces : list string) : string :=
  foldr String.append "" pieces.

(** The positions of [hi_indices] and the pairs of [eij_indices] as the
    file shows them. *)
Definition shown_positions (self : AbstractDeimmuPreparation) : list Z :=
  one_based <$> hi_indices self.

Definition shown_pairs (self : AbstractDeimmuPreparation) : list (Z * Z) :=
  (λ ij : Z * Z, (one_based ij.1, one_based ij.2)) <$> eij_indices self.

(** The positions of a sequence of [n] residues as the file shows them:
    1, 2, ..., [n]. *)
Definition file_positions (n : nat) : list Z := Z.of_nat <$> seq 1 n.

(** The allowed mutations of a position of the tables. *)
Definition allowed (self : AbstractDeimmuPreparation) (i : Z) : list ascii :=
  value_of (list_get (possible_mutations self) i) [].

Section data_file_layout.

Context `{Tools}.

(** An energy of a table as it prints. *)
Definition energy_text `{Countable K} (t : gmap K Q) (k : K) : string :=
  str_float (default 0%Q (t !! k)).

(** Section 1: the alphabet set and the allele set. *)
Definition alphabet_and_allele_sets (self : AbstractDeimmuPreparation)
  : list string :=
  [ banner "Sets I";
    to_data_format "set" "SIGMA"
      (join " " (map str_char ALPHABET_PROTEIN_NOGAP)) None None;
    to_data_format "set" "A" (to_set_A (allele_coll self)) None None +:+ nl ].

(** Section 2: the scalar parameters and what the allele collaborator
    renders. *)
Definition scalar_parameters (self : AbstractDeimmuPreparation)
  : list string :=
  [ banner "Params I";
    to_data_format "param" "N" (to_param_N (wildtype self)) None None;
    to_data_format "param" "eN" (str_int (epitope_length self)) None None;
    to_data_format "param" "k" (str_int (num_mutations self)) None None;
    to_data_format "param" "pssm_thresh"
      (to_param_pssm_thresh (allele_coll self)) None None +:+ nl;
    to_data_format "param" "p" (to_param_p (allele_coll self)) None None
      +:+ nl;
    to_data_format "param" "pssm"
      (to_param_pssm (allele_coll self) (epitope_length self)) None None
      +:+ nl ].

(** Section 3: the pairwise-index set and the single-position-index set, each
    a flat list of one-based positions. *)
Definition index_sets (self : AbstractDeimmuPreparation) : list string :=
  [ banner "Sets II";
    to_data_format "set" "Eij"
      (render_position_pairs (shown_pairs self)) None None;
    to_data_format "set" "E"
      (render_positions (shown_positions self)) None None +:+ nl ].

(** Section 4: one named entry per position of the sequence, for the
    wildtype residue and for the allowed mutations. *)
Definition residue_sets (self : AbstractDeimmuPreparation) : list string :=
  zip_with (λ (p : Z) (aa : ascii),
              to_data_format "set" (set_name "WT" p) (str_char aa) None None)
           (file_positions (length (sequence (wildtype self))))
           (sequence (wildtype self)).

Definition mutation_sets (self : AbstractDeimmuPreparation) : list string :=
  zip_with (λ (p : Z) (mi : list ascii),
              to_data_format "set" (set_name "M" p)
                (join " " (map str_char mi)) None None)
           (file_positions (length (sequence (wildtype self))))
           (possible_mutations self).

(** Section 5: the single-position energy table, one row per retained
    position, an energy for every symbol of the alphabet. *)
Definition single_position_table (self : AbstractDeimmuPreparation)
  : string :=
  to_data_format "param"
    ("h" +:+ ": " +:+ join " " (map str_char ALPHABET_PROTEIN_NOGAP))
    (nl +:+ join nl
       ((λ i : Z,
           h_row (one_based i)
                 ((λ aa, energy_text (hi self) (i, aa))
                    <$> ALPHABET_PROTEIN_NOGAP))
          <$> hi_indices self))
    None None +:+ nl.

(** Section 6: the pairwise energy table, one labelled block per retained
    pair, dense over the allowed mutations of its two positions. *)
Definition pair_block (self : AbstractDeimmuPreparation) (ij : Z * Z)
  : string :=
  to_data_format (block_label (one_based ij.1) (one_based ij.2))
    (join tab (str_char <$> allowed self ij.2))
    (nl +:+ text_of
       ((λ ai : ascii,
           str_char ai +:+ tab +:+
           join tab ((λ aj, energy_text (eij self) (ij.1, ij.2, ai, aj))
                       <$> allowed self ij.2) +:+ nl)
          <$> allowed self ij.1))
    (Some false) (Some false).

Definition pairwise_table (self : AbstractDeimmuPreparation) : string :=
  to_data_format "param" "eij"
    (nl +:+ text_of (pair_block self <$> eij_indices self)) None None.

(** The whole file. *)
Definition data_file_pieces (self : AbstractDeimmuPreparation)
  : list string :=
  alphabet_and_allele_sets self ++ scalar_parameters self ++ index_sets self
  ++ residue_sets self ++ mutation_sets self
  ++ [ nl; banner "Params II"; single_position_table self;
       pairwise_table self; nl +:+ "end;" +:+ nl +:+ nl ].

Definition data_file_text (self : AbstractDeimmuPreparation) : string :=
  text_of (data_file_pieces self).

End data_file_layout.

(** ** Properties the frequency matrix is measured against *)

(** The column of the frequency matrix a residue is counted in: [Some None]
    for a residue that is left out, [None] where the lookup raises. *)
Definition bucket (ev : EVcouplings) (c : ascii) : option (option nat) :=
  let aa := upper_char c in
  if bool_decide (aa ∉ excluded_symbols) then
    match alphabet_map ev !! aa with
    | Some k =>
        match np_index (num_symbols ev) k with
        | Ok k' => Some (Some k')
        | Raise _ => None
        end
    | None => None
    end
  else Some None.

(** The number of sequences whose residue at column [i], once uppercased,
    is [a]. *)
Definition residue_count (matrix : list (list ascii)) (i : nat) (a : ascii)
  : nat :=
  length (filter (λ s, upper_char <$> cell matrix s i = Some a)
                 (seq 0 (length matrix))).

(** Every residue of the alignment is either left out or has a column. *)
Definition residues_countable (matrix : list (list ascii)) (ev : EVcouplings)
  : Prop :=
  ∀ (s i : nat) (c : ascii), cell matrix s i = Some c → is_Some (bucket ev c).

(** Two symbols of the alphabet never share a column. *)
Definition alphabet_separated (ev : EVcouplings) : Prop :=
  ∀ (a b : ascii) (ka kb : Z) (k : nat),
    alphabet_map ev !! a = Some ka → alphabet_map ev !! b = Some kb →
    np_index (num_symbols ev) ka = Ok k → np_index (num_symbols ev) kb = Ok k →
    a = b.

(** What a binary64 number stands for: a finite one is a rational number;
    the infinities and the undefined result of a division are not. *)
Definition float64_is_finite (x : float64) : Prop :=
  match x with
  | S754_zero _ | S754_finite _ _ _ => True
  | _ => False
  end.

Definition float64_value (x : float64) : Q :=
  match x with
  | S754_finite s m e =>
      ((if s then -1 else 1) * inject_Z (Zpos m) * 2 ^ e)%Q
  | _ => 0%Q
  end.

(** The count behind the entry of column [i] and symbol [a]: the symbols
    that are left out are counted nowhere. *)
Definition counted (matrix : list (list ascii)) (i : nat) (a : ascii) : nat :=
  if bool_decide (a ∈ excluded_symbols) then 0%nat
  else residue_count matrix i a.

(** The sum of a row of numbers, taken exactly. *)
Definition row_sum (row : list Q) : Q := foldr Qplus 0%Q row.

(** The last step of the rounding of [SpecFloat]: a result that has grown
    to 54 digits loses its last digit. *)
Definition last_shift (s : bool) (m e : Z) : spec_float :=
  let '(mrs, e') := shr_fexp 53 1024 m e loc_Exact in
  match shr_m mrs with
  | Z0 => S754_zero s
  | Zpos m' => if e' <=? 1024 - 53 then S754_finite s m' e'
               else S754_infinity s
  | Zneg _ => S754_nan
  end.

(** The entry of a matrix at row [i] and column [k]. *)
Definition entry {A : Type} (m : list (list A)) (i k : nat) : option A :=
  m !! i ≫= (.!! k).

(** Column [i] of the alignment holds no symbol that is left out, or holds
    such symbols only. *)
Definition column_without_excluded (matrix : list (list ascii)) (i : nat)
  : Prop :=
  ∀ (s : nat) (c : ascii),
    cell matrix s i = Some c → upper_char c ∉ excluded_symbols.

Definition column_all_excluded (matrix : list (list ascii)) (i : nat)
  : Prop :=
  ∀ (s : nat) (c : ascii),
    cell matrix s i = Some c → upper_char c ∈ excluded_symbols.

(** A copy of the alignment in which some residues are in lower case. *)
Definition lowercased (matrix matrix' : list (list ascii)) : Prop :=
  Forall2 (Forall2 (λ c c', c' = c ∨ c' = lower_char c)) matrix matrix'.

(** The alignment of the end-to-end scenario: four sequences, three
    columns. *)
Definition demo_alignment : list (list ascii) :=
  [ ["A"; "C"; "-"]; ["a"; "C"; "."]; ["C"; "c"; "X"]; ["A"; "A"; "-"] ]%char.

(** The frequency matrix of the alignment of the scenario: [0.75] is
    [6755399441055744 * 2 ^ -53] and [0.25] is [4503599627370496 * 2 ^ -54]. *)
Definition demo_frequencies : list (list float64) :=
  [ [ S754_zero false; S754_finite false 6755399441055744 (-53);
      S754_finite false 4503599627370496 (-54) ];
    [ S754_zero false; S754_finite false 4503599627370496 (-54);
      S754_finite false 6755399441055744 (-53) ];
    [ S754_zero false; S754_zero false; S754_zero false ] ].

(** The column a sequence is counted in at alignment column [i], if any. *)
Definition bucket_of (ev : EVcouplings) (matrix : list (list ascii))
  (s i : nat) : option nat :=
  mjoin (cell matrix s i ≫= bucket ev).

(** Among the sequences [ss], how many are counted in column [k] at
    alignment column [i], and how many are counted at all. *)
Definition hits (ev : EVcouplings) (matrix : list (list ascii))
  (ss : list nat) (i k : nat) : nat :=
  length (filter (λ s, bucket_of ev matrix s i = Some k) ss).

Definition kept (ev : EVcouplings) (matrix : list (list ascii))
  (ss : list nat) (i : nat) : nat :=
  length (filter (λ s, is_Some (bucket_of ev matrix s i)) ss).

(** The count held at row [i], column [k] of the count matrix (zero outside
    it) and the total of row [i]. *)
Definition cnt (fi : list (list nat)) (i k : nat) : nat :=
  default 0%nat (entry fi i k).

Definition total (fi : list (list nat)) (i : nat) : nat :=
  sum_list (default [] (fi !! i)).

(** The count matrix has [L] rows of [n] columns. *)
Definition dims (L n : nat) (fi : list (list nat)) : Prop :=
  length fi = L ∧ Forall (λ r, length r = n) fi.

(** ** The fit, in the words of the specification *)

(** [N (log (sum_a exp x_a) - sum_a f_a x_a) + lambda sum_a x_a^2] *)
Definition objective (N lambda : R) (f x : list R) : R :=
  (N * (ln (vsum (map exp x)) - vsum (zip_with Rmult f x))
   + lambda * vsum (map (λ t, t ^ 2) x))%R.

Definition softmax (x : list R) : list R :=
  map (λ t, exp t / vsum (map exp x))%R x.

(** [N (softmax(x) - f) + 2 lambda x] *)
Definition analytic_gradient (N lambda : R) (f x : list R) : list R :=
  zip_with Rplus (map (λ d, N * d)%R (zip_with Rminus (softmax x) f))
                 (map (λ t, 2 * lambda * t)%R x).

(** An optimizer that takes no step, to run the fitter on. *)
Definition demo_optimizer : Optimizer :=
  {| fmin_bfgs := λ _ x0 _, x0 |}.

(** ** Further properties of the extracted tables *)

(** One table holds every key the other holds. *)
Definition keeps_keys `{Countable K} {V : Type} (t t' : gmap K V) : Prop :=
  ∀ k : K, is_Some (t !! k) → is_Some (t' !! k).

(** The positions [extract_ev_paras] gives energies to. *)
Definition position_retained (self : AbstractDeimmuPreparation) (i : Z)
  : Prop :=
  (i ∈ upper (wildtype self) ∧ i ∉ ignored_pos self) ∨
  (use_single_site_model self = true ∧
   i ∈ lower (wildtype self) ∧ i ∉ ignored_pos self).

(** ** Python text operations used by the code below *)

(** [int(s)] on a [str] is taken from Python as it is. *)
Class Builtins : Type := {
  py_int : string → res Z
}.

(** [s.split(sep)] with a one-character separator: one piece more than
    there are separators, possibly empty pieces. *)
Fixpoint split_on (sep : ascii) (s : string) : list string :=
  match s with
  | EmptyString => [""]
  | String c s' =>
      if decide (c = sep) then "" :: split_on sep s'
      else match split_on sep s' with
           | piece :: rest => String c piece :: rest
           | [] => [String c ""]
           end
  end.

(** The characters [str.strip()] removes. *)
Definition is_space (c : ascii) : bool :=
  bool_decide (c ∈ [" "; "009"; "010"; "011"; "012"; "013"]%char).

Fixpoint lstrip (s : string) : string :=
  match s with
  | EmptyString => ""
  | String c s' => if is_space c then lstrip s' else s
  end.

(** [s.strip()] *)
Definition strip (s : string) : string :=
  String.rev (lstrip (String.rev (lstrip s))).

(** [s.lower()] *)
Fixpoint lower_str (s : string) : string :=
  match s with
  | EmptyString => ""
  | String c s' => String (lower_char c) (lower_str s')
  end.

(** [c.isalpha()] on one character. *)
Definition is_alpha (c : ascii) : bool :=
  let n := nat_of_ascii c in
  bool_decide ((65 ≤ n ≤ 90)%nat ∨ (97 ≤ n ≤ 122)%nat).

(** The characters of a text, and the text of a list of characters. *)
Definition chars (s : string) : list ascii := list_ascii_of_string s.
Definition text (l : list ascii) : string := string_of_list_ascii l.

(** ** Reading the configuration *)

(** What [config.get] answers for the five options the module reads. *)
Record ConfigOptions : Type := {
  opt_k : string;
  opt_epi_len : string;
  opt_exclude_pos : string;
  opt_ignore_pos : string;
  opt_single_site : string
}.

(** The attributes [read_in_config_paras] sets. *)
Record ConfigParas : Type := {
  cfg_num_mutations : Z;
  cfg_epitope_length : Z;
  cfg_excluded_pos : list Z;
  cfg_ignored_pos : list Z;
  cfg_use_single_site_model : bool
}.

Section config.

Context `{Builtins}.

(** [map(lambda x: int(x.strip()) - 1, pos) if pos[0] != '' else []] *)
Definition positions_of (pos : list string) : res (list Z) :=
  do first <- array_get (pos !! 0%nat);
  if decide (first ≠ "") then
    map_res (λ x, do n <- py_int (strip x); Ok (n - 1)) pos
  else Ok [].

(** [read_in_config_paras(self, config)], without the four lines it
    prints. *)
Definition read_in_config_paras (config : ConfigOptions) : res ConfigParas :=
  do k <- py_int (opt_k config);
  do epi_len <- py_int (opt_epi_len config);
  let ex_pos := split_on "," (opt_exclude_pos config) in
  let ig_pos := split_on "," (opt_ignore_pos config) in
  do excluded <- positions_of ex_pos;
  do ignored <- positions_of ig_pos;
  Ok {| cfg_num_mutations := k;
        cfg_epitope_length := epi_len;
        cfg_excluded_pos := excluded;
        cfg_ignored_pos := ignored;
        cfg_use_single_site_model :=
          bool_decide (lower_str (opt_single_site config)
                       ∈ ["yes"; "true"; "t"; "1"]) |}.

End config.

(** ** The solver files *)

(** [''.join(out.split('.')[:-1])] *)
Definition lp_model (out : string) : string :=
  join "" (removelast (split_on "." out)).

(** The command line of one [subprocess.call]. *)
Definition glpsol_command (model_file data lp : string) : string :=
  "glpsol -m " +:+ model_file +:+ " -d " +:+ data +:+ " --check --wcpxlp "
  +:+ lp.

(** [generate_lp_files(self, out, model)], without the line it prints: the
    outcome and the commands handed to the shell, in order. *)
Definition generate_lp_files (out : string) (model : list string)
  : res unit * list string :=
  match list_get model 0 with
  | Raise e => (Raise e, [])
  | Ok m0 =>
      let first := glpsol_command m0 out (lp_model out +:+ "_imm.lp") in
      match list_get model 1 with
      | Raise e => (Raise e, [first])
      | Ok m1 =>
          (Ok (), [first; glpsol_command m1 out (lp_model out +:+ "_en.lp")])
      end
  end.

(** ** Kabat numbering: reading the answer of the numbering service *)

(** [x[:-2]] and [x[-1:]] *)
Definition all_but_last_two (x : string) : string :=
  text (take (length (chars x) - 2) (chars x)).

Definition last_one (x : string) : string :=
  text (drop (length (chars x) - 1) (chars x)).

(** [kabat_list]: one pair per non-empty line of the raw data. *)
Definition kabat_list_of (rawdata : string) : list (string * string) :=
  map (λ x, (all_but_last_two x, last_one x))
      (filter (λ x, x ≠ "") (split_on "010" rawdata)).

Section kabat.

Context `{Builtins}.

(** The key of a Kabat identifier: [(int(kabat[1:-1]), kabat[-1])] when the
    identifier ends in a letter, [(int(kabat[1:]), '')] otherwise. *)
Definition kabat_key (kabat : string) : res (Z * string) :=
  do c <- array_get (last (chars kabat));
  if is_alpha c then
    do n <- py_int (text (take (length (chars kabat) - 2)
                               (drop 1 (chars kabat))));
    Ok (n, str_char c)
  else
    do n <- py_int (text (drop 1 (chars kabat)));
    Ok (n, "").

(** The body of the loop that fills [kabat_dict]; the state is the dict and
    [res_num]. *)
Definition number_residue (entry : string * string)
  (st : gmap (Z * string) Z * Z) : res (gmap (Z * string) Z * Z) :=
  if decide (entry.2 ≠ "-") then
    do key <- kabat_key entry.1;
    Ok (<[key := st.2]> st.1, st.2 + 1)
  else Ok st.

(** The part of [KabatNumbering.__init__] that follows the download:
    [kabat_list] and [kabat_dict] from the raw data. *)
Definition kabat_numbering (rawdata : string)
  : res (list (string * string) * gmap (Z * string) Z) :=
  let kabat_list := kabat_list_of rawdata in
  do st <- for_each kabat_list number_residue (∅, 1);
  Ok (kabat_list, st.1).

End kabat.

(** [kabat_dict[key]]: the dict answers -1 for a key it does not hold. *)
Definition kabat_lookup (d : gmap (Z * string) Z) (key : Z * string) : Z :=
  default (-1) (d !! key).

(** A stand-in for [int] on unsigned decimal numerals, to run the
    definitions: the value of a non-empty string of digits, [ValueError]
    on anything else. *)
Definition digit_value (c : ascii) : option Z :=
  let n := nat_of_ascii c in
  if bool_decide (48 ≤ n ≤ 57)%nat then Some (Z.of_nat (n - 48)) else None.

Fixpoint digits_value (acc : Z) (l : list ascii) : option Z :=
  match l with
  | [] => Some acc
  | c :: l' =>
      match digit_value c with
      | Some d => digits_value (10 * acc + d) l'
      | None => None
      end
  end.

Definition demo_builtins : Builtins :=
  {| py_int := λ s,
       match chars s with
       | [] => Raise ValueError
       | l => match digits_value 0 l with
              | Some n => Ok n
              | None => Raise ValueError
              end
       end |}.

(** The entries of [kabat_list] that carry a residue. *)
Definition residue_entries (kabat_list : list (string * string))
  : list (string * string) :=
  filter (λ entry, entry.2 ≠ "-") kabat_list.
(** * Theorems *)

(** ** Facts about the error monad and the loops *)

(** Runs the extraction of a closed instance and names its result. *)
Ltac run_extraction :=
  lazymatch goal with
  | |- ∃ s, extract_ev_paras ?self ?ev = Ok s ∧ _ =>
      exists (value_of (extract_ev_paras self ev) self);
      split; [vm_compute; reflexivity|]
  end.

Lemma res_bind_Ok {A B : Type} (m : res A) (k : A → res B) (b : B) :
  res_bind m k = Ok b ↔ ∃ a, m = Ok a ∧ k a = Ok b.
Proof.
  destruct m as [a|e]; simpl.
  - split; [eauto | intros (a' & [= <-] & Hk); exact Hk].
  - split; [discriminate | intros (a' & [=] & _)].
Qed.

Lemma dict_get_Ok `{Countable K} {V : Type} (d : gmap K V) (k : K) (v : V) :
  dict_get d k = Ok v ↔ d !! k = Some v.
Proof. unfold dict_get. destruct (d !! k); split; congruence. Qed.

Lemma array_get_Ok {V : Type} (cell : option V) (v : V) :
  array_get cell = Ok v ↔ cell = Some v.
Proof. destruct cell; simpl; split; congruence. Qed.

(** An invariant of the threaded state that every successful iteration
    preserves holds when the loop ends. *)
Lemma for_each_invariant {A S : Type} (P : S → Prop) (xs : list A)
  (body : A → S → res S) :
  (∀ x s s', x ∈ xs → P s → body x s = Ok s' → P s') →
  ∀ s s', P s → for_each xs body s = Ok s' → P s'.
Proof.
  induction xs as [|x xs IH]; intros Hbody s s' Hs Hrun; simpl in Hrun.
  - congruence.
  - apply res_bind_Ok in Hrun as (s1 & H1 & Hrest).
    eapply IH; [| |exact Hrest].
    + intros y t t' Hy. apply Hbody. by right.
    + eapply Hbody; [by left|exact Hs|exact H1].
Qed.

(** A loop whose body raises at one of its elements, whatever the state,
    raises: at that element or before. *)
Lemma for_each_fails {A S : Type} (xs : list A) (body : A → S → res S)
  (x : A) :
  x ∈ xs →
  (∀ s, ∃ e, body x s = Raise e) →
  ∀ s, ∃ e, for_each xs body s = Raise e.
Proof.
  induction xs as [|y xs IH]; intros Hx Hbad s.
  - by apply elem_of_nil in Hx.
  - simpl. destruct (body y s) as [s'|e] eqn:Hy; [|by exists e].
    simpl. apply elem_of_cons in Hx as [->|Hx].
    + destruct (Hbad s) as [e He]. congruence.
    + by apply IH.
Qed.

(** ** The pairwise index list *)

Section sorted_set.

#[local] Instance tuple_le_trans : Transitive tuple_le.
Proof. intros [a b] [c d] [e f]; unfold tuple_le; simpl; lia. Qed.

#[local] Instance tuple_le_total : Total tuple_le.
Proof. intros [a b] [c d]; unfold tuple_le; simpl; lia. Qed.

Lemma elem_of_sorted_set (l : list (Z * Z)) (p : Z * Z) :
  p ∈ sorted_set l ↔ p ∈ l.
Proof.
  unfold sorted_set. rewrite merge_sort_Permutation.
  rewrite elem_of_elements. apply elem_of_list_to_set.
Qed.

Lemma NoDup_sorted_set (l : list (Z * Z)) : NoDup (sorted_set l).
Proof.
  unfold sorted_set. rewrite merge_sort_Permutation. apply NoDup_elements.
Qed.

(** Without duplicates, ascending is strictly ascending. *)
Lemma StronglySorted_strict (l : list (Z * Z)) :
  NoDup l → StronglySorted tuple_le l → StronglySorted tuple_lt l.
Proof.
  induction l as [|p l IH]; intros Hnd Hs; [constructor|].
  apply NoDup_cons in Hnd as [Hp Hnd].
  apply StronglySorted_inv in Hs as [Hs Hall].
  constructor; [by apply IH|].
  apply Forall_forall. intros q Hq.
  rewrite Forall_forall in Hall. specialize (Hall q Hq).
  assert (p ≠ q) as Hne by (intros ->; contradiction).
  destruct p as [a b], q as [c d]. unfold tuple_le, tuple_lt in *. simpl in *.
  destruct Hall as [?|[-> Hle]]; [by left|right].
  split; [done|]. destruct (decide (b = d)) as [->|]; [done|lia].
Qed.

Lemma sorted_set_ascending (l : list (Z * Z)) :
  StronglySorted tuple_lt (sorted_set l).
Proof.
  apply StronglySorted_strict; [apply NoDup_sorted_set|].
  unfold sorted_set. apply StronglySorted_merge_sort; apply _.
Qed.

End sorted_set.

(** What the comprehension collects: the pair is canonical and its smaller
    position is the one tested against the ignored list. *)
Lemma elem_of_pair_candidates (up ignored : list Z) (a b : Z) :
  (a, b) ∈ pair_candidates up ignored ↔
  a ∈ up ∧ b ∈ up ∧ a < b ∧ a ∉ ignored.
Proof.
  unfold pair_candidates. rewrite list_elem_of_bind. split.
  - intros (i & Hin & Hi). apply list_elem_of_bind in Hin as (j & Hin & Hj).
    destruct (bool_decide (i ≠ j) && _) eqn:Hc; [|by apply elem_of_nil in Hin].
    apply list_elem_of_singleton in Hin.
    apply andb_prop in Hc as [Hne Hc]. apply bool_decide_eq_true in Hne.
    apply orb_prop in Hc as [Hc|Hc]; apply andb_prop in Hc as [Hlt Hig];
      apply bool_decide_eq_true in Hlt; apply bool_decide_eq_true in Hig.
    + rewrite bool_decide_eq_true_2 in Hin by done. by simplify_eq.
    + rewrite bool_decide_eq_false_2 in Hin by lia. by simplify_eq.
  - intros (Ha & Hb & Hlt & Hig). exists a. split; [|done].
    apply list_elem_of_bind. exists b. split; [|done].
    rewrite (bool_decide_eq_true_2 (a ≠ b)) by lia.
    rewrite (bool_decide_eq_true_2 (a < b)) by done.
    rewrite (bool_decide_eq_true_2 (a ∉ ignored)) by done.
    simpl. by apply list_elem_of_singleton.
Qed.

Lemma elem_of_build_eij_indices (up ignored : list Z) (a b : Z) :
  (a, b) ∈ build_eij_indices up ignored ↔
  a ∈ up ∧ b ∈ up ∧ a < b ∧ a ∉ ignored.
Proof.
  unfold build_eij_indices. rewrite elem_of_sorted_set.
  apply elem_of_pair_candidates.
Qed.

(** ** The shape of a successful extraction *)

Lemma extract_ev_paras_Ok (self self' : AbstractDeimmuPreparation)
  (ev : EVcouplings) :
  extract_ev_paras self ev = Ok self' →
  ∃ hi0 st e,
    for_each (upper (wildtype self)) (native_fields ev (wildtype self)) ∅
      = Ok hi0 ∧
    (if use_single_site_model self
     then for_each (lower (wildtype self))
            (fallback_fields ev (single_hi self) (ignored_pos self))
            (filter (λ i, i ∉ ignored_pos self) (upper (wildtype self)), hi0)
     else Ok (filter (λ i, i ∉ ignored_pos self) (upper (wildtype self)), hi0))
      = Ok st ∧
    for_each (build_eij_indices (upper (wildtype self)) (ignored_pos self))
      (pair_couplings ev (wildtype self) (possible_mutations self)) ∅ = Ok e ∧
    hi self' = st.2 ∧
    hi_indices self' = merge_sort Z.le st.1 ∧
    eij_indices self' =
      build_eij_indices (upper (wildtype self)) (ignored_pos self) ∧
    eij self' = e.
Proof.
  unfold extract_ev_paras. intros Hrun.
  apply res_bind_Ok in Hrun as (hi0 & Hhi0 & Hrun).
  apply res_bind_Ok in Hrun as (st & Hst & Hrun).
  apply res_bind_Ok in Hrun as (e & He & Hrun).
  injection Hrun as <-. exists hi0, st, e. by repeat split.
Qed.

(** C1 (amended): after a successful [extract_ev_paras], [eij_indices]
    holds exactly the pairs [(i, j)] of native (upper) positions with
    [i < j] whose smaller position [i] is not ignored; it has no duplicate and
    is strictly ascending in the lexicographic order of pairs.  Whether the
    larger position is ignored plays no role. *)
Theorem eij_indices_smaller_position_kept
  (self self' : AbstractDeimmuPreparation) (ev : EVcouplings) :
  extract_ev_paras self ev = Ok self' →
  (∀ i j : Z,
     (i, j) ∈ eij_indices self' ↔
     i ∈ upper (wildtype self) ∧ j ∈ upper (wildtype self) ∧
     i < j ∧ i ∉ ignored_pos self) ∧
  NoDup (eij_indices self') ∧
  StronglySorted tuple_lt (eij_indices self').
Proof.
  intros Hrun.
  apply extract_ev_paras_Ok in Hrun as (_ & _ & _ & _ & _ & _ & _ & _ & -> & _).
  split; [|split].
  - intros i j. apply elem_of_build_eij_indices.
  - apply NoDup_sorted_set.
  - apply sorted_set_ascending.
Qed.

Lemma eij_indices_smaller_position_kept_witness :
  ∃ self',
    extract_ev_paras
      (demo_prep [0; 1; 2] [] [1] false [["A"]; ["A"; "C"]; ["C"]]%char)
      demo_ev = Ok self' ∧
    eij_indices self' = [(0, 1); (0, 2)] ∧
    (∀ i j : Z, (i, j) ∈ eij_indices self' ↔
       i ∈ [0; 1; 2] ∧ j ∈ [0; 1; 2] ∧ i < j ∧ i ∉ [1]) ∧
    NoDup (eij_indices self') ∧
    StronglySorted tuple_lt (eij_indices self').
Proof.
  run_extraction.
  split; [vm_compute; reflexivity|].
  apply (eij_indices_smaller_position_kept
           (demo_prep [0; 1; 2] [] [1] false [["A"]; ["A"; "C"]; ["C"]]%char)
           _ demo_ev).
  vm_compute; reflexivity.
Defined.

(** C1, as stated, fails: with native positions 0 and 1 and position 0
    ignored, the pair (0, 1) has the endpoint 1 outside the ignored list, yet
    the extraction succeeds with an empty [eij_indices]. *)
Lemma eij_indices_drops_pair_with_ignored_smaller_position :
  ∃ self',
    extract_ev_paras (demo_prep [0; 1] [] [0] false [["A"]; ["C"]]%char)
      demo_ev = Ok self' ∧
    eij_indices self' = [] ∧
    ¬ keeps_pairs_with_a_kept_endpoint
        (demo_prep [0; 1] [] [0] false [["A"]; ["C"]]%char) self'.
Proof.
  run_extraction.
  split; [vm_compute; reflexivity|].
  intros Hclaim.
  specialize (Hclaim 0 1). simpl in Hclaim.
  assert ((0, 1) ∈ @nil (Z * Z)) as Hin.
  { apply Hclaim; [set_solver|set_solver|lia|].
    right. rewrite list_elem_of_singleton. lia. }
  by apply elem_of_nil in Hin.
Qed.

(** ** Where the entries of the two energy tables come from *)

Lemma Qmult_minus_one (v : Q) : (- 1 * v)%Q = Qopp v.
Proof. destruct v as [[|n|n] d]; reflexivity. Qed.

Lemma elem_of_nogap_keys (ev : EVcouplings) (aa : ascii) :
  aa ∈ nogap_keys ev ↔ aa ≠ "-"%char ∧ is_Some (alphabet_map ev !! aa).
Proof.
  unfold nogap_keys, keys. rewrite list_elem_of_filter, list_elem_of_fmap.
  split.
  - intros (Hne & [k v] & -> & Hin). split; [done|].
    apply elem_of_map_to_list in Hin. by exists v.
  - intros (Hne & v & Hv). split; [done|]. exists (aa, v). split; [done|].
    by apply elem_of_map_to_list.
Qed.

Section entries.

Variables (self : AbstractDeimmuPreparation) (ev : EVcouplings).

Let wt := wildtype self.

Lemma native_fields_entries (i : Z) (tbl tbl' : gmap (Z * ascii) Q) :
  i ∈ upper wt → hi_from_native self ev tbl →
  native_fields ev wt i tbl = Ok tbl' → hi_from_native self ev tbl'.
Proof.
  intros Hi. unfold native_fields. apply for_each_invariant.
  intros ai t t' Hai Ht Hbody.
  apply res_bind_Ok in Hbody as (c & Hc%dict_get_Ok & Hbody).
  apply res_bind_Ok in Hbody as (a & Ha%dict_get_Ok & Hbody).
  apply res_bind_Ok in Hbody as (v & Hv%array_get_Ok & [= <-]).
  intros k aa w Hw. apply elem_of_nogap_keys in Hai as [Hgap _].
  destruct (decide ((i, ai) = (k, aa))) as [[= <- <-]|Hne].
  - rewrite lookup_insert_eq in Hw. injection Hw as <-.
    split; [done|]. split; [done|].
    exists c, a, v. by rewrite Qmult_minus_one.
  - rewrite lookup_insert_ne in Hw by done. by apply Ht.
Qed.

Lemma native_loop_entries (tbl : gmap (Z * ascii) Q) :
  for_each (upper wt) (native_fields ev wt) ∅ = Ok tbl → hi_from_native self ev tbl.
Proof.
  apply for_each_invariant.
  - intros i t t' Hi. by apply native_fields_entries.
  - intros i aa v Hv. by rewrite lookup_empty in Hv.
Qed.

Lemma fallback_fields_entries (i : Z) (st st' : list Z * gmap (Z * ascii) Q) :
  use_single_site_model self = true →
  i ∈ lower wt → hi_from_either self ev st.2 →
  fallback_fields ev (single_hi self) (ignored_pos self) i st = Ok st' →
  hi_from_either self ev st'.2.
Proof.
  intros Huse Hi Hst. unfold fallback_fields. case_bool_decide as Hig.
  - intros Hrun. apply res_bind_Ok in Hrun as (tbl & Hloop & [= <-]). simpl.
    revert Hst Hloop. generalize (st.2). intros t0 Ht0.
    apply for_each_invariant; [|exact Ht0].
    intros ai t t' Hai Ht Hbody.
    apply res_bind_Ok in Hbody as (a & Ha%dict_get_Ok & Hbody).
    apply res_bind_Ok in Hbody as (v & Hv%array_get_Ok & [= <-]).
    intros k aa w Hw. apply elem_of_nogap_keys in Hai as [Hgap _].
    destruct (decide ((i, ai) = (k, aa))) as [[= <- <-]|Hne].
    + rewrite lookup_insert_eq in Hw. injection Hw as <-.
      right. repeat (split; [done|]).
      exists a, v. by rewrite Qmult_minus_one.
    + rewrite lookup_insert_ne in Hw by done. by apply Ht.
  - by intros [= <-].
Qed.

Lemma pair_couplings_entries (ij : Z * Z)
  (tbl tbl' : gmap (Z * Z * ascii * ascii) Q) :
  ij ∈ build_eij_indices (upper wt) (ignored_pos self) →
  eij_from_couplings self ev tbl →
  pair_couplings ev wt (possible_mutations self) ij tbl = Ok tbl' →
  eij_from_couplings self ev tbl'.
Proof.
  destruct ij as [i j]. intros Hij Htbl. unfold pair_couplings.
  intros Hrun. apply res_bind_Ok in Hrun as (mi & Hmi & Hrun).
  revert Htbl Hrun. apply for_each_invariant.
  intros ai t t' Hai Ht Hbody.
  apply res_bind_Ok in Hbody as (mj & Hmj & Hbody).
  revert Ht Hbody. apply for_each_invariant.
  intros aj u u' Haj Hu Hbody.
  apply res_bind_Ok in Hbody as (ci & Hci%dict_get_Ok & Hbody).
  apply res_bind_Ok in Hbody as (cj & Hcj%dict_get_Ok & Hbody).
  apply res_bind_Ok in Hbody as (a & Ha%dict_get_Ok & Hbody).
  apply res_bind_Ok in Hbody as (b & Hb%dict_get_Ok & Hbody).
  apply res_bind_Ok in Hbody as (v & Hv%array_get_Ok & [= <-]).
  intros k l ak al w Hw.
  destruct (decide ((i, j, ai, aj) = (k, l, ak, al))) as [[= <- <- <- <-]|Hne].
  - rewrite lookup_insert_eq in Hw. injection Hw as <-.
    split; [done|]. split; [by exists mi, mj|].
    exists ci, cj, a, b, v. by rewrite Qmult_minus_one.
  - rewrite lookup_insert_ne in Hw by done. by apply Hu.
Qed.

(** Every entry of the two tables of a successful extraction has one of
    the three origins. *)
Lemma extract_ev_paras_entries (self' : AbstractDeimmuPreparation) :
  extract_ev_paras self ev = Ok self' →
  hi_from_either self ev (hi self') ∧ eij_from_couplings self ev (eij self').
Proof.
  intros Hrun.
  apply extract_ev_paras_Ok in Hrun
    as (hi0 & st & e & Hhi0 & Hst & He & -> & _ & _ & ->).
  apply native_loop_entries in Hhi0. split.
  - destruct (use_single_site_model self) eqn:Huse.
    + revert Hst. apply (for_each_invariant (λ st, hi_from_either self ev st.2)).
      * intros i t t' Hi. by apply fallback_fields_entries.
      * simpl. intros i aa v Hv. left. by apply Hhi0.
    + injection Hst as <-. simpl. intros i aa v Hv. left. by apply Hhi0.
  - revert He. apply for_each_invariant.
    + intros ij t t' Hij. by apply pair_couplings_entries.
    + intros i j ai aj v Hv. by rewrite lookup_empty in Hv.
Qed.

End entries.

(** ** The energy tables *)

(** C5: after a successful [extract_ev_paras], every value stored in [hi] is
    the exact negation of the coupling-model field [h_i] at the mapped column
    and symbol index (native path) or of the fitted single-site field
    [single_hi] at the position and symbol index (fallback path), and every
    value stored in [eij] is the exact negation of the coupling [J_ij] at the
    two mapped columns and the two symbol indices. *)
Theorem stored_energies_are_negated_model_values
  (self self' : AbstractDeimmuPreparation) (ev : EVcouplings) :
  extract_ev_paras self ev = Ok self' →
  (∀ (i : Z) (aa : ascii) (v : Q),
     hi self' !! (i, aa) = Some v →
     (∃ c a field,
        index_map ev !! map_to_uniprot (wildtype self) i = Some c ∧
        alphabet_map ev !! aa = Some a ∧
        h_i ev c a = Some field ∧
        v = (- 1 * field)%Q ∧ v = Qopp field) ∨
     (∃ a field,
        use_single_site_model self = true ∧
        alphabet_map ev !! aa = Some a ∧
        single_hi self i a = Some field ∧
        v = (- 1 * field)%Q ∧ v = Qopp field)) ∧
  (∀ (i j : Z) (ai aj : ascii) (v : Q),
     eij self' !! (i, j, ai, aj) = Some v →
     ∃ ci cj a b coupling,
       index_map ev !! map_to_uniprot (wildtype self) i = Some ci ∧
       index_map ev !! map_to_uniprot (wildtype self) j = Some cj ∧
       alphabet_map ev !! ai = Some a ∧
       alphabet_map ev !! aj = Some b ∧
       J_ij ev ci cj a b = Some coupling ∧
       v = (- 1 * coupling)%Q ∧ v = Qopp coupling).
Proof.
  intros Hrun. apply extract_ev_paras_entries in Hrun as [Hhi Heij]. split.
  - intros i aa v Hv. destruct (Hhi i aa v Hv) as [Hn|Hf].
    + left. destruct Hn as (_ & _ & c & a & field & Hc & Ha & Hf & ->).
      exists c, a, field. by repeat split; try (symmetry; apply Qmult_minus_one).
    + right. destruct Hf as (Huse & _ & _ & _ & a & field & Ha & Hf & ->).
      exists a, field. by repeat split; try (symmetry; apply Qmult_minus_one).
  - intros i j ai aj v Hv.
    destruct (Heij i j ai aj v Hv)
      as (_ & _ & ci & cj & a & b & coupling & Hci & Hcj & Ha & Hb & HJ & ->).
    exists ci, cj, a, b, coupling. by repeat split; try (symmetry; apply Qmult_minus_one).
Qed.

Lemma stored_energies_are_negated_model_values_witness :
  ∃ self',
    extract_ev_paras
      (demo_prep [0; 2] [1] [] true [["A"]; ["A"; "C"]; ["C"]]%char)
      demo_ev = Ok self' ∧
    hi self' !! (2, "C"%char) = Some (- 22 # 1)%Q ∧
    hi self' !! (1, "A"%char) = Some (- 8 # 1)%Q ∧
    eij self' !! (0, 2, "A"%char, "C"%char) = Some (- 212 # 1)%Q ∧
    (∀ (i j : Z) (ai aj : ascii) (v : Q),
       eij self' !! (i, j, ai, aj) = Some v →
       ∃ ci cj a b coupling,
         index_map demo_ev !! (i + 10) = Some ci ∧
         index_map demo_ev !! (j + 10) = Some cj ∧
         alphabet_map demo_ev !! ai = Some a ∧
         alphabet_map demo_ev !! aj = Some b ∧
         J_ij demo_ev ci cj a b = Some coupling ∧
         v = (- 1 * coupling)%Q ∧ v = Qopp coupling).
Proof.
  run_extraction.
  repeat (split; [vm_compute; reflexivity|]).
  apply (stored_energies_are_negated_model_values
           (demo_prep [0; 2] [1] [] true [["A"]; ["A"; "C"]; ["C"]]%char)
           _ demo_ev).
  vm_compute; reflexivity.
Defined.

(** C3 (amended): after a successful [extract_ev_paras], the two amino acids
    of every key [(i, j, ai, aj)] of [eij] belong to
    [possible_mutations[i]] and [possible_mutations[j]]; the amino acid of a
    key [(i, aa)] of [hi] is a symbol of the coupling model's alphabet other
    than the gap, whatever [possible_mutations[i]] holds. *)
Theorem energy_keys_symbols
  (self self' : AbstractDeimmuPreparation) (ev : EVcouplings) :
  extract_ev_paras self ev = Ok self' →
  (∀ (i j : Z) (ai aj : ascii),
     is_Some (eij self' !! (i, j, ai, aj)) →
     ∃ mi mj,
       list_get (possible_mutations self) i = Ok mi ∧ ai ∈ mi ∧
       list_get (possible_mutations self) j = Ok mj ∧ aj ∈ mj) ∧
  (∀ (i : Z) (aa : ascii),
     is_Some (hi self' !! (i, aa)) →
     aa ≠ "-"%char ∧ is_Some (alphabet_map ev !! aa)).
Proof.
  intros Hrun. apply extract_ev_paras_entries in Hrun as [Hhi Heij]. split.
  - intros i j ai aj [v Hv].
    by destruct (Heij i j ai aj v Hv) as (_ & Hpm & _).
  - intros i aa [v Hv]. destruct (Hhi i aa v Hv) as [Hn|Hf].
    + destruct Hn as (_ & Hgap & c & a & field & _ & Ha & _). eauto.
    + destruct Hf as (_ & _ & _ & Hgap & a & field & Ha & _). eauto.
Qed.

Lemma energy_keys_symbols_witness :
  ∃ self',
    extract_ev_paras
      (demo_prep [0; 2] [1] [] true [["A"]; ["A"; "C"]; ["C"]]%char)
      demo_ev = Ok self' ∧
    is_Some (eij self' !! (0, 2, "A"%char, "C"%char)) ∧
    (∀ (i : Z) (aa : ascii),
       is_Some (hi self' !! (i, aa)) →
       aa ≠ "-"%char ∧ is_Some (alphabet_map demo_ev !! aa)).
Proof.
  run_extraction.
  split; [vm_compute; eauto|].
  apply (energy_keys_symbols
           (demo_prep [0; 2] [1] [] true [["A"]; ["A"; "C"]; ["C"]]%char)
           _ demo_ev).
  vm_compute; reflexivity.
Defined.

(** C3, as stated, fails on [hi]: position 0 allows only [A], yet [hi] has
    an entry for [(0, C)], because the native loop runs over the whole
    alphabet of the coupling model. *)
Lemma hi_key_outside_possible_mutations :
  ∃ self',
    extract_ev_paras (demo_prep [0] [] [] false [["A"]]%char) demo_ev
      = Ok self' ∧
    hi self' !! (0, "C"%char) = Some (- 2 # 1)%Q ∧
    list_get (possible_mutations self') 0 = Ok ["A"%char] ∧
    ¬ hi_keys_within_possible_mutations self'.
Proof.
  run_extraction.
  split; [vm_compute; reflexivity|].
  split; [vm_compute; reflexivity|].
  intros Hclaim. destruct (Hclaim 0 "C"%char) as (mi & Hmi & Hin).
  - vm_compute. eauto.
  - vm_compute in Hmi. injection Hmi as <-.
    apply list_elem_of_singleton in Hin. discriminate.
Qed.

(** C2 at its failing input: native position 0 is ignored, the extraction
    succeeds, [hi_indices] leaves the position out, and [hi] still holds
    entries for it. *)
Lemma hi_holds_ignored_native_position :
  ∃ self',
    extract_ev_paras (demo_prep [0] [] [0] false [["A"]]%char) demo_ev
      = Ok self' ∧
    0 ∈ ignored_pos self' ∧
    hi_indices self' = [] ∧
    hi self' !! (0, "A"%char) = Some (- 1 # 1)%Q ∧
    ¬ hi_keys_avoid_ignored self'.
Proof.
  run_extraction.
  split; [vm_compute; set_solver|].
  split; [vm_compute; reflexivity|].
  split; [vm_compute; reflexivity|].
  intros Hclaim. apply (Hclaim 0 "A"%char).
  - vm_compute. eauto.
  - vm_compute. set_solver.
Qed.

(** ** Columns missing from the model *)

Lemma native_fields_absent_column (ev : EVcouplings) (wt : Wildtype) (i : Z)
  (tbl : gmap (Z * ascii) Q) :
  nogap_keys ev ≠ [] →
  index_map ev !! map_to_uniprot wt i = None →
  native_fields ev wt i tbl = Raise KeyError.
Proof.
  intros Hkeys Hcol. unfold native_fields.
  destruct (nogap_keys ev) as [|ai rest]; [done|].
  simpl. unfold dict_get. by rewrite Hcol.
Qed.

(** C7 (amended): if a native (upper) position maps to a column absent from
    [index_map] and the alphabet map has a symbol other than the gap, then
    [extract_ev_paras] raises instead of skipping the position, and the run
    that serializes after the extraction raises the same exception and
    leaves every file as it was.  Insertion positions are not looked up in
    [index_map]. *)
Theorem absent_native_column_aborts `{Tools}
  (self : AbstractDeimmuPreparation) (ev : EVcouplings) (i : Z) (aa : ascii)
  (out : string) (fs : gmap string string) :
  i ∈ upper (wildtype self) →
  index_map ev !! map_to_uniprot (wildtype self) i = None →
  aa ≠ "-"%char → is_Some (alphabet_map ev !! aa) →
  ∃ e,
    extract_ev_paras self ev = Raise e ∧
    prepare_data_file self ev out fs = (Raise e, fs).
Proof.
  intros Hi Hcol Hgap Haa.
  assert (nogap_keys ev ≠ []) as Hkeys.
  { intros Hnil. assert (aa ∈ nogap_keys ev) as Hin
      by (by apply elem_of_nogap_keys).
    rewrite Hnil in Hin. by apply elem_of_nil in Hin. }
  destruct (for_each_fails (upper (wildtype self))
              (native_fields ev (wildtype self)) i Hi) with (s := (∅ : gmap (Z * ascii) Q))
    as [e He].
  { intros tbl. exists KeyError. by apply native_fields_absent_column. }
  exists e.
  assert (extract_ev_paras self ev = Raise e) as Hrun.
  { unfold extract_ev_paras. by rewrite He. }
  split; [done|]. unfold prepare_data_file. by rewrite Hrun.
Qed.

Lemma absent_native_column_aborts_witness :
  2 ∈ upper (wildtype (demo_prep [0; 2] [] [] false [["A"]; ["C"]; ["C"]]%char)) ∧
  index_map (demo_model {[ "-"%char := 0; "A"%char := 1 ]} {[ 10 := 0 ]})
    !! (2 + 10) = None ∧
  "A"%char ≠ "-"%char ∧
  ∃ e,
    extract_ev_paras (demo_prep [0; 2] [] [] false [["A"]; ["C"]; ["C"]]%char)
      (demo_model {[ "-"%char := 0; "A"%char := 1 ]} {[ 10 := 0 ]}) = Raise e ∧
    @prepare_data_file demo_tools
      (demo_prep [0; 2] [] [] false [["A"]; ["C"]; ["C"]]%char)
      (demo_model {[ "-"%char := 0; "A"%char := 1 ]} {[ 10 := 0 ]})
      "out" ∅ = (Raise e, ∅).
Proof.
  split; [simpl; set_solver|].
  split; [vm_compute; reflexivity|].
  split; [discriminate|].
  apply (@absent_native_column_aborts demo_tools
           (demo_prep [0; 2] [] [] false [["A"]; ["C"]; ["C"]]%char)
           (demo_model {[ "-"%char := 0; "A"%char := 1 ]} {[ 10 := 0 ]})
           2 "A"%char "out" ∅).
  - simpl; set_solver.
  - vm_compute; reflexivity.
  - discriminate.
  - vm_compute; eauto.
Defined.

(** C7, as stated, fails twice.  An insertion position taken by the
    single-site fallback is processed although its column 11 is absent from
    [index_map], and the extraction succeeds with entries for it.  With an
    alphabet that holds the gap alone, a native position with an absent
    column is passed over without any lookup. *)
Lemma absent_column_without_abort :
  (∃ self',
     extract_ev_paras
       (demo_prep [0; 2] [1] [] true [["A"]; ["A"; "C"]; ["C"]]%char)
       (demo_model {[ "-"%char := 0; "A"%char := 1; "C"%char := 2 ]}
                   {[ 10 := 0; 12 := 1 ]}) = Ok self' ∧
     hi self' !! (1, "A"%char) = Some (- 8 # 1)%Q ∧
     hi_indices self' = [0; 1; 2] ∧
     ¬ absent_column_aborts
         (demo_prep [0; 2] [1] [] true [["A"]; ["A"; "C"]; ["C"]]%char)
         (demo_model {[ "-"%char := 0; "A"%char := 1; "C"%char := 2 ]}
                     {[ 10 := 0; 12 := 1 ]})) ∧
  (∃ self',
     extract_ev_paras (demo_prep [0] [] [] false [["A"]]%char)
       (demo_model {[ "-"%char := 0 ]} ∅) = Ok self' ∧
     hi self' = ∅ ∧
     ¬ absent_column_aborts (demo_prep [0] [] [] false [["A"]]%char)
         (demo_model {[ "-"%char := 0 ]} ∅)).
Proof.
  split.
  - run_extraction.
    split; [vm_compute; reflexivity|].
    split; [vm_compute; reflexivity|].
    intros Hclaim. destruct (Hclaim 1) as [e He].
    + right. simpl. split; [done|]. split; set_solver.
    + vm_compute; reflexivity.
    + vm_compute in He. discriminate.
  - run_extraction.
    split; [vm_compute; reflexivity|].
    intros Hclaim. destruct (Hclaim 0) as [e He].
    + left. simpl. set_solver.
    + vm_compute; reflexivity.
    + vm_compute in He. discriminate.
Qed.

(** ** The data file *)

(** The text of the data file is a function of the attributes the serializer
    reads; the position lists, the ignore flag and the fitted fields do not
    reach it. *)
Lemma to_data_file_reads `{Tools} (a b : AbstractDeimmuPreparation)
  (out : string) (fs : gmap string string) :
  same_serialized_state a b → to_data_file a out fs = to_data_file b out fs.
Proof.
  destruct a, b. unfold same_serialized_state. simpl.
  intros (-> & -> & -> & -> & -> & -> & -> & -> & ->). reflexivity.
Qed.

(** ** Positions: zero-based inside, one-based in the file *)

Lemma map_res_Ok {A B : Type} (f : A → res B) (xs : list A) (ys : list B) :
  map_res f xs = Ok ys → Forall2 (λ x y, f x = Ok y) xs ys.
Proof.
  revert ys. induction xs as [|x xs IH]; intros ys Hrun; simpl in Hrun.
  - injection Hrun as <-. constructor.
  - apply res_bind_Ok in Hrun as (y & Hy & Hrun).
    apply res_bind_Ok in Hrun as (ys' & Hys & [= <-]).
    constructor; [exact Hy|by apply IH].
Qed.

(** A loop that appends one piece per element to a text. *)
Lemma for_each_append {A : Type} (g : A → res string) (xs : list A)
  (s0 s : string) :
  for_each xs (λ x acc, do piece <- g x; Ok (acc +:+ piece)) s0 = Ok s →
  ∃ pieces,
    Forall2 (λ x piece, g x = Ok piece) xs pieces ∧
    s = foldl (λ acc piece, acc +:+ piece) s0 pieces.
Proof.
  revert s0. induction xs as [|x xs IH]; intros s0 Hrun; simpl in Hrun.
  - injection Hrun as <-. exists []. split; [constructor|done].
  - apply res_bind_Ok in Hrun as (s1 & H1 & Hrun).
    apply res_bind_Ok in H1 as (piece & Hpiece & [= <-]).
    destruct (IH _ Hrun) as (pieces & Hall & ->).
    exists (piece :: pieces). split; [by constructor|done].
Qed.

(** The fallback loop appends its non-ignored positions, in order. *)
Lemma fallback_loop_indices (ev : EVcouplings) (single : Z → Z → option Q)
  (ignored lo : list Z) (st st' : list Z * gmap (Z * ascii) Q) :
  for_each lo (fallback_fields ev single ignored) st = Ok st' →
  st'.1 = st.1 ++ filter (λ i, i ∉ ignored) lo.
Proof.
  revert st. induction lo as [|i lo IH]; intros st Hrun; simpl in Hrun.
  - injection Hrun as <-. by rewrite app_nil_r.
  - apply res_bind_Ok in Hrun as (st1 & H1 & Hrun).
    rewrite (IH _ Hrun). unfold fallback_fields in H1.
    rewrite filter_cons. case_bool_decide as Hig.
    + apply res_bind_Ok in H1 as (tbl & _ & [= <-]). simpl.
      rewrite decide_True by done. by rewrite <- (assoc_L (++)).
    + injection H1 as <-. by rewrite decide_False by (intros Hn; contradiction).
Qed.

(** [hi_indices] after a successful extraction: the native positions and,
    under the single-site model, the insertion positions, none of them
    ignored, in ascending order. *)
Lemma extract_ev_paras_hi_indices (self self' : AbstractDeimmuPreparation)
  (ev : EVcouplings) :
  extract_ev_paras self ev = Ok self' →
  Sorted Z.le (hi_indices self') ∧
  ∀ i : Z,
    i ∈ hi_indices self' ↔
    (i ∈ upper (wildtype self) ∧ i ∉ ignored_pos self) ∨
    (use_single_site_model self = true ∧
     i ∈ lower (wildtype self) ∧ i ∉ ignored_pos self).
Proof.
  intros Hrun.
  apply extract_ev_paras_Ok in Hrun
    as (hi0 & st & e & _ & Hst & _ & _ & -> & _ & _).
  split; [apply Sorted_merge_sort; apply _|].
  intros i. rewrite merge_sort_Permutation.
  destruct (use_single_site_model self).
  - apply fallback_loop_indices in Hst. rewrite Hst. simpl.
    rewrite elem_of_app, !list_elem_of_filter. intuition congruence.
  - injection Hst as <-. simpl. rewrite list_elem_of_filter.
    intuition congruence.
Qed.

Lemma elem_of_sequence_positions (self : AbstractDeimmuPreparation) (i : Z) :
  i ∈ sequence_positions self ↔
  0 ≤ i < Z.of_nat (length (sequence (wildtype self))).
Proof.
  unfold sequence_positions. rewrite list_elem_of_fmap. split.
  - intros (n & -> & Hn). apply elem_of_seq in Hn. lia.
  - intros Hi. exists (Z.to_nat i). split; [lia|]. apply elem_of_seq. lia.
Qed.

(** ** The frequency estimator *)

Lemma upper_lower_char (c : ascii) : upper_char (lower_char c) = upper_char c.
Proof. by destruct c as [[] [] [] [] [] [] [] []]. Qed.

Lemma shape_Ok (matrix : list (list ascii)) (N L : nat) :
  shape matrix = Ok (N, L) →
  N = length matrix ∧ (0 < N)%nat ∧ Forall (λ r, length r = L) matrix.
Proof.
  destruct matrix as [|row rest]; simpl; [discriminate|].
  case_bool_decide as Hall; [|discriminate].
  intros [= <- <-]. split; [done|]. split; [lia|]. by constructor.
Qed.

Lemma np_index_Ok (n : nat) (k : Z) (k' : nat) :
  np_index n k = Ok k' → (k' < n)%nat.
Proof.
  unfold np_index. repeat case_bool_decide; intros [= <-]; lia.
Qed.

Lemma bucket_Some_lt (ev : EVcouplings) (c : ascii) (k : nat) :
  bucket ev c = Some (Some k) → (k < num_symbols ev)%nat.
Proof.
  unfold bucket. case_bool_decide; [|discriminate].
  destruct (alphabet_map ev !! upper_char c) as [ka|]; [|discriminate].
  destruct (np_index (num_symbols ev) ka) as [k'|] eqn:Hk; [|discriminate].
  intros [= <-]. by apply np_index_Ok in Hk.
Qed.

(** The loop body, read through [bucket]. *)
Lemma count_cell_bucket (ev : EVcouplings) (matrix : list (list ascii))
  (s i : nat) (fi : list (list nat)) (c : ascii) (o : option nat) :
  cell matrix s i = Some c → bucket ev c = Some o →
  count_cell ev matrix s i fi
    = Ok (match o with Some k => bump i k fi | None => fi end).
Proof.
  intros Hc Hb. unfold count_cell, bucket in *. rewrite Hc. simpl.
  case_bool_decide; [|by injection Hb as <-].
  unfold dict_get. destruct (alphabet_map ev !! upper_char c); [|discriminate].
  simpl. destruct (np_index (num_symbols ev) z); [|discriminate].
  by injection Hb as <-.
Qed.

Lemma bump_dims (L n i k : nat) (fi : list (list nat)) :
  dims L n fi → dims L n (bump i k fi).
Proof.
  intros [Hlen Hrows]. unfold bump. split; [by rewrite length_alter|].
  apply Forall_forall. intros r Hr.
  apply list_elem_of_lookup in Hr as [j Hj].
  rewrite Forall_forall in Hrows.
  destruct (decide (i = j)) as [->|Hne].
  - rewrite list_lookup_alter_eq in Hj.
    destruct (fi !! j) as [r0|] eqn:Hr0; [|discriminate].
    injection Hj as <-. rewrite length_alter.
    apply Hrows. by eapply list_elem_of_lookup_2.
  - rewrite list_lookup_alter_ne in Hj by done.
    apply Hrows. by eapply list_elem_of_lookup_2.
Qed.

Lemma dims_row (L n i : nat) (fi : list (list nat)) :
  dims L n fi → (i < L)%nat → ∃ r, fi !! i = Some r ∧ length r = n.
Proof.
  intros [Hlen Hrows] Hi.
  destruct (lookup_lt_is_Some_2 fi i) as [r Hr]; [lia|].
  exists r. split; [done|]. rewrite Forall_forall in Hrows.
  apply Hrows. by eapply list_elem_of_lookup_2.
Qed.

Lemma cnt_bump (L n i k i' k' : nat) (fi : list (list nat)) :
  dims L n fi → (i < L)%nat → (k < n)%nat →
  cnt (bump i k fi) i' k'
    = (cnt fi i' k' + if bool_decide (i' = i ∧ k' = k) then 1 else 0)%nat.
Proof.
  intros Hd Hi Hk. destruct (dims_row _ _ _ _ Hd Hi) as (r & Hr & Hlen).
  unfold cnt, entry, bump.
  destruct (decide (i' = i)) as [->|Hne].
  - rewrite list_lookup_alter_eq, Hr. simpl.
    destruct (decide (k' = k)) as [->|Hnk].
    + rewrite list_lookup_alter_eq.
      destruct (lookup_lt_is_Some_2 r k) as [x Hx]; [lia|].
      rewrite Hx. simpl. rewrite bool_decide_eq_true_2 by done. lia.
    + rewrite list_lookup_alter_ne by done.
      rewrite bool_decide_eq_false_2 by (intros [_ ?]; done). lia.
  - rewrite list_lookup_alter_ne by done.
    rewrite bool_decide_eq_false_2 by (intros [? _]; done). lia.
Qed.

Lemma sum_list_alter_S (r : list nat) (k : nat) :
  (k < length r)%nat → sum_list (alter S k r) = S (sum_list r).
Proof.
  revert k. induction r as [|x r IH]; intros k Hk; simpl in Hk; [lia|].
  destruct k as [|k]; [done|].
  change (alter S (S k) (x :: r)) with (x :: alter S k r).
  change (sum_list (x :: alter S k r)) with (x + sum_list (alter S k r))%nat.
  rewrite IH by lia. simpl. lia.
Qed.

Lemma total_bump (L n i k i' : nat) (fi : list (list nat)) :
  dims L n fi → (i < L)%nat → (k < n)%nat →
  total (bump i k fi) i'
    = (total fi i' + if bool_decide (i' = i) then 1 else 0)%nat.
Proof.
  intros Hd Hi Hk. destruct (dims_row _ _ _ _ Hd Hi) as (r & Hr & Hlen).
  unfold total, bump. destruct (decide (i' = i)) as [->|Hne].
  - rewrite list_lookup_alter_eq, Hr. simpl.
    rewrite sum_list_alter_S by lia.
    rewrite bool_decide_eq_true_2 by done. lia.
  - rewrite list_lookup_alter_ne by done.
    rewrite bool_decide_eq_false_2 by done. lia.
Qed.

Section counting.

Variables (ev : EVcouplings) (matrix : list (list ascii)) (L : nat).

Hypothesis rows_wide : Forall (λ r, length r = L) matrix.
Hypothesis countable : residues_countable matrix ev.

Lemma cell_is_Some (s i : nat) :
  (s < length matrix)%nat → (i < L)%nat → is_Some (cell matrix s i).
Proof.
  intros Hs Hi. unfold cell.
  destruct (lookup_lt_is_Some_2 matrix s Hs) as [row Hrow].
  rewrite Hrow. simpl. apply lookup_lt_is_Some_2.
  rewrite Forall_forall in rows_wide.
  rewrite (rows_wide row); [done|]. by eapply list_elem_of_lookup_2.
Qed.

(** One cell: the loop body succeeds and adds one to the bucket of the
    cell, if it has one. *)
Lemma count_cell_step (s i : nat) (fi : list (list nat)) :
  (s < length matrix)%nat → (i < L)%nat → dims L (num_symbols ev) fi →
  ∃ fi',
    count_cell ev matrix s i fi = Ok fi' ∧ dims L (num_symbols ev) fi' ∧
    (∀ i' k, cnt fi' i' k =
       (cnt fi i' k +
        if bool_decide (i' = i ∧ bucket_of ev matrix s i = Some k)
        then 1 else 0)%nat) ∧
    (∀ i', total fi' i' =
       (total fi i' +
        if bool_decide (i' = i ∧ is_Some (bucket_of ev matrix s i))
        then 1 else 0)%nat).
Proof.
  intros Hs Hi Hd.
  destruct (cell_is_Some s i Hs Hi) as [c Hc].
  destruct (countable s i c Hc) as [o Ho].
  rewrite (count_cell_bucket ev matrix s i fi c o Hc Ho).
  unfold bucket_of. rewrite Hc. simpl. rewrite Ho. simpl.
  destruct o as [k|].
  - pose proof (bucket_Some_lt ev c k Ho) as Hk.
    eexists. split; [done|]. split; [by apply bump_dims|]. split.
    + intros i' k'. rewrite (cnt_bump L (num_symbols ev)) by done.
      f_equal. repeat case_bool_decide; destruct_and?; simplify_eq;
        try done; exfalso; eauto.
    + intros i'. rewrite (total_bump L (num_symbols ev)) by done.
      f_equal. repeat case_bool_decide; destruct_and?; simplify_eq;
        try done; exfalso; eauto.
  - exists fi. split; [done|]. split; [done|]. split.
    + intros i' k'. rewrite bool_decide_eq_false_2 by (intros [_ ?]; done). lia.
    + intros i'. rewrite bool_decide_eq_false_2; [lia|].
      intros [_ [? ?]]. done.
Qed.

(** One sequence: the inner loop over the columns [a .. a + n - 1]. *)
Lemma count_row_columns (s n a : nat) (fi : list (list nat)) :
  (s < length matrix)%nat → (a + n ≤ L)%nat → dims L (num_symbols ev) fi →
  ∃ fi',
    for_each (seq a n) (count_cell ev matrix s) fi = Ok fi' ∧
    dims L (num_symbols ev) fi' ∧
    (∀ i k, cnt fi' i k =
       (cnt fi i k +
        if bool_decide ((a ≤ i < a + n)%nat ∧ bucket_of ev matrix s i = Some k)
        then 1 else 0)%nat) ∧
    (∀ i, total fi' i =
       (total fi i +
        if bool_decide ((a ≤ i < a + n)%nat ∧ is_Some (bucket_of ev matrix s i))
        then 1 else 0)%nat).
Proof.
  intros Hs. revert a fi. induction n as [|n IH]; intros a fi Han Hd.
  - exists fi. split; [done|]. split; [done|].
    split; intros; rewrite bool_decide_eq_false_2 by lia; lia.
  - destruct (count_cell_step s a fi) as (fi1 & Hrun1 & Hd1 & Hc1 & Ht1);
      [done|lia|done|].
    destruct (IH (S a) fi1) as (fi' & Hrun & Hd' & Hc & Ht); [lia|done|].
    exists fi'. split; [by (simpl; rewrite Hrun1)|]. split; [done|]. split.
    + intros i k. rewrite Hc, Hc1.
      destruct (decide (i = a)) as [->|Hne].
      * repeat case_bool_decide; destruct_and?; simplify_eq; try lia;
          exfalso; eauto with lia.
      * repeat case_bool_decide; destruct_and?; simplify_eq; try lia;
          exfalso; eauto with lia.
    + intros i. rewrite Ht, Ht1.
      destruct (decide (i = a)) as [->|Hne].
      * repeat case_bool_decide; destruct_and?; simplify_eq; try lia;
          exfalso; eauto with lia.
      * repeat case_bool_decide; destruct_and?; simplify_eq; try lia;
          exfalso; eauto with lia.
Qed.

(** The sequences [b .. b + m - 1]: the outer loop. *)
Lemma count_rows (m b : nat) (fi : list (list nat)) :
  (b + m ≤ length matrix)%nat → dims L (num_symbols ev) fi →
  ∃ fi',
    for_each (seq b m)
      (λ s fi, for_each (seq 0 L) (count_cell ev matrix s) fi) fi = Ok fi' ∧
    dims L (num_symbols ev) fi' ∧
    (∀ i k, (i < L)%nat →
       cnt fi' i k = (cnt fi i k + hits ev matrix (seq b m) i k)%nat) ∧
    (∀ i, (i < L)%nat →
       total fi' i = (total fi i + kept ev matrix (seq b m) i)%nat).
Proof.
  revert b fi. induction m as [|m IH]; intros b fi Hbm Hd.
  - exists fi. split; [done|]. split; [done|].
    split; intros; unfold hits, kept; simpl; lia.
  - destruct (count_row_columns b L 0 fi) as (fi1 & Hrun1 & Hd1 & Hc1 & Ht1);
      [lia|lia|done|].
    destruct (IH (S b) fi1) as (fi' & Hrun & Hd' & Hc & Ht); [lia|done|].
    exists fi'. split; [by (simpl; rewrite Hrun1)|]. split; [done|]. split.
    + intros i k Hi. rewrite Hc, Hc1 by done. unfold hits. simpl seq.
      rewrite filter_cons. case_bool_decide as Hb; case_decide as Hb';
        simpl; try lia.
      * destruct Hb'. apply Hb.
      * destruct Hb. split; [lia|done].
    + intros i Hi. rewrite Ht, Ht1 by done. unfold kept. simpl seq.
      rewrite filter_cons. case_bool_decide as Hb; case_decide as Hb';
        simpl; try lia.
      * destruct Hb'. apply Hb.
      * destruct Hb. split; [lia|done].
Qed.

End counting.

Lemma dims_zeros (L n : nat) : dims L n (replicate L (replicate n 0%nat)).
Proof.
  split; [by rewrite length_replicate|].
  apply Forall_forall. intros r Hr. apply elem_of_replicate in Hr as [-> _].
  by rewrite length_replicate.
Qed.

Lemma cnt_zeros (L n i k : nat) : cnt (replicate L (replicate n 0%nat)) i k = 0%nat.
Proof.
  unfold cnt, entry.
  destruct (replicate L (replicate n 0%nat) !! i) as [r|] eqn:Hr; [|done].
  apply lookup_replicate in Hr as [-> _]. simpl.
  destruct (replicate n 0%nat !! k) as [x|] eqn:Hx; [|done].
  by apply lookup_replicate in Hx as [-> _].
Qed.

Lemma total_zeros (L n i : nat) : total (replicate L (replicate n 0%nat)) i = 0%nat.
Proof.
  unfold total.
  destruct (replicate L (replicate n 0%nat) !! i) as [r|] eqn:Hr; [|done].
  apply lookup_replicate in Hr as [-> _]. simpl.
  rewrite sum_list_replicate. lia.
Qed.

Lemma entry_cnt (L n i k : nat) (fi : list (list nat)) :
  dims L n fi → (i < L)%nat → (k < n)%nat → entry fi i k = Some (cnt fi i k).
Proof.
  intros Hd Hi Hk. destruct (dims_row _ _ _ _ Hd Hi) as (r & Hr & Hlen).
  unfold cnt, entry. rewrite Hr. simpl.
  destruct (lookup_lt_is_Some_2 r k) as [x Hx]; [lia|]. by rewrite Hx.
Qed.

Lemma entry_fmap {A B : Type} (f : A → B) (m : list (list A)) (i k : nat) :
  entry (map (map f) m) i k = f <$> entry m i k.
Proof.
  unfold entry. change (map (map f) m) with (map f <$> m).
  rewrite list_lookup_fmap. destruct (m !! i) as [r|]; [|done]. simpl.
  change (map f r) with (f <$> r). by rewrite list_lookup_fmap.
Qed.

Lemma length_filter_all {A : Type} (P : A → Prop) `{∀ x, Decision (P x)}
  (l : list A) :
  Forall P l → length (filter P l) = length l.
Proof.
  induction 1 as [|x l Hx _ IH]; [done|].
  rewrite filter_cons, decide_True by done. simpl. by rewrite IH.
Qed.

Lemma length_filter_none {A : Type} (P : A → Prop) `{∀ x, Decision (P x)}
  (l : list A) :
  Forall (λ x, ¬ P x) l → length (filter P l) = 0%nat.
Proof.
  induction 1 as [|x l Hx _ IH]; [done|].
  by rewrite filter_cons, decide_False by done.
Qed.

Lemma bucket_of_Some (ev : EVcouplings) (matrix : list (list ascii))
  (s i k : nat) :
  bucket_of ev matrix s i = Some k ↔
  ∃ c ka,
    cell matrix s i = Some c ∧ (upper_char c ∉ excluded_symbols) ∧
    alphabet_map ev !! upper_char c = Some ka ∧
    np_index (num_symbols ev) ka = Ok k.
Proof.
  unfold bucket_of, bucket. destruct (cell matrix s i) as [c|]; simpl.
  - case_bool_decide as Hex; simpl.
    + destruct (alphabet_map ev !! upper_char c) as [ka|] eqn:Hka; simpl.
      * destruct (np_index (num_symbols ev) ka) as [k'|e] eqn:Hk; simpl.
        -- split; [intros [= <-]; by exists c, ka|].
           intros (c' & ka' & ? & _ & ? & ?). simplify_eq; congruence.
        -- split; [done|].
           intros (c' & ka' & ? & _ & ? & ?). simplify_eq; congruence.
      * split; [done|]. intros (c' & ka' & ? & _ & ? & _). simplify_eq; congruence.
    + split; [done|]. intros (c' & ka' & ? & Hne & _). by simplify_eq.
  - split; [done|]. intros (c' & ka' & [=] & _).
Qed.

(** With an alphabet whose symbols have columns of their own, the sequences
    counted in the column of [a] are those whose residue is [a]. *)
Lemma hits_residue_count (ev : EVcouplings) (matrix : list (list ascii))
  (i : nat) (a : ascii) (ka : Z) (k : nat) :
  alphabet_separated ev → a ∉ excluded_symbols →
  alphabet_map ev !! a = Some ka → np_index (num_symbols ev) ka = Ok k →
  hits ev matrix (seq 0 (length matrix)) i k = residue_count matrix i a.
Proof.
  intros Hsep Hex Ha Hk. unfold hits, residue_count. f_equal.
  apply list_filter_iff. intros s. rewrite bucket_of_Some. split.
  - intros (c & kc & Hc & _ & Hkc & Hk'). rewrite Hc. simpl. f_equal.
    by apply (Hsep (upper_char c) a kc ka k).
  - intros Hc. destruct (cell matrix s i) as [c|]; [|discriminate].
    injection Hc as <-. by exists c, ka.
Qed.

(** A symbol that is left out has nothing counted in its column. *)
Lemma hits_excluded (ev : EVcouplings) (matrix : list (list ascii))
  (ss : list nat) (i : nat) (a : ascii) (ka : Z) (k : nat) :
  alphabet_separated ev → a ∈ excluded_symbols →
  alphabet_map ev !! a = Some ka → np_index (num_symbols ev) ka = Ok k →
  hits ev matrix ss i k = 0%nat.
Proof.
  intros Hsep Hex Ha Hk. unfold hits. apply length_filter_none.
  apply Forall_forall. intros s _. rewrite bucket_of_Some.
  intros (c & kc & _ & Hne & Hkc & Hk').
  apply Hne. by rewrite (Hsep (upper_char c) a kc ka k).
Qed.

Lemma kept_all (ev : EVcouplings) (matrix : list (list ascii)) (L i : nat) :
  Forall (λ r, length r = L) matrix → residues_countable matrix ev →
  (i < L)%nat → column_without_excluded matrix i →
  kept ev matrix (seq 0 (length matrix)) i = length matrix.
Proof.
  intros Hwide Hcnt Hi Hcol. unfold kept.
  rewrite length_filter_all; [apply length_seq|].
  apply Forall_seq. intros s Hs.
  destruct (cell_is_Some matrix L Hwide s i) as [c Hc]; [lia|done|].
  destruct (Hcnt s i c Hc) as [o Ho]. specialize (Hcol s c Hc).
  unfold bucket_of. rewrite Hc. simpl. rewrite Ho. simpl.
  unfold bucket in Ho. rewrite bool_decide_eq_true_2 in Ho by done.
  destruct (alphabet_map ev !! upper_char c); [|discriminate].
  destruct (np_index (num_symbols ev) z); [|discriminate].
  injection Ho as <-. by eexists.
Qed.

Lemma kept_none (ev : EVcouplings) (matrix : list (list ascii))
  (ss : list nat) (i : nat) :
  column_all_excluded matrix i → kept ev matrix ss i = 0%nat.
Proof.
  intros Hcol. unfold kept. apply length_filter_none.
  apply Forall_forall. intros s _ [k Hk].
  apply bucket_of_Some in Hk as (c & ka & Hc & Hne & _).
  apply Hne. by apply (Hcol s c).
Qed.

(** ** Binary64 division

    What [SpecFloat] computes for the quotient of two whole numbers below
    [2 ^ 53]: the dividend is shifted by 53 digits, divided with remainder,
    and the quotient, of 53 or 54 digits, is rounded to 53 digits, to the
    nearest number and to the even one of two nearest. *)

Lemma digits2_pos_bounds (m : positive) :
  2 ^ (Zpos (digits2_pos m) - 1) ≤ Zpos m < 2 ^ Zpos (digits2_pos m).
Proof.
  induction m as [m IH|m IH|]; simpl digits2_pos; [| |simpl; lia];
    pose proof (Pos2Z.is_pos (digits2_pos m)) as Hpos;
    rewrite Pos2Z.inj_succ;
    replace (Z.succ (Zpos (digits2_pos m)) - 1)
      with (Z.succ (Zpos (digits2_pos m) - 1)) by lia;
    rewrite !Z.pow_succ_r by lia;
    set (A := 2 ^ (Zpos (digits2_pos m) - 1)) in *;
    set (B := 2 ^ Zpos (digits2_pos m)) in *; clearbody A B; lia.
Qed.

Lemma digits2_pos_unique (m : positive) (d : Z) :
  2 ^ (d - 1) ≤ Zpos m < 2 ^ d → Zpos (digits2_pos m) = d.
Proof.
  intros [Hlo Hhi]. pose proof (digits2_pos_bounds m) as [Hlo' Hhi'].
  assert (0 < d) as Hd.
  { destruct (Z.lt_trichotomy d 0) as [Hn|[->|Hp]]; [|simpl in Hhi; lia|done].
    rewrite Z.pow_neg_r in Hhi by done. lia. }
  destruct (Z.lt_trichotomy (Zpos (digits2_pos m)) d) as [Hlt|[Heq|Hgt]];
    [|done|].
  - assert (2 ^ Zpos (digits2_pos m) ≤ 2 ^ (d - 1))
      by (apply Z.pow_le_mono_r; lia). lia.
  - assert (2 ^ d ≤ 2 ^ (Zpos (digits2_pos m) - 1))
      by (apply Z.pow_le_mono_r; lia). lia.
Qed.

Lemma iter_xO_value (m d : positive) :
  Zpos (Pos.iter xO m d) = Zpos m * 2 ^ Zpos d.
Proof.
  induction d as [|d IH] using Pos.peano_ind.
  - simpl. lia.
  - rewrite Pos.iter_succ, Pos2Z.inj_xO, IH, Pos2Z.inj_succ.
    rewrite Z.pow_succ_r by lia. lia.
Qed.

(** The exponent range of the normal numbers met below. *)
Lemma fexp_normal (d e : Z) :
  -1074 ≤ d + e - 53 → fexp 53 1024 (d + e) - e = d - 53.
Proof. unfold fexp, emin. lia. Qed.

Lemma binary_round_aux_last_shift (s : bool) (m e : Z) (l : location) :
  binary_round_aux 53 1024 s m e l =
  last_shift s (round_nearest_even (shr_m (shr_fexp 53 1024 m e l).1)
              (loc_of_shr_record (shr_fexp 53 1024 m e l).1))
           (shr_fexp 53 1024 m e l).2.
Proof.
  unfold binary_round_aux, last_shift.
  destruct (shr_fexp 53 1024 m e l) as [mrs e']. reflexivity.
Qed.

Lemma last_shift_normal (s : bool) (m : positive) (e : Z) :
  2 ^ 52 ≤ Zpos m < 2 ^ 53 → -1074 ≤ e ≤ 971 →
  last_shift s (Zpos m) e = S754_finite s m e.
Proof.
  intros Hm He. unfold last_shift, shr_fexp. cbv [Zdigits2].
  rewrite (digits2_pos_unique m 53) by (simpl; lia).
  rewrite fexp_normal by lia. change (53 - 53) with 0.
  cbv [shr shr_record_of_loc shr_m].
  destruct (Z.leb_spec e (1024 - 53)); [done|lia].
Qed.

Lemma last_shift_carry (s : bool) (e : Z) :
  -1074 ≤ e ≤ 970 →
  last_shift s 9007199254740992 e = S754_finite s 4503599627370496 (e + 1).
Proof.
  intros He. unfold last_shift, shr_fexp.
  change (Zdigits2 9007199254740992) with 54.
  rewrite fexp_normal by lia. change (54 - 53) with 1.
  cbv [shr shr_record_of_loc iter_pos shr_1 shr_m].
  destruct (Z.leb_spec (e + 1) (1024 - 53)); [done|lia].
Qed.

Lemma new_location_cases (my r : Z) :
  0 < my → 0 ≤ r < my →
  match new_location my r with
  | loc_Exact => r = 0
  | loc_Inexact Lt => 0 < r ∧ 2 * r < my
  | loc_Inexact Eq => 2 * r = my
  | loc_Inexact Gt => my < 2 * r
  end.
Proof.
  intros Hmy Hr. unfold new_location, new_location_even, new_location_odd.
  destruct (Z.even my) eqn:Hev.
  - destruct (Z.eqb_spec r 0) as [->|Hne]; [done|].
    destruct (Z.compare_spec (2 * r) my); lia.
  - assert (Z.odd my = true) as Hodd by (by rewrite <- Z.negb_even, Hev).
    apply Z.odd_spec in Hodd as [h ->].
    destruct (Z.eqb_spec r 0) as [->|Hne]; [done|].
    destruct (Z.compare_spec (2 * r + 1) (2 * h + 1)); lia.
Qed.

Lemma shr_record_of_loc_m (m : Z) (l : location) :
  shr_m (shr_record_of_loc m l) = m.
Proof. by destruct l as [|[]]. Qed.

Lemma loc_of_shr_record_of_loc (m : Z) (l : location) :
  loc_of_shr_record (shr_record_of_loc m l) = l.
Proof. by destruct l as [|[]]. Qed.

(** Rounding a quotient [q + r / my] whose integer part has 53 digits. *)
Lemma round_quotient_53 (q e my r : Z) :
  2 ^ 52 ≤ q < 2 ^ 53 → 0 < my → 0 ≤ r < my → -1074 ≤ e ≤ 970 →
  ∃ (mf : positive) (k : Z),
    binary_round_aux 53 1024 false q e (new_location my r)
      = S754_finite false mf (e + k) ∧
    2 ^ 52 ≤ Zpos mf < 2 ^ 53 ∧ 0 ≤ k ≤ 2 ∧
    - (q * my + r) ≤ 2 ^ 53 * (Zpos mf * 2 ^ k * my - (q * my + r))
      ≤ q * my + r ∧
    (r = 0 → Zpos mf * 2 ^ k = q).
Proof.
  intros Hq Hmy Hr He.
  destruct q as [|pq|pq]; [simpl in Hq; lia| |simpl in Hq; lia].
  rewrite binary_round_aux_last_shift. unfold shr_fexp. cbv [Zdigits2].
  rewrite (digits2_pos_unique pq 53) by (simpl; lia).
  rewrite fexp_normal by lia. change (53 - 53) with 0. cbv [shr fst snd].
  cbv [fst snd]. simpl fst. simpl snd.
  rewrite shr_record_of_loc_m, loc_of_shr_record_of_loc.
  pose proof (new_location_cases my r Hmy Hr) as Hloc.
  assert (2 ^ 52 * my ≤ Zpos pq * my) as Hbig by nia.
  change (2 ^ 52) with 4503599627370496 in *.
  change (2 ^ 53) with 9007199254740992 in *.
  assert (∃ (mf : positive) (k : Z),
            last_shift false (Zpos pq + 1) e = S754_finite false mf (e + k) ∧
            4503599627370496 ≤ Zpos mf < 9007199254740992 ∧ 0 ≤ k ≤ 2 ∧
            Zpos mf * 2 ^ k = Zpos pq + 1) as Hup.
  { destruct (decide (Zpos pq + 1 = 9007199254740992)) as [Heq|Hne].
    - rewrite Heq, last_shift_carry by lia.
      exists 4503599627370496%positive, 1. repeat split; lia.
    - replace (Zpos pq + 1) with (Zpos (pq + 1)) by lia.
      rewrite last_shift_normal by (change (2 ^ 52) with 4503599627370496;
                                change (2 ^ 53) with 9007199254740992; lia).
      exists (pq + 1)%positive, 0. rewrite Z.add_0_r. repeat split; lia. }
  assert (last_shift false (Zpos pq) e = S754_finite false pq (e + 0) ∧
          Zpos pq * 2 ^ 0 = Zpos pq) as [Hdown Hdown'].
  { rewrite last_shift_normal by (change (2 ^ 52) with 4503599627370496;
                              change (2 ^ 53) with 9007199254740992; lia).
    rewrite Z.add_0_r. split; [done|lia]. }
  destruct (new_location my r) as [|[]]; cbv [round_nearest_even].
  - exists pq, 0. rewrite Hdown, Hdown'. repeat split; lia.
  - destruct (Z.even (Zpos pq)).
    + exists pq, 0. rewrite Hdown, Hdown'. repeat split; lia.
    + destruct Hup as (mf & k & -> & Hmf & Hk & Hval).
      exists mf, k. rewrite Hval. repeat split; lia.
  - exists pq, 0. rewrite Hdown, Hdown'. repeat split; lia.
  - destruct Hup as (mf & k & -> & Hmf & Hk & Hval).
    exists mf, k. rewrite Hval. repeat split; lia.
Qed.

(** Rounding a quotient whose integer part has 54 digits: the last digit is
    shifted out first. *)
Lemma round_quotient_54 (q e my r : Z) :
  2 ^ 53 ≤ q < 2 ^ 54 → 0 < my → 0 ≤ r < my → -1074 ≤ e ≤ 960 →
  ∃ (mf : positive) (k : Z),
    binary_round_aux 53 1024 false q e (new_location my r)
      = S754_finite false mf (e + k) ∧
    2 ^ 52 ≤ Zpos mf < 2 ^ 53 ∧ 0 ≤ k ≤ 2 ∧
    - (q * my + r) ≤ 2 ^ 53 * (Zpos mf * 2 ^ k * my - (q * my + r))
      ≤ q * my + r ∧
    (r = 0 → Z.even q = true → Zpos mf * 2 ^ k = q).
Proof.
  intros Hq Hmy Hr He.
  destruct q as [|pq|pq]; [simpl in Hq; lia| |simpl in Hq; lia].
  rewrite binary_round_aux_last_shift. unfold shr_fexp. cbv [Zdigits2].
  rewrite (digits2_pos_unique pq 54) by (simpl; lia).
  rewrite fexp_normal by lia. change (54 - 53) with 1.
  cbv [shr iter_pos]. simpl fst. simpl snd.
  pose proof (new_location_cases my r Hmy Hr) as Hloc.
  assert (2 ^ 53 * my ≤ Zpos pq * my) as Hbig by nia.
  change (2 ^ 52) with 4503599627370496 in *.
  change (2 ^ 53) with 9007199254740992 in *.
  change (2 ^ 54) with 18014398509481984 in *.
  assert (∀ p : positive,
            4503599627370496 ≤ Zpos p < 9007199254740992 →
            ∃ (mf : positive) (k : Z),
              last_shift false (Zpos p + 1) (e + 1) = S754_finite false mf (e + k) ∧
              4503599627370496 ≤ Zpos mf < 9007199254740992 ∧ 0 ≤ k ≤ 2 ∧
              Zpos mf * 2 ^ k = 2 * (Zpos p + 1)) as Hup.
  { intros p Hp.
    destruct (decide (Zpos p + 1 = 9007199254740992)) as [Heq|Hne].
    - rewrite Heq, last_shift_carry by lia.
      exists 4503599627370496%positive, 2.
      replace (e + 1 + 1) with (e + 2) by lia. repeat split; lia.
    - replace (Zpos p + 1) with (Zpos (p + 1)) by lia.
      rewrite last_shift_normal by (change (2 ^ 52) with 4503599627370496;
                                change (2 ^ 53) with 9007199254740992; lia).
      exists (p + 1)%positive, 1. repeat split; lia. }
  assert (∀ p : positive,
            4503599627370496 ≤ Zpos p < 9007199254740992 →
            last_shift false (Zpos p) (e + 1) = S754_finite false p (e + 1) ∧
            Zpos p * 2 ^ 1 = 2 * Zpos p) as Hdown.
  { intros p Hp.
    rewrite last_shift_normal by (change (2 ^ 52) with 4503599627370496;
                              change (2 ^ 53) with 9007199254740992; lia).
    split; [done|lia]. }
  destruct pq as [p|p|]; [| |lia].
  - (* the digit shifted out is one *)
    destruct (Hup p) as (mf & k & Hfin & Hmf & Hk & Hval); [lia|].
    destruct (Hdown p) as [Hfin' Hval']; [lia|].
    destruct (new_location my r) as [|[]];
      cbv [shr_record_of_loc shr_1 orb shr_m loc_of_shr_record
           round_nearest_even];
      change (Zpos p~1) with (2 * Zpos p + 1) in *.
    + destruct (Z.even (Zpos p)).
      * exists p, 1. rewrite Hfin', Hval'. repeat split; try lia.
        intros _ Hev. by rewrite Z.add_comm, Z.even_add_mul_2 in Hev.
      * exists mf, k. rewrite Hfin, Hval. repeat split; try lia.
        intros _ Hev. by rewrite Z.add_comm, Z.even_add_mul_2 in Hev.
    + exists mf, k. rewrite Hfin, Hval. repeat split; lia.
    + exists mf, k. rewrite Hfin, Hval. repeat split; lia.
    + exists mf, k. rewrite Hfin, Hval. repeat split; lia.
  - (* the digit shifted out is zero *)
    destruct (Hdown p) as [Hfin' Hval']; [lia|].
    destruct (new_location my r) as [|[]];
      cbv [shr_record_of_loc shr_1 orb shr_m loc_of_shr_record
           round_nearest_even];
      change (Zpos p~0) with (2 * Zpos p) in *;
      exists p, 1; rewrite Hfin', Hval'; repeat split; lia.
Qed.

Lemma binary_round_aux_exact (s : bool) (m : positive) (e : Z) :
  2 ^ 52 ≤ Zpos m < 2 ^ 53 → -1074 ≤ e ≤ 971 →
  binary_round_aux 53 1024 s (Zpos m) e loc_Exact = S754_finite s m e.
Proof.
  intros Hm He. rewrite binary_round_aux_last_shift. unfold shr_fexp.
  cbv [Zdigits2]. rewrite (digits2_pos_unique m 53) by (simpl; lia).
  rewrite fexp_normal by lia. change (53 - 53) with 0.
  cbv [shr shr_record_of_loc shr_m loc_of_shr_record round_nearest_even].
  simpl fst. simpl snd. by apply last_shift_normal.
Qed.

(** An integer below [2 ^ 53] is a binary64 number: its mantissa is the
    integer shifted to 53 digits. *)
Lemma float64_of_Z_normal (c : Z) :
  0 < c < 2 ^ 53 →
  ∃ (m : positive) (e : Z),
    float64_of_Z c = S754_finite false m e ∧
    2 ^ 52 ≤ Zpos m < 2 ^ 53 ∧ -52 ≤ e ≤ 0 ∧ Zpos m = c * 2 ^ (- e).
Proof.
  intros Hc. destruct c as [|p|p]; [lia| |lia].
  pose proof (digits2_pos_bounds p) as [Hlo Hhi].
  set (d := Zpos (digits2_pos p)) in *.
  assert (1 ≤ d) as Hd1 by (unfold d; lia).
  assert (d ≤ 53) as Hd.
  { destruct (Z.le_gt_cases d 53) as [|Hgt]; [done|].
    assert (2 ^ 53 ≤ 2 ^ (d - 1)) by (apply Z.pow_le_mono_r; lia). lia. }
  unfold float64_of_Z, binary_normalize, binary_round, shl_align.
  fold d. replace (fexp 53 1024 (d + 0)) with (d - 53)
    by (unfold fexp, emin; lia).
  destruct (d - 53 - 0) as [|x|x] eqn:Hx; [|lia|].
  - assert (d = 53) as Hd53 by lia. rewrite Hd53 in Hlo, Hhi.
    rewrite binary_round_aux_exact by (simpl in *; lia).
    exists p, 0. simpl Z.opp. rewrite Z.pow_0_r. repeat split; simpl in *; lia.
  - assert (Zpos x = 53 - d) as Hxd by lia.
    assert (2 ^ 52 ≤ Zpos (Pos.iter xO p x) < 2 ^ 53) as Hm.
    { rewrite iter_xO_value, Hxd.
      assert (2 ^ 52 = 2 ^ (d - 1) * 2 ^ (53 - d)) as ->
        by (rewrite <- Z.pow_add_r by lia; f_equal; lia).
      assert (2 ^ 53 = 2 ^ d * 2 ^ (53 - d)) as ->
        by (rewrite <- Z.pow_add_r by lia; f_equal; lia).
      assert (0 < 2 ^ (53 - d)) by (apply Z.pow_pos_nonneg; lia).
      clear Hc. set (A := 2 ^ (d - 1)) in *. set (B := 2 ^ d) in *.
      set (S := 2 ^ (53 - d)) in *. clearbody A B S. nia. }
    rewrite binary_round_aux_exact by (done || lia).
    exists (Pos.iter xO p x), (d - 53). split; [done|]. split; [done|].
    split; [lia|]. rewrite iter_xO_value, Hxd. f_equal. f_equal. lia.
Qed.

(** The division of two such numbers rounds the quotient of the mantissas,
    the dividend shifted by 53 digits. *)
Lemma float64_div_normal (mx my : positive) (ex ey : Z) :
  2 ^ 52 ≤ Zpos mx < 2 ^ 53 → 2 ^ 52 ≤ Zpos my < 2 ^ 53 →
  -52 ≤ ex ≤ 0 → -52 ≤ ey ≤ 0 →
  float64_div (S754_finite false mx ex) (S754_finite false my ey) =
  binary_round_aux 53 1024 false
    (Zpos mx * 2 ^ 53 / Zpos my) (ex - ey - 53)
    (new_location (Zpos my) ((Zpos mx * 2 ^ 53) mod Zpos my)).
Proof.
  intros Hmx Hmy Hex Hey.
  unfold float64_div, SFdiv, SFdiv_core_binary. cbv [Zdigits2 xorb].
  rewrite (digits2_pos_unique mx 53), (digits2_pos_unique my 53)
    by (simpl; lia).
  replace (fexp 53 1024 (53 + ex - (53 + ey))) with (ex - ey - 53)
    by (unfold fexp, emin; lia).
  rewrite Z.min_l by lia.
  replace (ex - ey - (ex - ey - 53)) with 53 by lia.
  rewrite Z.shiftl_mul_pow2 by lia.
  unfold Z.div, Z.modulo.
  by destruct (Z.div_eucl (Zpos mx * 2 ^ 53) (Zpos my)) as [q r].
Qed.

(** The error of a rounded quotient, carried from the mantissas to the
    numbers: [W] is the weight of the last digit kept. *)
Lemma scaled_quotient_error (X T M W u : Q) :
  (0 < M → 0 <= W → 0 < u →
   - T <= u * (X * M - T) → u * (X * M - T) <= T →
   Qabs (W * X - W * T / M) <= W * T / M * / u)%Q.
Proof.
  intros HM HW Hu Hlo Hhi.
  assert (~ M == 0)%Q as HM0 by (intros HM0; rewrite HM0 in HM; by apply Qlt_irrefl in HM).
  assert (~ u == 0)%Q as Hu0 by (intros Hu0; rewrite Hu0 in Hu; by apply Qlt_irrefl in Hu).
  set (V := (W / M)%Q).
  assert (0 <= V)%Q as HV.
  { unfold V. apply Qle_shift_div_l; [done|]. by rewrite Qmult_0_l. }
  set (D := (X * M - T)%Q) in *.
  set (B := (T * / u)%Q).
  assert (- B <= D /\ D <= B)%Q as [HD1 HD2].
  { unfold B. split.
    - apply Qmult_le_l with (z := u); [done|].
      setoid_replace (u * - (T * / u))%Q with (- T)%Q using relation Qeq by (field; done). done.
    - apply Qmult_le_l with (z := u); [done|].
      setoid_replace (u * (T * / u))%Q with T using relation Qeq by (field; done). done. }
  setoid_replace (W * X - W * T / M)%Q with (V * D)%Q using relation Qeq
    by (unfold V, D; field; done).
  setoid_replace (W * T / M * / u)%Q with (V * B)%Q using relation Qeq
    by (unfold V, B; field; done).
  apply Qabs_Qle_condition. split; Lqa.nra.
Qed.

Lemma Qpower_2_pos (e : Z) : (0 < 2 ^ e)%Q.
Proof. by apply Qpower_0_lt. Qed.

Lemma Qpower_2_add (a b : Z) : (2 ^ (a + b) == 2 ^ a * 2 ^ b)%Q.
Proof. by apply Qpower_plus. Qed.

Lemma Qpower_2_inject (k : Z) : 0 ≤ k → (2 ^ k == inject_Z (2 ^ k))%Q.
Proof. intros Hk. by rewrite Zpower_Qpower. Qed.

(** A shifted mantissa as a rational number. *)
Lemma mantissa_value (c m e : Z) :
  e ≤ 0 → m = c * 2 ^ (- e) → (inject_Z c == inject_Z m * 2 ^ e)%Q.
Proof.
  intros He ->. rewrite inject_Z_mult, <- Qpower_2_inject by lia.
  rewrite <- Qmult_assoc, <- Qpower_2_add.
  replace (- e + e) with 0 by lia. simpl. by rewrite Qmult_1_r.
Qed.

(** The quotient of two positive integers below [2 ^ 53]: the binary64
    division returns a normal number within a relative distance of
    [2 ^ -53] of the exact quotient. *)
Lemma float64_div_nearest (c n : Z) :
  0 < c < 2 ^ 53 → 0 < n < 2 ^ 53 →
  ∃ (mf : positive) (ef : Z),
    float64_div (float64_of_Z c) (float64_of_Z n) = S754_finite false mf ef ∧
    (Qabs (float64_value (S754_finite false mf ef)
           - inject_Z c / inject_Z n)
     <= inject_Z c / inject_Z n * (1 # 2 ^ 53))%Q.
Proof.
  intros Hc Hn.
  destruct (float64_of_Z_normal c Hc) as (mx & ex & -> & Hmx & Hex & Hvx).
  destruct (float64_of_Z_normal n Hn) as (my & ey & -> & Hmy & Hey & Hvy).
  rewrite float64_div_normal by done.
  set (T := Zpos mx * 2 ^ 53).
  pose proof (Z.div_mod T (Zpos my) ltac:(lia)) as HT.
  pose proof (Z.mod_pos_bound T (Zpos my) ltac:(lia)) as Hr.
  set (q := T / Zpos my) in *. set (r := T mod Zpos my) in *.
  assert (2 ^ 52 ≤ q < 2 ^ 54) as Hq.
  { split.
    - apply Z.div_le_lower_bound; [lia|]. unfold T.
      change (2 ^ 52) with 4503599627370496 in *.
      change (2 ^ 53) with 9007199254740992 in *. nia.
    - apply Z.div_lt_upper_bound; [lia|]. unfold T.
      change (2 ^ 52) with 4503599627370496 in *.
      change (2 ^ 53) with 9007199254740992 in *.
      change (2 ^ 54) with 18014398509481984. nia. }
  assert (∃ (mf : positive) (k : Z),
            binary_round_aux 53 1024 false q (ex - ey - 53)
              (new_location (Zpos my) r)
              = S754_finite false mf (ex - ey - 53 + k) ∧
            0 ≤ k ≤ 2 ∧
            - T ≤ 2 ^ 53 * (Zpos mf * 2 ^ k * Zpos my - T) ≤ T)
    as (mf & k & -> & Hk & Herr).
  { destruct (Z.lt_ge_cases q (2 ^ 53)) as [Hlt|Hge].
    - destruct (round_quotient_53 q (ex - ey - 53) (Zpos my) r)
        as (mf & k & Hrun & _ & Hk & Herr & _); [lia..|].
      exists mf, k. rewrite HT. split; [done|]. split; [done|].
      by rewrite (Z.mul_comm (Zpos my) q).
    - destruct (round_quotient_54 q (ex - ey - 53) (Zpos my) r)
        as (mf & k & Hrun & _ & Hk & Herr & _); [lia..|].
      exists mf, k. rewrite HT. split; [done|]. split; [done|].
      by rewrite (Z.mul_comm (Zpos my) q). }
  exists mf, (ex - ey - 53 + k). split; [done|].
  unfold float64_value. rewrite Qmult_1_l.
  pose proof (mantissa_value c (Zpos mx) ex ltac:(lia) Hvx) as Hcq.
  pose proof (mantissa_value n (Zpos my) ey ltac:(lia) Hvy) as Hnq.
  pose proof (Qpower_2_pos ex) as Hpx. pose proof (Qpower_2_pos ey) as Hpy.
  pose proof (Qpower_2_pos (ex - ey - 53)) as HP.
  assert (2 ^ ex == 2 ^ (ex - ey - 53) * 2 ^ ey * inject_Z (2 ^ 53))%Q as Hsplit.
  { rewrite <- Qpower_2_inject, <- !Qpower_2_add by lia. f_equiv. lia. }
  assert (0 < inject_Z (Zpos my))%Q as HMY
    by (change 0%Q with (inject_Z 0); rewrite <- Zlt_Qlt; lia).
  assert (~ inject_Z (Zpos my) == 0)%Q as HMY0
    by (intros H0; rewrite H0 in HMY; by apply Qlt_irrefl in HMY).
  assert (~ 2 ^ ey == 0)%Q as Hpy0
    by (intros H0; rewrite H0 in Hpy; by apply Qlt_irrefl in Hpy).
  assert (inject_Z c / inject_Z n
          == 2 ^ (ex - ey - 53) * inject_Z T / inject_Z (Zpos my))%Q as ->.
  { rewrite Hcq, Hnq, Hsplit. unfold T. rewrite inject_Z_mult.
    field. by split. }
  rewrite Qpower_2_add, (Qpower_2_inject k) by lia.
  setoid_replace (inject_Z (Zpos mf) * (2 ^ (ex - ey - 53) * inject_Z (2 ^ k)))%Q
    with (2 ^ (ex - ey - 53) * inject_Z (Zpos mf * 2 ^ k))%Q
    using relation Qeq by (rewrite inject_Z_mult; ring).
  setoid_replace (1 # 2 ^ 53)%Q with (/ inject_Z (2 ^ 53))%Q using relation Qeq by reflexivity.
  apply scaled_quotient_error.
  - done.
  - by apply Qlt_le_weak.
  - reflexivity.
  - rewrite <- inject_Z_mult, <- inject_Z_opp.
    unfold Qminus. rewrite <- inject_Z_opp, <- inject_Z_plus, <- inject_Z_mult.
    rewrite <- Zle_Qle. lia.
  - rewrite <- inject_Z_mult.
    unfold Qminus. rewrite <- inject_Z_opp, <- inject_Z_plus, <- inject_Z_mult.
    rewrite <- Zle_Qle. lia.
Qed.

Lemma float64_div_zero (n : Z) :
  0 < n < 2 ^ 53 →
  float64_div (float64_of_Z 0) (float64_of_Z n) = S754_zero false.
Proof.
  intros Hn. destruct (float64_of_Z_normal n Hn) as (my & ey & -> & _).
  reflexivity.
Qed.

Lemma float64_div_self (n : Z) :
  0 < n < 2 ^ 53 →
  float64_div (float64_of_Z n) (float64_of_Z n)
    = S754_finite false 4503599627370496 (-52).
Proof.
  intros Hn.
  destruct (float64_of_Z_normal n Hn) as (my & ey & -> & Hmy & Hey & _).
  rewrite float64_div_normal by done.
  rewrite (Z.mul_comm (Zpos my)), Z.div_mul, Z.mod_mul by lia.
  replace (ey - ey - 53) with (-53) by lia.
  unfold new_location. by destruct (Z.even (Zpos my)).
Qed.

(** Two of three sequences: the entry is [0.6666666666666666], the mantissa
    [6004799503160661] at the exponent [-53]. *)
Example frequency_two_thirds :
  frequency 2 3 = S754_finite false 6004799503160661 (-53).
Proof. vm_compute; reflexivity. Qed.

(** Three entries of one third each add up to [1 - 2 ^ -54], not to 1: the
    sum of a row is 1 only up to the rounding of its entries. *)
Example thirds_sum_below_one :
  (row_sum (float64_value <$> [frequency 1 3; frequency 1 3; frequency 1 3])
   == 1 - (1 # 2 ^ 54))%Q.
Proof. vm_compute; reflexivity. Qed.

(** One entry of the frequency matrix: a count [c] out of [N] sequences
    gives a number between 0 and 1 within a relative distance of [2 ^ -53]
    of [c / N]. *)
Lemma frequency_nearest (c N : nat) :
  (c ≤ N)%nat → (0 < N)%nat → Z.of_nat N < 2 ^ 53 →
  float64_is_finite (frequency c N) ∧
  (0 <= float64_value (frequency c N))%Q ∧
  (float64_value (frequency c N) <= 1)%Q ∧
  (Qabs (float64_value (frequency c N) - (Z.of_nat c # Pos.of_nat N))
   <= (Z.of_nat c # Pos.of_nat N) * (1 # 2 ^ 53))%Q.
Proof.
  intros HcN HN Hbig. unfold frequency.
  assert ((Z.of_nat c # Pos.of_nat N)
          == inject_Z (Z.of_nat c) / inject_Z (Z.of_nat N))%Q as Hquot.
  { rewrite Qmake_Qdiv. by replace (Zpos (Pos.of_nat N)) with (Z.of_nat N) by lia. }
  destruct (decide (c = 0%nat)) as [->|Hc0].
  { change (Z.of_nat 0) with 0. rewrite float64_div_zero by lia.
    split; [done|]. split; [done|]. split; [done|].
    by unfold Qle. }
  destruct (decide (c = N)) as [->|HcN'].
  { rewrite float64_div_self by lia. split; [done|].
    split; [vm_compute; discriminate|]. split; [vm_compute; discriminate|].
    assert ((Z.of_nat N # Pos.of_nat N) == 1)%Q as ->
      by (unfold Qeq; simpl; lia).
    vm_compute. discriminate. }
  destruct (float64_div_nearest (Z.of_nat c) (Z.of_nat N))
    as (mf & ef & -> & Herr); [lia..|].
  rewrite <- Hquot in Herr. split; [done|].
  set (v := float64_value (S754_finite false mf ef)) in *.
  set (x := (Z.of_nat c # Pos.of_nat N)%Q) in *.
  assert (0 <= x)%Q as Hx0 by (unfold x, Qle; simpl; lia).
  assert (x * (inject_Z (Z.of_nat N)) <= inject_Z (Z.of_nat N) - 1)%Q as Hx1.
  { unfold x. rewrite Qmake_Qdiv.
    replace (Zpos (Pos.of_nat N)) with (Z.of_nat N) by lia.
    assert (~ inject_Z (Z.of_nat N) == 0)%Q as HN0.
    { change 0%Q with (inject_Z 0). rewrite inject_Z_injective. lia. }
    setoid_replace (inject_Z (Z.of_nat c) / inject_Z (Z.of_nat N)
                    * inject_Z (Z.of_nat N))%Q
      with (inject_Z (Z.of_nat c)) using relation Qeq by (field; done).
    change 1%Q with (inject_Z 1). unfold Qminus.
    rewrite <- inject_Z_opp, <- inject_Z_plus, <- Zle_Qle. lia. }
  assert (inject_Z (Z.of_nat N) <= inject_Z (2 ^ 53))%Q as HNq
    by (rewrite <- Zle_Qle; lia).
  assert (0 < inject_Z (Z.of_nat N))%Q as HNpos
    by (change 0%Q with (inject_Z 0); rewrite <- Zlt_Qlt; lia).
  apply Qabs_Qle_condition in Herr as [Hlo Hhi].
  assert ((1 # 2 ^ 53) * inject_Z (2 ^ 53) == 1)%Q as Hu by reflexivity.
  set (u := (1 # 2 ^ 53)%Q) in *. set (B := inject_Z (2 ^ 53)) in *.
  set (n := inject_Z (Z.of_nat N)) in *.
  assert (0 < u)%Q as Hupos by reflexivity.
  assert (u <= 1)%Q as Hu1 by (vm_compute; discriminate).
  split; [|split].
  - Lqa.nra.
  - assert (v * n <= n)%Q; [|Lqa.nra].
    assert (x * u * n <= 1)%Q by Lqa.nra. Lqa.nra.
  - apply Qabs_Qle_condition. split; Lqa.lra.
Qed.

(** A row of the frequency matrix: its entries add up to the total count
    over [N], within a relative distance of [2 ^ -53]. *)
Lemma row_sum_frequencies (r : list nat) (N : nat) :
  (0 < N)%nat → Z.of_nat N < 2 ^ 53 → (sum_list r ≤ N)%nat →
  (Qabs (row_sum (map (λ c, float64_value (frequency c N)) r)
         - (Z.of_nat (sum_list r) # Pos.of_nat N))
   <= (Z.of_nat (sum_list r) # Pos.of_nat N) * (1 # 2 ^ 53))%Q.
Proof.
  intros HN Hbig. induction r as [|c r IH]; intros Hsum.
  - by unfold Qle.
  - simpl in Hsum. specialize (IH ltac:(lia)).
    destruct (frequency_nearest c N) as (_ & _ & _ & Hc); [lia|done|done|].
    cbn [map row_sum foldr sum_list]. fold (row_sum (map (λ c, float64_value (frequency c N)) r)).
    assert ((Z.of_nat (c + sum_list r) # Pos.of_nat N)
            == (Z.of_nat c # Pos.of_nat N)
               + (Z.of_nat (sum_list r) # Pos.of_nat N))%Q as ->.
    { rewrite Nat2Z.inj_add. unfold Qeq, Qplus. simpl. lia. }
    apply Qabs_Qle_condition in IH as [IH1 IH2].
    apply Qabs_Qle_condition in Hc as [Hc1 Hc2].
    apply Qabs_Qle_condition. split; Lqa.lra.
Qed.

Lemma length_filter_le {A : Type} (P : A → Prop) `{∀ x, Decision (P x)}
  (l : list A) :
  (length (filter P l) ≤ length l)%nat.
Proof.
  induction l as [|x l IH]; [done|].
  rewrite filter_cons. case_decide; simpl; lia.
Qed.

Lemma sum_list_lookup_le (r : list nat) (k c : nat) :
  r !! k = Some c → (c ≤ sum_list r)%nat.
Proof.
  revert k. induction r as [|x r IH]; intros k Hk; [done|].
  destruct k as [|k]; simpl in *.
  - injection Hk as ->. lia.
  - specialize (IH k Hk). lia.
Qed.

(** A row of counts that add up to at most [N]: every entry of the row of
    frequencies is a number between 0 and 1. *)
Lemma frequency_row_entries (r : list nat) (N : nat) :
  (0 < N)%nat → Z.of_nat N < 2 ^ 53 → (sum_list r ≤ N)%nat →
  Forall (λ x : float64,
            float64_is_finite x ∧
            (0 <= float64_value x)%Q ∧ (float64_value x <= 1)%Q)
         ((λ c : nat, frequency c N) <$> r).
Proof.
  intros HN Hbig Hsum. apply Forall_fmap, Forall_lookup. intros k c Hk.
  pose proof (sum_list_lookup_le r k c Hk) as Hc.
  destruct (frequency_nearest c N) as (Hfin & H0 & H1 & _); [lia|done|done|].
  by repeat split.
Qed.

Lemma frequency_row_sum (r : list nat) (N : nat) :
  (0 < N)%nat → Z.of_nat N < 2 ^ 53 → (sum_list r ≤ N)%nat →
  (Qabs (row_sum (float64_value <$> ((λ c : nat, frequency c N) <$> r))
         - (Z.of_nat (sum_list r) # Pos.of_nat N))
   <= (Z.of_nat (sum_list r) # Pos.of_nat N) * (1 # 2 ^ 53))%Q.
Proof.
  intros HN Hbig Hsum. rewrite <- list_fmap_compose.
  by apply row_sum_frequencies.
Qed.

(** A row of counts that are all zero gives a row of zeros. *)
Lemma frequency_row_zero (r : list nat) (N : nat) :
  (0 < N)%nat → Z.of_nat N < 2 ^ 53 → sum_list r = 0%nat →
  Forall (λ x : float64, x = S754_zero false) ((λ c : nat, frequency c N) <$> r).
Proof.
  intros HN Hbig Hsum. apply Forall_fmap, Forall_lookup. intros k c Hk.
  pose proof (sum_list_lookup_le r k c Hk) as Hc.
  assert (c = 0%nat) as -> by lia. simpl. unfold frequency.
  change (Z.of_nat 0) with 0. apply float64_div_zero. lia.
Qed.

Lemma row_sum_zeros (row : list float64) :
  Forall (λ x : float64, x = S754_zero false) row →
  (row_sum (float64_value <$> row) == 0)%Q.
Proof.
  induction 1 as [|x row -> _ IH]; [reflexivity|].
  rewrite fmap_cons. simpl. by rewrite IH.
Qed.

Lemma for_each_Ok_each {A S : Type} (xs : list A) (body : A → S → res S)
  (s s' : S) (x : A) :
  for_each xs body s = Ok s' → x ∈ xs → ∃ t t', body x t = Ok t'.
Proof.
  revert s. induction xs as [|y xs IH]; intros s Hrun Hx.
  - by apply elem_of_nil in Hx.
  - simpl in Hrun. apply res_bind_Ok in Hrun as (s1 & H1 & Hrun).
    apply elem_of_cons in Hx as [->|Hx]; [by exists s, s1|by eapply IH].
Qed.

Lemma count_cell_Ok (ev : EVcouplings) (matrix : list (list ascii))
  (s i : nat) (fi fi' : list (list nat)) :
  count_cell ev matrix s i fi = Ok fi' →
  ∃ c, cell matrix s i = Some c ∧ is_Some (bucket ev c).
Proof.
  unfold count_cell, bucket. intros Hrun.
  apply res_bind_Ok in Hrun as (c & Hc%array_get_Ok & Hrun).
  exists c. split; [done|]. case_bool_decide; [|by eexists].
  apply res_bind_Ok in Hrun as (k & Hk%dict_get_Ok & Hrun).
  apply res_bind_Ok in Hrun as (k' & Hk' & _).
  rewrite Hk, Hk'. by eexists.
Qed.

(** A run of [_frequencies] that returns has met a well-shaped alignment
    whose residues all have a column or are left out. *)
Lemma frequencies_Ok_inv (matrix : list (list ascii)) (ev : EVcouplings)
  (fq : list (list float64)) :
  _frequencies matrix ev = Ok fq →
  ∃ N L, shape matrix = Ok (N, L) ∧ residues_countable matrix ev.
Proof.
  unfold _frequencies. intros Hrun.
  apply res_bind_Ok in Hrun as ([N L] & Hshape & Hrun). simpl in Hrun.
  apply res_bind_Ok in Hrun as (fi & Hloop & _).
  exists N, L. split; [done|].
  destruct (shape_Ok _ _ _ Hshape) as (HN & _ & Hwide).
  intros s i c Hc. unfold cell in Hc.
  destruct (matrix !! s) as [row|] eqn:Hrow; [|done]. simpl in Hc.
  assert (s < N)%nat as Hs by (rewrite HN; by eapply lookup_lt_Some).
  assert (i < L)%nat as Hi.
  { rewrite Forall_forall in Hwide.
    rewrite <- (Hwide row) by (by eapply list_elem_of_lookup_2).
    by eapply lookup_lt_Some. }
  destruct (for_each_Ok_each _ _ _ _ s Hloop) as (t & t' & Hinner).
  { apply elem_of_seq. lia. }
  destruct (for_each_Ok_each _ _ _ _ i Hinner) as (u & u' & Hcell).
  { apply elem_of_seq. lia. }
  apply count_cell_Ok in Hcell as (c' & Hc' & Hb).
  unfold cell in Hc'. rewrite Hrow in Hc'. simpl in Hc'. congruence.
Qed.

(** The counts behind the frequency matrix. *)
Lemma frequencies_structure (matrix : list (list ascii)) (ev : EVcouplings)
  (N L : nat) :
  shape matrix = Ok (N, L) → residues_countable matrix ev →
  ∃ counts,
    _frequencies matrix ev
      = Ok (map (map (λ c : nat, frequency c N)) counts) ∧
    dims L (num_symbols ev) counts ∧
    (∀ i k, (i < L)%nat → cnt counts i k = hits ev matrix (seq 0 N) i k) ∧
    (∀ i, (i < L)%nat → total counts i = kept ev matrix (seq 0 N) i).
Proof.
  intros Hshape Hcnt.
  destruct (shape_Ok _ _ _ Hshape) as (HN & Hpos & Hwide).
  destruct (count_rows ev matrix L Hwide Hcnt N 0
              (replicate L (replicate (num_symbols ev) 0%nat)))
    as (fi & Hrun & Hd & Hc & Ht); [lia|apply dims_zeros|].
  exists fi. split; [|split; [done|split]].
  - unfold _frequencies. rewrite Hshape. simpl. by rewrite Hrun.
  - intros i k Hi. by rewrite Hc, cnt_zeros.
  - intros i Hi. by rewrite Ht, total_zeros.
Qed.


(** C4: take a coupling model whose alphabet gives every symbol a column of
    its own, and an alignment of [N] sequences, [N] below [2 ^ 53], and [L]
    columns.  If its residues, uppercased, are symbols of the alphabet or
    one of [-], [.], [X], [B], [Z], [_frequencies] returns; and whenever it
    returns a matrix, the entry of alignment column [i] and symbol [a] is
    the binary64 quotient of the number of sequences whose residue at
    column [i], uppercased, is [a], and [N], where [-], [.], [X], [B], [Z]
    are counted nowhere; that entry is a finite number within a relative
    distance of [2 ^ -53] of the exact quotient.  The entries of the row of
    a column without such symbols are finite and add up to 1 within
    [2 ^ -53]; the row of a column made of them only holds zeros and sums
    to 0. *)
Theorem frequencies_are_counts_over_N
  (matrix : list (list ascii)) (ev : EVcouplings) :
  alphabet_separated ev →
  Z.of_nat (length matrix) < 2 ^ 53 →
  (∀ N L : nat,
     shape matrix = Ok (N, L) → residues_countable matrix ev →
     ∃ fi, _frequencies matrix ev = Ok fi) ∧
  (∀ fi : list (list float64),
     _frequencies matrix ev = Ok fi →
     ∃ N L : nat,
       shape matrix = Ok (N, L) ∧ N = length matrix ∧ length fi = L ∧
       (∀ (i : nat) (a : ascii) (ka : Z) (k : nat),
          (i < L)%nat →
          alphabet_map ev !! a = Some ka →
          np_index (num_symbols ev) ka = Ok k →
          entry fi i k = Some (frequency (counted matrix i a) N) ∧
          float64_is_finite (frequency (counted matrix i a) N) ∧
          (Qabs (float64_value (frequency (counted matrix i a) N)
                 - (Z.of_nat (counted matrix i a) # Pos.of_nat N))
           <= (Z.of_nat (counted matrix i a) # Pos.of_nat N)
              * (1 # 2 ^ 53))%Q) ∧
       (∀ (i : nat) (row : list float64),
          fi !! i = Some row → column_without_excluded matrix i →
          Forall float64_is_finite row ∧
          (Qabs (row_sum (float64_value <$> row) - 1) <= 1 # 2 ^ 53)%Q) ∧
       (∀ (i : nat) (row : list float64),
          fi !! i = Some row → column_all_excluded matrix i →
          Forall (λ x : float64, x = S754_zero false) row ∧
          (row_sum (float64_value <$> row) == 0)%Q)).
Proof.
  intros Hsep Hbig. split.
  - intros N L Hshape Hcnt.
    destruct (frequencies_structure matrix ev N L Hshape Hcnt)
      as (counts & Hrun & _).
    by eexists.
  - intros fi Hrun.
    destruct (frequencies_Ok_inv _ _ _ Hrun) as (N & L & Hshape & Hcnt).
    destruct (frequencies_structure matrix ev N L Hshape Hcnt)
      as (counts & Hrun' & Hd & Hc & Ht).
    rewrite Hrun in Hrun'. injection Hrun' as ->.
    destruct (shape_Ok _ _ _ Hshape) as (HN & Hpos & Hwide).
    rewrite <- HN in Hbig.
    assert (∀ i row,
              map (map (λ c : nat, frequency c N)) counts !! i = Some row →
              ∃ r, counts !! i = Some r ∧ (i < L)%nat ∧
                   row = (λ c : nat, frequency c N) <$> r ∧
                   sum_list r = kept ev matrix (seq 0 N) i) as Hrow.
    { intros i row Hi.
      change (map (map (λ c : nat, frequency c N)) counts)
        with (map (λ c : nat, frequency c N) <$> counts) in Hi.
      rewrite list_lookup_fmap in Hi.
      destruct (counts !! i) as [r|] eqn:Hr; [|discriminate].
      injection Hi as <-.
      assert (i < L)%nat as HiL.
      { destruct Hd as [<- _]. by eapply lookup_lt_Some. }
      exists r. split; [done|]. split; [done|]. split; [done|].
      specialize (Ht i HiL). unfold total in Ht. by rewrite Hr in Ht. }
    exists N, L. split; [done|]. split; [done|].
    split; [rewrite length_map; apply Hd|]. split; [|split].
    + intros i a ka k Hi Ha Hk.
      assert (cnt counts i k = counted matrix i a) as Hcount.
      { rewrite Hc by done. unfold counted. case_bool_decide as Hex.
        - by eapply hits_excluded.
        - rewrite HN. by eapply hits_residue_count. }
      assert (counted matrix i a ≤ N)%nat as Hle.
      { unfold counted. case_bool_decide; [lia|]. unfold residue_count.
        etrans; [apply length_filter_le|]. rewrite length_seq. lia. }
      destruct (frequency_nearest (counted matrix i a) N)
        as (Hfin & _ & _ & Herr); [done..|].
      split; [|done].
      rewrite entry_fmap.
      rewrite (entry_cnt L (num_symbols ev)); [|done|done|by eapply np_index_Ok].
      simpl. by rewrite Hcount.
    + intros i row Hi Hcol.
      destruct (Hrow i row Hi) as (r & Hr & HiL & -> & Hsum).
      rewrite HN, (kept_all ev matrix L) in Hsum by done. rewrite <- HN in Hsum.
      split.
      * eapply Forall_impl; [apply frequency_row_entries; (done || lia)|].
        by intros x (Hx & _).
      * pose proof (frequency_row_sum r N Hpos Hbig ltac:(lia)) as Herr.
        rewrite Hsum in Herr.
        assert ((Z.of_nat N # Pos.of_nat N) == 1)%Q as HNN
          by (unfold Qeq; simpl; lia).
        rewrite HNN in Herr. by rewrite Qmult_1_l in Herr.
    + intros i row Hi Hcol.
      destruct (Hrow i row Hi) as (r & Hr & HiL & -> & Hsum).
      rewrite kept_none in Hsum by done.
      pose proof (frequency_row_zero r N Hpos Hbig Hsum) as Hzero.
      split; [done|]. by apply row_sum_zeros.
Qed.

Lemma demo_ev_separated : alphabet_separated demo_ev.
Proof.
  intros a b ka kb k Ha Hb Hka Hkb. simpl in Ha, Hb.
  repeat (rewrite lookup_insert_Some in Ha || rewrite lookup_singleton_Some in Ha).
  repeat (rewrite lookup_insert_Some in Hb || rewrite lookup_singleton_Some in Hb).
  destruct Ha as [[<- <-]|[_ [[<- <-]|[_ [<- <-]]]]];
    destruct Hb as [[<- <-]|[_ [[<- <-]|[_ [<- <-]]]]];
    vm_compute in Hka, Hkb; congruence.
Qed.

Lemma demo_alignment_countable : residues_countable demo_alignment demo_ev.
Proof.
  intros s i c Hc.
  destruct s as [|[|[|[|s]]]]; destruct i as [|[|[|i]]];
    simpl in Hc; try discriminate; injection Hc as <-; vm_compute; eauto.
Qed.

Lemma frequencies_are_counts_over_N_witness :
  shape demo_alignment = Ok (4%nat, 3%nat) ∧
  Z.of_nat (length demo_alignment) < 2 ^ 53 ∧
  _frequencies demo_alignment demo_ev = Ok demo_frequencies ∧
  (∃ fi, _frequencies demo_alignment demo_ev = Ok fi) ∧
  ∃ N L : nat,
    shape demo_alignment = Ok (N, L) ∧ N = length demo_alignment ∧
    length demo_frequencies = L ∧
    (∀ (i : nat) (a : ascii) (ka : Z) (k : nat),
       (i < L)%nat →
       alphabet_map demo_ev !! a = Some ka →
       np_index (num_symbols demo_ev) ka = Ok k →
       entry demo_frequencies i k
         = Some (frequency (counted demo_alignment i a) N) ∧
       float64_is_finite (frequency (counted demo_alignment i a) N) ∧
       (Qabs (float64_value (frequency (counted demo_alignment i a) N)
              - (Z.of_nat (counted demo_alignment i a) # Pos.of_nat N))
        <= (Z.of_nat (counted demo_alignment i a) # Pos.of_nat N)
           * (1 # 2 ^ 53))%Q) ∧
    (∀ (i : nat) (row : list float64),
       demo_frequencies !! i = Some row →
       column_without_excluded demo_alignment i →
       Forall float64_is_finite row ∧
       (Qabs (row_sum (float64_value <$> row) - 1) <= 1 # 2 ^ 53)%Q) ∧
    (∀ (i : nat) (row : list float64),
       demo_frequencies !! i = Some row →
       column_all_excluded demo_alignment i →
       Forall (λ x : float64, x = S754_zero false) row ∧
       (row_sum (float64_value <$> row) == 0)%Q).
Proof.
  split; [vm_compute; reflexivity|].
  split; [vm_compute; reflexivity|].
  split; [vm_compute; reflexivity|].
  destruct (frequencies_are_counts_over_N demo_alignment demo_ev
              demo_ev_separated) as [Hreturns Hcounts];
    [vm_compute; reflexivity|].
  split.
  - apply (Hreturns 4%nat 3%nat); [vm_compute; reflexivity|].
    exact demo_alignment_countable.
  - apply Hcounts. vm_compute; reflexivity.
Defined.

(** ** Case of the residues *)

Lemma for_each_ext {A S : Type} (xs : list A) (f g : A → S → res S) (s : S) :
  (∀ x t, x ∈ xs → f x t = g x t) → for_each xs f s = for_each xs g s.
Proof.
  revert s. induction xs as [|x xs IH]; intros s Hfg; [done|].
  simpl. rewrite Hfg by left. destruct (g x s) as [s'|e]; [|done].
  simpl. apply IH. intros y t Hy. apply Hfg. by right.
Qed.

Lemma lowercased_shape (matrix matrix' : list (list ascii)) :
  lowercased matrix matrix' → shape matrix' = shape matrix.
Proof.
  intros Hlow. destruct Hlow as [|row row' rest rest' Hrow Hrest]; [done|].
  simpl. pose proof (Forall2_length _ _ _ Hrow) as Hlen.
  pose proof (Forall2_length _ _ _ Hrest) as Hlen'.
  rewrite <- Hlen, <- Hlen'.
  assert (Forall (λ r, length r = length row) rest'
          ↔ Forall (λ r, length r = length row) rest) as Hiff.
  { clear Hlen'. induction Hrest as [|r r' rest rest' Hr _ IH]; [done|].
    rewrite !Forall_cons, IH. by rewrite (Forall2_length _ _ _ Hr). }
  by rewrite (bool_decide_ext _ _ Hiff).
Qed.

Lemma lowercased_cell (matrix matrix' : list (list ascii)) (s i : nat) :
  lowercased matrix matrix' →
  upper_char <$> cell matrix' s i = upper_char <$> cell matrix s i.
Proof.
  intros Hlow. unfold cell.
  pose proof (proj1 (Forall2_lookup _ _ _) Hlow s) as Hs.
  destruct Hs as [row row' Hrow|]; [|done]. simpl.
  pose proof (proj1 (Forall2_lookup _ _ _) Hrow i) as Hi.
  destruct Hi as [c c' [->| ->]|]; simpl; [done| |done].
  by rewrite upper_lower_char.
Qed.

Lemma lowercased_count_cell (ev : EVcouplings)
  (matrix matrix' : list (list ascii)) (s i : nat) (fi : list (list nat)) :
  lowercased matrix matrix' →
  count_cell ev matrix' s i fi = count_cell ev matrix s i fi.
Proof.
  intros Hlow. pose proof (lowercased_cell _ _ s i Hlow) as Hc.
  unfold count_cell.
  destruct (cell matrix' s i) as [c'|], (cell matrix s i) as [c|];
    simpl in *; try done.
  by injection Hc as ->.
Qed.

(** C10: frequency counting does not see the case of a residue.  For every
    alignment, putting any of its residues in lower case leaves the outcome
    of [_frequencies] as it was, the frequency matrix as well as a raised
    exception; a lower-case gap or ambiguity code is left out like its
    upper-case form. *)
Theorem frequencies_ignore_case
  (matrix matrix' : list (list ascii)) (ev : EVcouplings) :
  lowercased matrix matrix' →
  _frequencies matrix' ev = _frequencies matrix ev.
Proof.
  intros Hlow. unfold _frequencies. rewrite (lowercased_shape _ _ Hlow).
  destruct (shape matrix) as [[N L]|e]; [|done]. simpl.
  rewrite (for_each_ext _ _
             (λ s fi, for_each (seq 0 L) (count_cell ev matrix s) fi)); [done|].
  intros s fi _. apply for_each_ext. intros i t _.
  by apply lowercased_count_cell.
Qed.

Lemma frequencies_ignore_case_witness :
  lowercased demo_alignment
    [ ["a"; "C"; "-"]; ["a"; "c"; "."]; ["c"; "c"; "x"]; ["A"; "A"; "-"] ]%char ∧
  _frequencies
    [ ["a"; "C"; "-"]; ["a"; "c"; "."]; ["c"; "c"; "x"]; ["A"; "A"; "-"] ]%char
    demo_ev
  = _frequencies demo_alignment demo_ev.
Proof.
  assert (lowercased demo_alignment
            [ ["a"; "C"; "-"]; ["a"; "c"; "."]; ["c"; "c"; "x"];
              ["A"; "A"; "-"] ]%char) as Hlow.
  { repeat (constructor; [repeat (constructor; [vm_compute; tauto|]);
                          constructor|]).
    constructor. }
  split; [exact Hlow|]. exact (frequencies_ignore_case _ _ demo_ev Hlow).
Defined.

(** ** The single-site fitter *)

Lemma vsum_map_insert (g : R → R) (x : list R) (k : nat) (xk t : R) :
  x !! k = Some xk →
  vsum (map g (<[k := t]> x)) = (vsum (map g x) - g xk + g t)%R.
Proof.
  revert k. induction x as [|y x IH]; intros k Hk; [done|].
  destruct k as [|k]; simpl in *.
  - injection Hk as ->. lra.
  - rewrite (IH k Hk). lra.
Qed.

Lemma vsum_zip_insert (f x : list R) (k : nat) (fk xk t : R) :
  f !! k = Some fk → x !! k = Some xk →
  vsum (zip_with Rmult f (<[k := t]> x))
    = (vsum (zip_with Rmult f x) - fk * xk + fk * t)%R.
Proof.
  revert f k. induction x as [|y x IH]; intros f k Hf Hk; [done|].
  destruct f as [|a f]; [done|].
  destruct k as [|k]; simpl in *.
  - injection Hk as ->. injection Hf as ->. lra.
  - rewrite (IH f k Hf Hk). lra.
Qed.

Lemma vsum_exp_pos (x : list R) (k : nat) (xk : R) :
  x !! k = Some xk → (0 < vsum (map exp x))%R.
Proof.
  intros Hk. assert (∀ l : list R, (0 <= vsum (map exp l))%R) as Hnn.
  { induction l as [|y l IH]; simpl; [lra|].
    pose proof (exp_pos y). lra. }
  destruct x as [|y x]; [done|]. simpl.
  pose proof (exp_pos y). pose proof (Hnn x). lra.
Qed.

(** The objective along one coordinate, and its derivative. *)
Lemma slice_derivative (N lambda C1 C2 C3 fk t0 : R) :
  (0 < C1 + exp t0)%R →
  derivable_pt_lim
    (λ t, N * (ln (C1 + exp t) - (C2 + fk * t)) + lambda * (C3 + t ^ 2))%R
    t0
    (N * (exp t0 / (C1 + exp t0) - fk) + lambda * 2 * t0)%R.
Proof.
  intros Hpos.
  assert (derivable_pt_lim (λ t, ln (C1 + exp t))%R t0
            (/ (C1 + exp t0) * (0 + exp t0))%R) as dA.
  { apply (derivable_pt_lim_comp (λ t, C1 + exp t)%R ln).
    - apply (derivable_pt_lim_plus (fct_cte C1) exp).
      + apply derivable_pt_lim_const.
      + apply derivable_pt_lim_exp.
    - by apply derivable_pt_lim_ln. }
  assert (derivable_pt_lim (λ t, C2 + fk * t)%R t0 (0 + fk * 1)%R) as dB.
  { apply (derivable_pt_lim_plus (fct_cte C2) (mult_real_fct fk id)).
    - apply derivable_pt_lim_const.
    - apply derivable_pt_lim_scal, derivable_pt_lim_id. }
  assert (derivable_pt_lim (λ t, C3 + t ^ 2)%R t0
            (0 + INR 2 * t0 ^ Init.Nat.pred 2)%R) as dD.
  { apply (derivable_pt_lim_plus (fct_cte C3) (λ t, t ^ 2)%R).
    - apply derivable_pt_lim_const.
    - apply derivable_pt_lim_pow. }
  replace (N * (exp t0 / (C1 + exp t0) - fk) + lambda * 2 * t0)%R
    with (N * (/ (C1 + exp t0) * (0 + exp t0) - (0 + fk * 1))
          + lambda * (0 + INR 2 * t0 ^ Init.Nat.pred 2))%R
    by (simpl; field; lra).
  apply (derivable_pt_lim_plus
           (mult_real_fct N (λ t, ln (C1 + exp t) - (C2 + fk * t))%R)
           (mult_real_fct lambda (λ t, C3 + t ^ 2)%R)).
  - apply derivable_pt_lim_scal.
    by apply (derivable_pt_lim_minus (λ t, ln (C1 + exp t))%R
                (λ t, C2 + fk * t)%R).
  - by apply derivable_pt_lim_scal.
Qed.

Lemma gradient_lookup (x fi : list R) (lambda N : R) (k : nat) (xk fk : R) :
  x !! k = Some xk → fi !! k = Some fk →
  _gradient x (fi, lambda, N) !! k
    = Some (N * (exp xk / vsum (map exp x) - fk) + lambda * 2 * xk)%R.
Proof.
  intros Hx Hf. unfold _gradient.
  change (@map R R) with (@fmap list _ R R).
  rewrite lookup_zip_with, !list_lookup_fmap, lookup_zip_with,
    !list_lookup_fmap, Hx, Hf.
  reflexivity.
Qed.

(** The gradient the fitter hands over is the gradient of its objective:
    coordinate by coordinate, the partial derivative. *)
Lemma gradient_is_derivative (x fi : list R) (lambda N : R) (k : nat)
  (xk : R) :
  length fi = length x → x !! k = Some xk →
  ∃ gk,
    _gradient x (fi, lambda, N) !! k = Some gk ∧
    derivable_pt_lim (λ t, _log_post (<[k := t]> x) (fi, lambda, N)) xk gk.
Proof.
  intros Hlen Hx.
  destruct (lookup_lt_is_Some_2 fi k) as [fk Hf].
  { rewrite Hlen. by eapply lookup_lt_Some. }
  eexists. split; [by apply gradient_lookup|].
  pose proof (vsum_exp_pos x k xk Hx) as Hpos.
  pose proof (slice_derivative N lambda (vsum (map exp x) - exp xk)
                (vsum (zip_with Rmult fi x) - fk * xk)
                (vsum (map (λ t, t ^ 2) x) - xk ^ 2) fk xk)%R as Hd.
  replace (vsum (map exp x) - exp xk + exp xk)%R with (vsum (map exp x))
    in Hd by lra.
  eapply derivable_pt_lim_ext; [|exact (Hd Hpos)].
  intros t. unfold _log_post.
  rewrite (vsum_map_insert exp x k xk t Hx).
  rewrite (vsum_map_insert (λ t, t ^ 2)%R x k xk t Hx).
  by rewrite (vsum_zip_insert fi x k fk xk t Hf Hx).
Qed.

Lemma gradient_analytic (N lambda : R) (fi x : list R) :
  _gradient x (fi, lambda, N) = analytic_gradient N lambda fi x.
Proof.
  unfold _gradient, analytic_gradient, softmax. rewrite List.map_map.
  f_equal. apply List.map_ext. intros t. lra.
Qed.

(** C6: the fitter works position by position.  Row [i] of its result is
    what the optimizer returns when started at the zero vector on the
    objective and the gradient closed over row [i] of the frequencies alone;
    that objective is
    [N (log (sum_a exp x_a) - sum_a f_a x_a) + lambda sum_a x_a^2], the
    gradient function is [N (softmax(x) - f) + 2 lambda x], and the latter is
    the gradient of the former: each of its coordinates is the partial
    derivative of the objective in that coordinate. *)
Theorem fitter_objective_and_gradient `{Optimizer}
  (f_i : list (list R)) (lambda N : R) (L n : nat) (h : list (list R)) :
  _independent_model f_i lambda N L n = Ok h →
  length h = L ∧
  (∀ (i : nat) (row : list R),
     h !! i = Some row →
     ∃ fi,
       f_i !! i = Some fi ∧
       row = fmin_bfgs (λ x, _log_post x (fi, lambda, N))
               (replicate n 0%R)
               (λ x, _gradient x (fi, lambda, N))) ∧
  (∀ fi x : list R, _log_post x (fi, lambda, N) = objective N lambda fi x) ∧
  (∀ fi x : list R,
     _gradient x (fi, lambda, N) = analytic_gradient N lambda fi x) ∧
  (∀ (fi x : list R) (k : nat) (xk : R),
     length fi = length x → x !! k = Some xk →
     ∃ gk,
       analytic_gradient N lambda fi x !! k = Some gk ∧
       derivable_pt_lim (λ t, objective N lambda fi (<[k := t]> x)) xk gk).
Proof.
  intros Hrun. unfold _independent_model in Hrun.
  apply map_res_Ok in Hrun.
  split; [|split; [|split; [|split]]].
  - rewrite <- (Forall2_length _ _ _ Hrun). apply length_seq.
  - intros i row Hrow.
    destruct (Forall2_lookup_r _ _ _ _ _ Hrun Hrow) as (j & Hj & Hbody).
    apply lookup_seq in Hj as [-> _]. simpl in Hbody.
    apply res_bind_Ok in Hbody as (fi & Hfi%array_get_Ok & [= <-]).
    by exists fi.
  - reflexivity.
  - intros fi x. apply gradient_analytic.
  - intros fi x k xk Hlen Hx. rewrite <- gradient_analytic.
    by apply gradient_is_derivative.
Qed.

Lemma fitter_objective_and_gradient_witness :
  @_independent_model demo_optimizer [[1; 0]; [0; 1]]%R 1%R 4%R 2 2
    = Ok [[0; 0]; [0; 0]]%R ∧
  (∀ (fi x : list R) (k : nat) (xk : R),
     length fi = length x → x !! k = Some xk →
     ∃ gk,
       analytic_gradient 4 1 fi x !! k = Some gk ∧
       derivable_pt_lim (λ t, objective 4 1 fi (<[k := t]> x)) xk gk).
Proof.
  split; [reflexivity|].
  apply (@fitter_objective_and_gradient demo_optimizer
           [[1; 0]; [0; 1]]%R 1%R 4%R 2 2 [[0; 0]; [0; 0]]%R).
  reflexivity.
Defined.

(** ** Further properties of the parameter extractor *)

(** A loop whose body only adds to the state, in the sense of a preorder
    [R], and establishes [G x] at element [x], ends in a state above the
    first one in which [G] holds at every element. *)
Lemma for_each_establishes {A S : Type} (R : S → S → Prop) (G : A → S → Prop)
  (xs : list A) (body : A → S → res S) :
  (∀ s, R s s) → (∀ s t u, R s t → R t u → R s u) →
  (∀ x s t, G x s → R s t → G x t) →
  (∀ x s s', x ∈ xs → body x s = Ok s' → R s s' ∧ G x s') →
  ∀ s s', for_each xs body s = Ok s' → R s s' ∧ ∀ x, x ∈ xs → G x s'.
Proof.
  intros Hrefl Htrans Hmono. induction xs as [|y xs IH]; intros Hbody s s' Hrun.
  - injection Hrun as <-. split; [done|]. intros x Hx. by apply elem_of_nil in Hx.
  - simpl in Hrun. apply res_bind_Ok in Hrun as (s1 & H1 & Hrun).
    destruct (Hbody y s s1) as [HR HG]; [by left|done|].
    destruct (IH (λ x t t' Hx, Hbody x t t' (list_elem_of_further _ _ _ Hx))
                s1 s' Hrun) as [HR' HG'].
    split; [by eapply Htrans|]. intros x [->|Hx]%elem_of_cons; [|by apply HG'].
    by eapply Hmono.
Qed.

Lemma keeps_keys_refl `{Countable K} {V : Type} (t : gmap K V) :
  keeps_keys t t.
Proof. by intros k. Qed.

Lemma keeps_keys_trans `{Countable K} {V : Type} (t u v : gmap K V) :
  keeps_keys t u → keeps_keys u v → keeps_keys t v.
Proof. intros Htu Huv k Hk. by apply Huv, Htu. Qed.

Lemma keeps_keys_insert `{Countable K} {V : Type} (t : gmap K V) (k : K)
  (v : V) :
  keeps_keys t (<[k := v]> t).
Proof.
  intros k' Hk'. destruct (decide (k = k')) as [->|Hne].
  - rewrite lookup_insert_eq. by eexists.
  - by rewrite lookup_insert_ne.
Qed.

(** The native loop of one position writes an entry for every symbol of
    the alphabet but the gap and removes none. *)
Lemma native_fields_covers (ev : EVcouplings) (wt : Wildtype) (i : Z)
  (tbl tbl' : gmap (Z * ascii) Q) :
  native_fields ev wt i tbl = Ok tbl' →
  keeps_keys tbl tbl' ∧
  ∀ aa, aa ∈ nogap_keys ev → is_Some (tbl' !! (i, aa)).
Proof.
  unfold native_fields.
  apply (for_each_establishes keeps_keys (λ aa t, is_Some (t !! (i, aa)))).
  - apply keeps_keys_refl.
  - apply keeps_keys_trans.
  - intros aa t u Ht Htu. by apply Htu.
  - intros aa t t' _ Hbody.
    apply res_bind_Ok in Hbody as (c & _ & Hbody).
    apply res_bind_Ok in Hbody as (a & _ & Hbody).
    apply res_bind_Ok in Hbody as (v & _ & [= <-]).
    split; [apply keeps_keys_insert|]. rewrite lookup_insert_eq. by eexists.
Qed.

Lemma native_loop_covers (ev : EVcouplings) (wt : Wildtype)
  (tbl tbl' : gmap (Z * ascii) Q) :
  for_each (upper wt) (native_fields ev wt) tbl = Ok tbl' →
  keeps_keys tbl tbl' ∧
  ∀ i, i ∈ upper wt → ∀ aa, aa ∈ nogap_keys ev → is_Some (tbl' !! (i, aa)).
Proof.
  apply (for_each_establishes keeps_keys
           (λ i t, ∀ aa, aa ∈ nogap_keys ev → is_Some (t !! (i, aa)))).
  - apply keeps_keys_refl.
  - apply keeps_keys_trans.
  - intros i t u Ht Htu aa Haa. by apply Htu, Ht.
  - intros i t t' _. apply native_fields_covers.
Qed.

Lemma fallback_loop_covers (ev : EVcouplings) (single : Z → Z → option Q)
  (ignored lo : list Z) (st st' : list Z * gmap (Z * ascii) Q) :
  for_each lo (fallback_fields ev single ignored) st = Ok st' →
  keeps_keys st.2 st'.2 ∧
  ∀ i, i ∈ lo → i ∉ ignored →
       ∀ aa, aa ∈ nogap_keys ev → is_Some (st'.2 !! (i, aa)).
Proof.
  apply (for_each_establishes (λ s t, keeps_keys s.2 t.2)
           (λ i t, i ∉ ignored →
                   ∀ aa, aa ∈ nogap_keys ev → is_Some (t.2 !! (i, aa)))).
  - intros s. apply keeps_keys_refl.
  - intros s t u. apply keeps_keys_trans.
  - intros i t u Ht Htu Hig aa Haa. by apply Htu, Ht.
  - intros i t t' _. unfold fallback_fields. case_bool_decide as Hig.
    + intros Hrun. apply res_bind_Ok in Hrun as (tbl & Hloop & [= <-]). simpl.
      revert Hloop.
      intros [Hkeeps Hall]%(for_each_establishes keeps_keys
                              (λ aa t, is_Some (t !! (i, aa)))).
      * split; [done|]. intros _. exact Hall.
      * apply keeps_keys_refl.
      * apply keeps_keys_trans.
      * intros aa u v Hu Huv. by apply Huv.
      * intros aa u u' _ Hbody.
        apply res_bind_Ok in Hbody as (a & _ & Hbody).
        apply res_bind_Ok in Hbody as (v & _ & [= <-]).
        split; [apply keeps_keys_insert|]. rewrite lookup_insert_eq. by eexists.
    + intros [= <-]. split; [apply keeps_keys_refl|]. intros Hn. by destruct Hn.
Qed.

Lemma pair_couplings_covers (ev : EVcouplings) (wt : Wildtype)
  (pm : list (list ascii)) (i j : Z)
  (tbl tbl' : gmap (Z * Z * ascii * ascii) Q) :
  pair_couplings ev wt pm (i, j) tbl = Ok tbl' →
  keeps_keys tbl tbl' ∧
  ∀ mi mj ai aj,
    list_get pm i = Ok mi → list_get pm j = Ok mj → ai ∈ mi → aj ∈ mj →
    is_Some (tbl' !! (i, j, ai, aj)).
Proof.
  unfold pair_couplings. intros Hrun.
  apply res_bind_Ok in Hrun as (mi & Hmi & Hrun).
  apply (for_each_establishes keeps_keys
           (λ ai t, ∀ mj aj, list_get pm j = Ok mj → aj ∈ mj →
                             is_Some (t !! (i, j, ai, aj)))) in Hrun
    as [Hkeeps Hall].
  - split; [done|]. intros mi' mj ai aj Hmi' Hmj Hai Haj.
    rewrite Hmi in Hmi'. injection Hmi' as <-. by eapply Hall.
  - apply keeps_keys_refl.
  - apply keeps_keys_trans.
  - intros ai t u Ht Htu mj aj Hmj Haj. by eapply Htu, Ht.
  - intros ai t t' _ Hbody.
    apply res_bind_Ok in Hbody as (mj & Hmj & Hbody).
    apply (for_each_establishes keeps_keys
             (λ aj u, is_Some (u !! (i, j, ai, aj)))) in Hbody
      as [Hkeeps Hall].
    + split; [done|]. intros mj' aj Hmj' Haj.
      rewrite Hmj in Hmj'. injection Hmj' as <-. by apply Hall.
    + apply keeps_keys_refl.
    + apply keeps_keys_trans.
    + intros aj u v Hu Huv. by apply Huv.
    + intros aj u u' _ Hcell.
      apply res_bind_Ok in Hcell as (ci & _ & Hcell).
      apply res_bind_Ok in Hcell as (cj & _ & Hcell).
      apply res_bind_Ok in Hcell as (a & _ & Hcell).
      apply res_bind_Ok in Hcell as (b & _ & Hcell).
      apply res_bind_Ok in Hcell as (v & _ & [= <-]).
      split; [apply keeps_keys_insert|]. rewrite lookup_insert_eq. by eexists.
Qed.

Lemma pair_loop_covers (ev : EVcouplings) (wt : Wildtype)
  (pm : list (list ascii)) (pairs : list (Z * Z))
  (tbl tbl' : gmap (Z * Z * ascii * ascii) Q) :
  for_each pairs (pair_couplings ev wt pm) tbl = Ok tbl' →
  keeps_keys tbl tbl' ∧
  ∀ ij, ij ∈ pairs →
    ∀ mi mj ai aj,
      list_get pm ij.1 = Ok mi → list_get pm ij.2 = Ok mj →
      ai ∈ mi → aj ∈ mj → is_Some (tbl' !! (ij.1, ij.2, ai, aj)).
Proof.
  apply (for_each_establishes keeps_keys
           (λ ij t, ∀ mi mj ai aj,
              list_get pm ij.1 = Ok mi → list_get pm ij.2 = Ok mj →
              ai ∈ mi → aj ∈ mj → is_Some (t !! (ij.1, ij.2, ai, aj)))).
  - apply keeps_keys_refl.
  - apply keeps_keys_trans.
  - intros ij t u Ht Htu mi mj ai aj Hmi Hmj Hai Haj. by eapply Htu, Ht.
  - intros [i j] t t' _. apply pair_couplings_covers.
Qed.

(** The two tables of a successful extraction are complete over what the
    serializer reads. *)
Lemma extract_ev_paras_covers (self self' : AbstractDeimmuPreparation)
  (ev : EVcouplings) :
  extract_ev_paras self ev = Ok self' →
  (∀ (i : Z) (aa : ascii),
     i ∈ hi_indices self' → aa ∈ nogap_keys ev →
     is_Some (hi self' !! (i, aa))) ∧
  (∀ (i j : Z) (mi mj : list ascii) (ai aj : ascii),
     (i, j) ∈ eij_indices self' →
     list_get (possible_mutations self) i = Ok mi →
     list_get (possible_mutations self) j = Ok mj →
     ai ∈ mi → aj ∈ mj →
     is_Some (eij self' !! (i, j, ai, aj))).
Proof.
  intros Hrun.
  pose proof (extract_ev_paras_hi_indices _ _ _ Hrun) as [_ Hidx].
  apply extract_ev_paras_Ok in Hrun
    as (hi0 & st & e & Hhi0 & Hst & He & -> & _ & -> & ->).
  apply native_loop_covers in Hhi0 as [_ Hnat].
  apply pair_loop_covers in He as [_ Hpairs].
  split.
  - intros i aa Hi Haa. apply Hidx in Hi.
    destruct (use_single_site_model self).
    + apply fallback_loop_covers in Hst as [Hkeeps Hfall]. simpl in Hkeeps.
      destruct Hi as [[Hup _]|(_ & Hlo & Hig)].
      * by apply Hkeeps, Hnat.
      * by apply Hfall.
    + injection Hst as <-. simpl.
      destruct Hi as [[Hup _]|(Hf & _)]; [by apply Hnat|discriminate].
  - intros i j mi mj ai aj Hij. by apply (Hpairs (i, j) Hij).
Qed.

Lemma map_res_total {A B : Type} (f : A → res B) (xs : list A) :
  (∀ x, x ∈ xs → ∃ y, f x = Ok y) → ∃ ys, map_res f xs = Ok ys.
Proof.
  induction xs as [|x xs IH]; intros Hall; [by exists []|].
  destruct (Hall x) as [y Hy]; [by left|].
  destruct IH as [ys Hys]; [intros z Hz; apply Hall; by right|].
  exists (y :: ys). simpl. by rewrite Hy, Hys.
Qed.

Lemma map_res_Raise {A B : Type} (f : A → res B) (xs : list A) (e : exn) :
  map_res f xs = Raise e → ∃ x, x ∈ xs ∧ f x = Raise e.
Proof.
  induction xs as [|x xs IH]; simpl; [discriminate|].
  destruct (f x) as [y|e'] eqn:Hx; simpl.
  - destruct (map_res f xs) as [ys|e'] eqn:Hxs; simpl; [discriminate|].
    intros [= ->]. destruct IH as (z & Hz & Hfz); [done|].
    exists z. split; [by right|done].
  - intros [= ->]. exists x. split; [by left|done].
Qed.

Lemma for_each_total {A S : Type} (xs : list A) (body : A → S → res S) :
  (∀ x s, x ∈ xs → ∃ s', body x s = Ok s') →
  ∀ s, ∃ s', for_each xs body s = Ok s'.
Proof.
  induction xs as [|x xs IH]; intros Hall s; [by exists s|].
  destruct (Hall x s) as [s1 H1]; [by left|].
  destruct (IH (λ y t Hy, Hall y t (list_elem_of_further _ _ _ Hy)) s1)
    as [s' Hs'].
  exists s'. simpl. by rewrite H1.
Qed.

Lemma string_app_assoc (a b c : string) : (a +:+ b) +:+ c = a +:+ b +:+ c.
Proof.
  induction a as [|x a IH]; [done|].
  change (String x ((a +:+ b) +:+ c) = String x (a +:+ b +:+ c)).
  by rewrite IH.
Qed.

Lemma string_app_empty_r (a : string) : a +:+ "" = a.
Proof.
  induction a as [|x a IH]; [done|].
  change (String x (a +:+ "") = String x a). by rewrite IH.
Qed.

(** Writing only appends to what is written. *)
Lemma write_all_extends (chunks : list (res string)) (written : string) :
  ∃ rest, (write_all chunks written).2 = written +:+ rest.
Proof.
  revert written. induction chunks as [|[s|e] chunks IH]; intros written.
  - exists "". simpl. by rewrite string_app_empty_r.
  - destruct (IH (written +:+ s)) as [rest Hrest].
    exists (s +:+ rest). simpl. by rewrite Hrest, string_app_assoc.
  - exists "". simpl. by rewrite string_app_empty_r.
Qed.

Lemma write_all_Ok (chunks : list (res string)) (written : string) :
  Forall (λ c, ∃ s, c = Ok s) chunks → (write_all chunks written).1 = Ok ().
Proof.
  intros Hall. revert written.
  induction Hall as [|c chunks [s ->] _ IH]; intros written; [done|].
  simpl. apply IH.
Qed.

(** Chunks that hold text are written and the writing goes on. *)
Lemma write_all_skip (before after : list (res string)) (written : string) :
  Forall (λ c, ∃ s, c = Ok s) before →
  ∃ written',
    write_all (before ++ after) written = write_all after written'.
Proof.
  intros Hall. revert written.
  induction Hall as [|c chunks [s ->] _ IH]; intros written; [by eexists|].
  simpl. apply IH.
Qed.

(** The first exception among the chunks is the outcome of the writing. *)
Lemma write_all_Raise (before after : list (res string)) (e : exn)
  (written : string) :
  Forall (λ c, ∃ s, c = Ok s) before →
  (write_all (before ++ Raise e :: after) written).1 = Raise e.
Proof.
  intros Hall. revert written.
  induction Hall as [|c chunks [s ->] _ IH]; intros written; [done|].
  simpl. apply IH.
Qed.

Lemma extract_ev_paras_frame (self self' : AbstractDeimmuPreparation)
  (ev : EVcouplings) :
  extract_ev_paras self ev = Ok self' →
  wildtype self' = wildtype self ∧
  possible_mutations self' = possible_mutations self ∧
  ignored_pos self' = ignored_pos self ∧
  excluded_pos self' = excluded_pos self ∧
  allele_coll self' = allele_coll self ∧
  num_mutations self' = num_mutations self ∧
  epitope_length self' = epitope_length self.
Proof.
  unfold extract_ev_paras. intros Hrun.
  apply res_bind_Ok in Hrun as (hi0 & _ & Hrun).
  apply res_bind_Ok in Hrun as (st & _ & Hrun).
  apply res_bind_Ok in Hrun as (e & _ & [= <-]).
  by repeat split.
Qed.

Lemma list_get_in_range {V : Type} (l : list V) (i : Z) :
  0 ≤ i < Z.of_nat (length l) → ∃ v, list_get l i = Ok v.
Proof.
  intros Hi. unfold list_get. rewrite bool_decide_eq_true_2 by done.
  destruct (lookup_lt_is_Some_2 l (Z.to_nat i)) as [v Hv]; [lia|].
  exists v. by rewrite Hv.
Qed.

Lemma list_get_out_of_range {V : Type} (l : list V) (i : Z) :
  ¬ (- Z.of_nat (length l) ≤ i < Z.of_nat (length l)) →
  list_get l i = Raise IndexError.
Proof.
  intros Hi. unfold list_get.
  rewrite bool_decide_eq_false_2 by lia.
  by rewrite bool_decide_eq_false_2 by lia.
Qed.

(** ** The text of the data file *)

Lemma foldl_append_text (s0 : string) (pieces : list string) :
  foldl (λ acc piece, acc +:+ piece) s0 pieces = s0 +:+ text_of pieces.
Proof.
  revert s0. induction pieces as [|p pieces IH]; intros s0; simpl.
  - by rewrite string_app_empty_r.
  - by rewrite IH, string_app_assoc.
Qed.

Lemma write_all_pieces (pieces : list string) (written : string) :
  write_all (Ok <$> pieces) written = (Ok (), written +:+ text_of pieces).
Proof.
  revert written. induction pieces as [|p pieces IH]; intros written; simpl.
  - by rewrite string_app_empty_r.
  - by rewrite IH, string_app_assoc.
Qed.

(** Writing that ends without an exception has met text only. *)
Lemma write_all_Ok_inv (chunks : list (res string)) (written : string) :
  (write_all chunks written).1 = Ok () → Forall (λ c, ∃ s, c = Ok s) chunks.
Proof.
  revert written. induction chunks as [|[s|e] chunks IH]; intros written Hrun.
  - constructor.
  - constructor; [by eexists|]. by eapply IH.
  - discriminate.
Qed.

Lemma map_res_fmap {A B : Type} (f : A → res B) (g : A → B) (xs : list A)
  (ys : list B) :
  map_res f xs = Ok ys → (∀ x y, x ∈ xs → f x = Ok y → y = g x) →
  ys = g <$> xs.
Proof.
  revert ys. induction xs as [|x xs IH]; intros ys Hrun Hfg; simpl in Hrun.
  - by injection Hrun as <-.
  - apply res_bind_Ok in Hrun as (y & Hy & Hrun).
    apply res_bind_Ok in Hrun as (ys' & Hys & [= <-]).
    rewrite fmap_cons. f_equal.
    + apply Hfg; [by left|done].
    + apply IH; [done|]. intros z w Hz. apply Hfg. by right.
Qed.

Lemma energy_text_get `{Tools} `{Countable K} (t : gmap K Q) (k : K) (v : Q) :
  dict_get t k = Ok v → str_float v = energy_text t k.
Proof. intros Hv%dict_get_Ok. unfold energy_text. by rewrite Hv. Qed.

Lemma allowed_get (self : AbstractDeimmuPreparation) (i : Z)
  (mi : list ascii) :
  list_get (possible_mutations self) i = Ok mi → allowed self i = mi.
Proof. intros Hmi. unfold allowed. by rewrite Hmi. Qed.

Lemma format_eij_indices_shown (self : AbstractDeimmuPreparation) :
  format_eij_indices self = render_position_pairs (shown_pairs self).
Proof.
  unfold format_eij_indices, render_position_pairs, shown_pairs. f_equal.
  change (@map (Z * Z) string) with (@fmap list _ (Z * Z) string).
  rewrite <- list_fmap_compose. apply list_fmap_ext. by intros _ [i j] _.
Qed.

Lemma format_hi_indices_shown (self : AbstractDeimmuPreparation) :
  format_hi_indices self = render_positions (shown_positions self).
Proof.
  unfold format_hi_indices, render_positions, shown_positions. f_equal.
  change (@map Z string) with (@fmap list _ Z string).
  by rewrite <- list_fmap_compose.
Qed.

Section data_file_text_facts.

Context `{Tools}.

Lemma wt_sets_pieces (self : AbstractDeimmuPreparation) :
  wt_sets self = Ok <$> residue_sets self.
Proof.
  unfold wt_sets, residue_sets, sequence_positions, file_positions.
  apply list_eq. intros n.
  change (@map Z (res string)) with (@fmap list _ Z (res string)).
  rewrite !list_lookup_fmap, lookup_zip_with, !list_lookup_fmap.
  destruct (decide (n < length (sequence (wildtype self)))%nat) as [Hn|Hn].
  - rewrite !lookup_seq_lt by done. simpl.
    destruct (lookup_lt_is_Some_2 (sequence (wildtype self)) n Hn)
      as [aa Haa].
    rewrite Haa. simpl. unfold list_get.
    rewrite bool_decide_eq_true_2 by lia. rewrite Nat2Z.id, Haa. simpl.
    replace (Z.of_nat (S n)) with (Z.of_nat n + 1) by lia. reflexivity.
  - rewrite !lookup_seq_ge by lia. done.
Qed.

Lemma m_sets_pieces (self : AbstractDeimmuPreparation) :
  Forall (λ c, ∃ s, c = Ok s) (m_sets self) →
  m_sets self = Ok <$> mutation_sets self.
Proof.
  intros Hall.
  unfold m_sets, mutation_sets, sequence_positions, file_positions in *.
  apply list_eq. intros n.
  change (@map Z (res string)) with (@fmap list _ Z (res string)) in *.
  rewrite !list_lookup_fmap, lookup_zip_with, !list_lookup_fmap.
  destruct (decide (n < length (sequence (wildtype self)))%nat) as [Hn|Hn].
  - rewrite !lookup_seq_lt by done. simpl.
    rewrite Forall_lookup in Hall.
    destruct (Hall n (do mi <- list_get (possible_mutations self) (Z.of_nat n);
                      Ok (to_data_format "set"
                            ("M[" +:+ str_int (Z.of_nat n + 1) +:+ "]")
                            (join " " (map str_char mi)) None None)))
      as [s Hs].
    { rewrite !list_lookup_fmap, lookup_seq_lt by done. done. }
    apply res_bind_Ok in Hs as (mi & Hmi & _). rewrite Hmi. simpl.
    unfold list_get in Hmi. cbv zeta in Hmi.
    case_bool_decide; [|by rewrite bool_decide_eq_false_2 in Hmi by lia].
    rewrite Nat2Z.id in Hmi.
    destruct (possible_mutations self !! n) as [mi'|]; [|discriminate].
    injection Hmi as ->. simpl.
    replace (Z.of_nat (S n)) with (Z.of_nat n + 1) by lia. reflexivity.
  - rewrite !lookup_seq_ge by lia. done.
Qed.

Lemma format_hi_text (self : AbstractDeimmuPreparation) (s : string) :
  format_hi self = Ok s →
  to_data_format "param"
    ("h" +:+ ": " +:+ join " " (map str_char ALPHABET_PROTEIN_NOGAP))
    s None None +:+ nl = single_position_table self.
Proof.
  unfold format_hi, single_position_table. intros Hrun.
  apply res_bind_Ok in Hrun as (rows & Hrows & [= <-]).
  do 4 f_equal. eapply map_res_fmap; [exact Hrows|].
  intros i row _ Hrow. simpl in Hrow.
  apply res_bind_Ok in Hrow as (cells & Hcells & [= <-]).
  unfold h_row, one_based. do 3 f_equal.
  eapply map_res_fmap; [exact Hcells|].
  intros aa cell _ Hcell. simpl in Hcell.
  apply res_bind_Ok in Hcell as (v & Hv & [= <-]). by apply energy_text_get.
Qed.

Lemma format_eij_block_text (self : AbstractDeimmuPreparation) (ij : Z * Z)
  (block : string) :
  format_eij_block self ij = Ok block → block = pair_block self ij.
Proof.
  destruct ij as [i j]. unfold format_eij_block, pair_block. intros Hrun.
  apply res_bind_Ok in Hrun as (mj & Hmj & Hrun).
  apply res_bind_Ok in Hrun as (mi & Hmi & Hrun).
  apply res_bind_Ok in Hrun as (content & Hcontent & [= <-]).
  simpl. rewrite (allowed_get _ _ _ Hmi), (allowed_get _ _ _ Hmj).
  unfold block_label, one_based. f_equal.
  assert (∀ rows0 : string,
            for_each mi
              (λ ai content,
                 do mj' <- list_get (possible_mutations self) j;
                 do cells <- map_res
                   (λ aj, do v <- dict_get (eij self) (i, j, ai, aj);
                          Ok (str_float v)) mj';
                 Ok (content +:+ str_char ai +:+ tab +:+ join tab cells
                     +:+ nl)) rows0 = Ok content →
            content = rows0 +:+ text_of
              ((λ ai : ascii,
                  str_char ai +:+ tab +:+
                  join tab ((λ aj, energy_text (eij self) (i, j, ai, aj))
                              <$> mj) +:+ nl) <$> mi)) as Hrows.
  { clear Hcontent Hmi. revert content.
    induction mi as [|ai mi IH]; intros content rows0 Hrun; simpl in Hrun.
    - injection Hrun as <-. simpl. by rewrite string_app_empty_r.
    - apply res_bind_Ok in Hrun as (rows1 & H1 & Hrun).
      rewrite Hmj in H1. simpl in H1.
      apply res_bind_Ok in H1 as (cells & Hcells & [= <-]).
      rewrite (IH _ _ Hrun). rewrite fmap_cons. simpl.
      rewrite !string_app_assoc. do 4 f_equal.
      + f_equal. eapply map_res_fmap; [exact Hcells|].
        intros aj cell _ Hcell. simpl in Hcell.
        apply res_bind_Ok in Hcell as (v & Hv & [= <-]).
        by apply energy_text_get. }
  by apply Hrows.
Qed.

Lemma format_eij_text (self : AbstractDeimmuPreparation) (s : string) :
  format_eij self = Ok s →
  to_data_format "param" "eij" s None None = pairwise_table self.
Proof.
  unfold format_eij, pairwise_table. intros Hrun.
  apply for_each_append in Hrun as (blocks & Hblocks & ->).
  rewrite foldl_append_text. do 3 f_equal.
  apply list_eq. intros n. rewrite list_lookup_fmap.
  pose proof (proj1 (Forall2_lookup _ _ _) Hblocks n) as Hn.
  destruct Hn as [ij block Hblock|]; [|done]. simpl.
  f_equal. by apply format_eij_block_text.
Qed.

(** A run of [to_data_file] that returns has written the file of the
    specification. *)
Lemma to_data_file_text (self : AbstractDeimmuPreparation) (out : string)
  (fs fs' : gmap string string) :
  to_data_file self out fs = (Ok (), fs') →
  fs' = <[out := data_file_text self]> fs.
Proof.
  unfold to_data_file. intros Hrun.
  destruct (write_all (data_file_chunks self) "") as [r text] eqn:Hw.
  injection Hrun as -> <-.
  assert (Forall (λ c, ∃ s, c = Ok s) (data_file_chunks self)) as Hall
    by (apply (write_all_Ok_inv _ ""); by rewrite Hw).
  assert (data_file_chunks self = Ok <$> data_file_pieces self) as Hpieces.
  { unfold data_file_chunks, data_file_pieces in Hall |- *.
    apply Forall_app in Hall as [_ Hall].
    apply Forall_app in Hall as [_ Hall].
    apply Forall_app in Hall as [Hm Hall].
    apply Forall_cons in Hall as [_ Hall].
    apply Forall_cons in Hall as [_ Hall].
    apply Forall_cons in Hall as [[s1 Hhi] Hall].
    apply Forall_cons in Hall as [[s2 Heij] _].
    apply res_bind_Ok in Hhi as (t1 & Hhi & _).
    apply res_bind_Ok in Heij as (t2 & Heij & _).
    rewrite wt_sets_pieces, (m_sets_pieces self Hm), Hhi, Heij. simpl.
    rewrite (format_hi_text self t1 Hhi), (format_eij_text self t2 Heij).
    rewrite format_eij_indices_shown, format_hi_indices_shown.
    by rewrite !fmap_app. }
  rewrite Hpieces, write_all_pieces in Hw. injection Hw as <-.
  reflexivity.
Qed.

End data_file_text_facts.

(** C8: the positions kept in the tables are the wildtype's own zero-based
    positions, and every position in the file is the position of the tables
    plus one.  After a successful [extract_ev_paras], the positions in
    [hi_indices], in [eij_indices] and in the keys of [hi] and [eij] are
    positions of the wildtype's [upper] and [lower] lists as they stand.
    When [to_data_file] then returns, the file holds, byte for byte, the
    text of the specification: the [Eij] set and the [E] set list the
    positions of the tables plus one, the sets of the residue that the
    sequence holds at index [i] are named [WT[i+1]] and [M[i+1]], the row
    of position [i] in the [h] table starts with [i+1], and the block of the
    pair [(i, j)] is labelled [[i+1,j+1,*,*]:]; a decimal numeral stands for
    one number only.  The call leaves the tables as they are. *)
Theorem positions_zero_based_inside_one_based_in_file `{Tools}
  (self0 self : AbstractDeimmuPreparation) (ev : EVcouplings) (out : string)
  (fs fs' : gmap string string) :
  extract_ev_paras self0 ev = Ok self →
  to_data_file self out fs = (Ok (), fs') →
  (∀ i : Z, i ∈ hi_indices self →
     i ∈ upper (wildtype self0) ∨ i ∈ lower (wildtype self0)) ∧
  (∀ i j : Z, (i, j) ∈ eij_indices self →
     i ∈ upper (wildtype self0) ∧ j ∈ upper (wildtype self0)) ∧
  (∀ (i : Z) (aa : ascii), is_Some (hi self !! (i, aa)) →
     i ∈ upper (wildtype self0) ∨ i ∈ lower (wildtype self0)) ∧
  (∀ (i j : Z) (ai aj : ascii), is_Some (eij self !! (i, j, ai, aj)) →
     (i, j) ∈ eij_indices self) ∧
  fs' = <[out := data_file_text self]> fs ∧
  (∀ a b : Z, str_int a = str_int b → a = b).
Proof.
  intros Hrun Hfile.
  pose proof (extract_ev_paras_hi_indices _ _ _ Hrun) as [_ Hidx].
  pose proof (extract_ev_paras_entries _ _ _ Hrun) as [Hhi Heij].
  apply extract_ev_paras_Ok in Hrun
    as (_ & _ & _ & _ & _ & _ & _ & _ & Hpairs & _).
  repeat apply conj.
  - intros i Hi. apply Hidx in Hi. tauto.
  - intros i j Hij. rewrite Hpairs in Hij.
    apply elem_of_build_eij_indices in Hij. tauto.
  - intros i aa [v Hv]. destruct (Hhi i aa v Hv) as [Hn|Hf].
    + left. apply Hn.
    + right. apply Hf.
  - intros i j ai aj [v Hv]. rewrite Hpairs. apply (Heij i j ai aj v Hv).
  - by apply to_data_file_text.
  - intros a b. apply pretty_Z_inj.
Qed.

Lemma positions_zero_based_inside_one_based_in_file_witness :
  ∃ self,
    extract_ev_paras
      (demo_prep [0; 2] [1] [] true [["A"]; ["A"; "C"]; ["C"]]%char)
      demo_ev = Ok self ∧
    hi_indices self = [0; 1; 2] ∧
    eij_indices self = [(0, 2)] ∧
    shown_positions self = [1; 2; 3] ∧
    shown_pairs self = [(1, 3)] ∧
    (@to_data_file demo_tools self "out" ∅).1 = Ok () ∧
    (∀ i : Z, i ∈ hi_indices self → i ∈ [0; 2] ∨ i ∈ [1]) ∧
    (∀ i j : Z, (i, j) ∈ eij_indices self → i ∈ [0; 2] ∧ j ∈ [0; 2]) ∧
    (@to_data_file demo_tools self "out" ∅).2
      = <["out" := @data_file_text demo_tools self]> ∅.
Proof.
  run_extraction.
  do 5 (split; [vm_compute; reflexivity|]).
  destruct (@positions_zero_based_inside_one_based_in_file demo_tools
              (demo_prep [0; 2] [1] [] true [["A"]; ["A"; "C"]; ["C"]]%char)
              (value_of
                 (extract_ev_paras
                    (demo_prep [0; 2] [1] [] true
                               [["A"]; ["A"; "C"]; ["C"]]%char) demo_ev)
                 (demo_prep [0; 2] [1] [] true [["A"]; ["A"; "C"]; ["C"]]%char))
              demo_ev "out" ∅
              (@to_data_file demo_tools
                 (value_of
                    (extract_ev_paras
                       (demo_prep [0; 2] [1] [] true
                                  [["A"]; ["A"; "C"]; ["C"]]%char) demo_ev)
                    (demo_prep [0; 2] [1] [] true
                               [["A"]; ["A"; "C"]; ["C"]]%char))
                 "out" ∅).2)
    as (Hidx & Hpairs & _ & _ & Hfile & _).
  - vm_compute; reflexivity.
  - etrans; [apply surjective_pairing|]; f_equal; vm_compute; reflexivity.
  - split; [exact Hidx|]. split; [exact Hpairs|exact Hfile].
Defined.

(** ** Retained positions and the completeness of the tables *)

(** X1: after a successful [extract_ev_paras], [hi_indices] is in ascending
    order and holds exactly the native positions that are not ignored and,
    with the single-site model on, the insertion positions that are not
    ignored.  The smaller position of every pair of [eij_indices] is in
    [hi_indices], and the larger one is in [hi_indices] unless it is
    ignored. *)
Theorem retained_positions_and_index_consistency
  (self self' : AbstractDeimmuPreparation) (ev : EVcouplings) :
  extract_ev_paras self ev = Ok self' →
  Sorted Z.le (hi_indices self') ∧
  (∀ i : Z, i ∈ hi_indices self' ↔ position_retained self i) ∧
  (∀ i j : Z, (i, j) ∈ eij_indices self' →
     i ∈ hi_indices self' ∧
     (j ∈ hi_indices self' ∨ j ∈ ignored_pos self)).
Proof.
  intros Hrun.
  pose proof (extract_ev_paras_hi_indices _ _ _ Hrun) as [Hsorted Hidx].
  split; [done|]. split; [exact Hidx|].
  apply extract_ev_paras_Ok in Hrun
    as (_ & _ & _ & _ & _ & _ & _ & _ & -> & _).
  intros i j (Hi & Hj & _ & Hig)%elem_of_build_eij_indices. split.
  - apply Hidx. by left.
  - destruct (decide (j ∈ ignored_pos self)) as [Hjig|Hjig]; [by right|].
    left. apply Hidx. by left.
Qed.

Lemma retained_positions_and_index_consistency_witness :
  ∃ self',
    extract_ev_paras
      (demo_prep [0; 2] [1] [2] true [["A"]; ["A"; "C"]; ["C"]]%char)
      demo_ev = Ok self' ∧
    hi_indices self' = [0; 1] ∧
    eij_indices self' = [(0, 2)] ∧
    Sorted Z.le (hi_indices self') ∧
    (∀ i : Z, i ∈ hi_indices self' ↔
       position_retained
         (demo_prep [0; 2] [1] [2] true [["A"]; ["A"; "C"]; ["C"]]%char) i) ∧
    (∀ i j : Z, (i, j) ∈ eij_indices self' →
       i ∈ hi_indices self' ∧ (j ∈ hi_indices self' ∨ j ∈ [2])).
Proof.
  run_extraction.
  split; [vm_compute; reflexivity|].
  split; [vm_compute; reflexivity|].
  apply (retained_positions_and_index_consistency
           (demo_prep [0; 2] [1] [2] true [["A"]; ["A"; "C"]; ["C"]]%char)
           _ demo_ev).
  vm_compute; reflexivity.
Defined.

(** X2: the tables of a successful [extract_ev_paras] are complete.  [hi]
    has an entry for every position of [hi_indices] and every symbol of the
    alphabet map other than the gap; [eij] has an entry for every pair of
    [eij_indices] and every two amino acids allowed at its two positions. *)
Theorem extracted_tables_complete
  (self self' : AbstractDeimmuPreparation) (ev : EVcouplings) :
  extract_ev_paras self ev = Ok self' →
  (∀ (i : Z) (aa : ascii),
     i ∈ hi_indices self' → aa ≠ "-"%char →
     is_Some (alphabet_map ev !! aa) →
     is_Some (hi self' !! (i, aa))) ∧
  (∀ (i j : Z) (mi mj : list ascii) (ai aj : ascii),
     (i, j) ∈ eij_indices self' →
     list_get (possible_mutations self') i = Ok mi →
     list_get (possible_mutations self') j = Ok mj →
     ai ∈ mi → aj ∈ mj →
     is_Some (eij self' !! (i, j, ai, aj))).
Proof.
  intros Hrun.
  destruct (extract_ev_paras_covers _ _ _ Hrun) as [Hhi Heij].
  destruct (extract_ev_paras_frame _ _ _ Hrun) as (_ & -> & _).
  split; [|exact Heij].
  intros i aa Hi Hgap Haa. apply Hhi; [done|]. by apply elem_of_nogap_keys.
Qed.

Lemma extracted_tables_complete_witness :
  ∃ self',
    extract_ev_paras
      (demo_prep [0; 2] [1] [] true [["A"]; ["A"; "C"]; ["C"]]%char)
      demo_ev = Ok self' ∧
    (∀ (i : Z) (aa : ascii),
       i ∈ hi_indices self' → aa ≠ "-"%char →
       is_Some (alphabet_map demo_ev !! aa) →
       is_Some (hi self' !! (i, aa))) ∧
    (∀ (i j : Z) (mi mj : list ascii) (ai aj : ascii),
       (i, j) ∈ eij_indices self' →
       list_get (possible_mutations self') i = Ok mi →
       list_get (possible_mutations self') j = Ok mj →
       ai ∈ mi → aj ∈ mj →
       is_Some (eij self' !! (i, j, ai, aj))).
Proof.
  run_extraction.
  apply (extracted_tables_complete
           (demo_prep [0; 2] [1] [] true [["A"]; ["A"; "C"]; ["C"]]%char)
           _ demo_ev).
  vm_compute; reflexivity.
Defined.

(** ** Further properties of the serializer *)

Lemma format_hi_total `{Tools} (self : AbstractDeimmuPreparation) :
  (∀ (i : Z) (aa : ascii),
     i ∈ hi_indices self → aa ∈ ALPHABET_PROTEIN_NOGAP →
     is_Some (hi self !! (i, aa))) →
  ∃ s, format_hi self = Ok s.
Proof.
  intros Hall. unfold format_hi.
  destruct (map_res_total
              (λ i : Z,
                 do cells <- map_res
                   (λ aa, do v <- dict_get (hi self) (i, aa);
                          Ok (str_float v)) ALPHABET_PROTEIN_NOGAP;
                 Ok (str_int (i + 1) +:+ " " +:+ join " " cells))
              (hi_indices self)) as [rows Hrows].
  - intros i Hi.
    destruct (map_res_total
                (λ aa, do v <- dict_get (hi self) (i, aa); Ok (str_float v))
                ALPHABET_PROTEIN_NOGAP) as [cells Hcells].
    + intros aa Haa. destruct (Hall i aa Hi Haa) as [v Hv].
      exists (str_float v). unfold dict_get. by rewrite Hv.
    + eexists. by rewrite Hcells.
  - eexists. by rewrite Hrows.
Qed.

(** X3: [format_hi] returns exactly when [hi] has an entry for every
    position of [hi_indices] and every symbol of [ALPHABET_PROTEIN_NOGAP];
    when an entry is missing the exception is a [KeyError]. *)
Theorem format_hi_returns_iff_entries_present `{Tools}
  (self : AbstractDeimmuPreparation) :
  ((∃ s, format_hi self = Ok s) ↔
   ∀ (i : Z) (aa : ascii),
     i ∈ hi_indices self → aa ∈ ALPHABET_PROTEIN_NOGAP →
     is_Some (hi self !! (i, aa))) ∧
  (∀ e, format_hi self = Raise e → e = KeyError).
Proof.
  split; [split|].
  - intros [s Hs] i aa Hi Haa. unfold format_hi in Hs.
    apply res_bind_Ok in Hs as (rows & Hrows & _).
    apply map_res_Ok in Hrows.
    apply list_elem_of_lookup in Hi as [n Hn].
    destruct (Forall2_lookup_l _ _ _ _ _ Hrows Hn) as (row & _ & Hrow).
    simpl in Hrow. apply res_bind_Ok in Hrow as (cells & Hcells & _).
    apply map_res_Ok in Hcells.
    apply list_elem_of_lookup in Haa as [m Hm].
    destruct (Forall2_lookup_l _ _ _ _ _ Hcells Hm) as (cell & _ & Hcell).
    simpl in Hcell. apply res_bind_Ok in Hcell as (v & Hv%dict_get_Ok & _).
    by exists v.
  - apply format_hi_total.
  - intros e Hrun. unfold format_hi in Hrun.
    destruct (map_res _ (hi_indices self)) as [rows|e'] eqn:Hrows;
      [discriminate|].
    injection Hrun as ->.
    apply map_res_Raise in Hrows as (i & _ & Hrow).
    destruct (map_res _ ALPHABET_PROTEIN_NOGAP) as [cells|e'] eqn:Hcells;
      [discriminate|].
    injection Hrow as ->.
    apply map_res_Raise in Hcells as (aa & _ & Hcell).
    unfold dict_get in Hcell. destruct (hi self !! (i, aa)); [discriminate|].
    by injection Hcell as <-.
Qed.

Lemma wt_sets_Ok `{Tools} (self : AbstractDeimmuPreparation) :
  Forall (λ c, ∃ s, c = Ok s) (wt_sets self).
Proof.
  unfold wt_sets. apply Forall_forall. intros c Hc.
  change (@map Z (res string)) with (@fmap list _ Z (res string)) in Hc.
  apply list_elem_of_fmap in Hc as (i & -> & Hi).
  apply elem_of_sequence_positions in Hi.
  destruct (list_get_in_range (sequence (wildtype self)) i Hi) as [aa Haa].
  rewrite Haa. by eexists.
Qed.

Lemma m_sets_Ok `{Tools} (self : AbstractDeimmuPreparation) :
  (length (sequence (wildtype self)) ≤ length (possible_mutations self))%nat →
  Forall (λ c, ∃ s, c = Ok s) (m_sets self).
Proof.
  intros Hlen. unfold m_sets. apply Forall_forall. intros c Hc.
  change (@map Z (res string)) with (@fmap list _ Z (res string)) in Hc.
  apply list_elem_of_fmap in Hc as (i & -> & Hi).
  apply elem_of_sequence_positions in Hi.
  destruct (list_get_in_range (possible_mutations self) i) as [mi Hmi]; [lia|].
  rewrite Hmi. by eexists.
Qed.

Lemma format_eij_block_total `{Tools} (self : AbstractDeimmuPreparation)
  (i j : Z) (mi mj : list ascii) :
  list_get (possible_mutations self) i = Ok mi →
  list_get (possible_mutations self) j = Ok mj →
  (∀ ai aj, ai ∈ mi → aj ∈ mj → is_Some (eij self !! (i, j, ai, aj))) →
  ∃ block, format_eij_block self (i, j) = Ok block.
Proof.
  intros Hmi Hmj Hall. unfold format_eij_block. rewrite Hmj, Hmi. simpl.
  lazymatch goal with
  | |- context [for_each mi ?body nl] =>
      destruct (for_each_total mi body) with (s := nl) as [content Hcontent]
  end.
  - intros ai content Hai. simpl.
    destruct (map_res_total
                (λ aj, do v <- dict_get (eij self) (i, j, ai, aj);
                       Ok (str_float v)) mj) as [cells Hcells].
    + intros aj Haj. destruct (Hall ai aj Hai Haj) as [v Hv].
      exists (str_float v). unfold dict_get. by rewrite Hv.
    + rewrite Hcells. by eexists.
  - rewrite Hcontent. by eexists.
Qed.

(** X4: serialization after extraction does not fail.  If every symbol of
    [ALPHABET_PROTEIN_NOGAP] is a symbol of the coupling model's alphabet
    other than the gap, [possible_mutations] has an entry for every native
    position and for every position of the wildtype sequence, and
    [extract_ev_paras] returns, then [to_data_file] on the extracted state
    returns without an exception and leaves the whole text in the file. *)
Theorem to_data_file_after_extraction `{Tools}
  (self self' : AbstractDeimmuPreparation) (ev : EVcouplings) (out : string)
  (fs : gmap string string) :
  (∀ aa, aa ∈ ALPHABET_PROTEIN_NOGAP →
         aa ≠ "-"%char ∧ is_Some (alphabet_map ev !! aa)) →
  (∀ i, i ∈ upper (wildtype self) →
        ∃ mi, list_get (possible_mutations self) i = Ok mi) →
  (length (sequence (wildtype self)) ≤ length (possible_mutations self))%nat →
  extract_ev_paras self ev = Ok self' →
  to_data_file self' out fs
    = (Ok (), <[out := (write_all (data_file_chunks self') "").2]> fs) ∧
  Forall (λ c, ∃ s, c = Ok s) (data_file_chunks self').
Proof.
  intros Halpha Hpm Hlen Hrun.
  destruct (extract_ev_paras_covers _ _ _ Hrun) as [Hhi Heij].
  destruct (extract_ev_paras_frame _ _ _ Hrun) as (Hwt & Hpm' & _).
  assert (∀ i j, (i, j) ∈ eij_indices self' →
                 i ∈ upper (wildtype self) ∧ j ∈ upper (wildtype self)) as Hup.
  { apply extract_ev_paras_Ok in Hrun
      as (_ & _ & _ & _ & _ & _ & _ & _ & -> & _).
    intros i j (Hi & Hj & _)%elem_of_build_eij_indices. by split. }
  assert (Forall (λ c, ∃ s, c = Ok s) (data_file_chunks self')) as Hchunks.
  { unfold data_file_chunks. repeat (apply Forall_cons; split; [by eexists|]).
    apply Forall_app. split; [apply wt_sets_Ok|].
    apply Forall_app. split.
    { apply m_sets_Ok. by rewrite Hwt, Hpm'. }
    repeat (apply Forall_cons; split; [by eexists|]).
    apply Forall_cons. split.
    { destruct (format_hi_total self') as [s Hs].
      - intros i aa Hi Haa. destruct (Halpha aa Haa) as [Hgap Ha].
        apply Hhi; [done|]. by apply elem_of_nogap_keys.
      - rewrite Hs. by eexists. }
    apply Forall_cons. split.
    { unfold format_eij.
      destruct (for_each_total (eij_indices self')
                  (λ ij s, do block <- format_eij_block self' ij;
                           Ok (s +:+ block))) with (s := nl) as [s Hs].
      - intros [i j] s Hij. destruct (Hup i j Hij) as [Hi Hj].
        destruct (Hpm i Hi) as [mi Hmi]. destruct (Hpm j Hj) as [mj Hmj].
        rewrite <- Hpm' in Hmi, Hmj.
        destruct (format_eij_block_total self' i j mi mj Hmi Hmj) as [b Hb].
        + intros ai aj Hai Haj. rewrite Hpm' in Hmi, Hmj.
          by apply (Heij i j mi mj).
        + rewrite Hb. by eexists.
      - rewrite Hs. by eexists. }
    apply Forall_cons. split; [by eexists|]. constructor. }
  split; [|done]. unfold to_data_file.
  pose proof (write_all_Ok (data_file_chunks self') "" Hchunks) as Hok.
  destruct (write_all (data_file_chunks self') "") as [r text].
  simpl in *. by rewrite Hok.
Qed.

Lemma to_data_file_after_extraction_witness :
  ∃ self',
    extract_ev_paras
      (demo_prep [0; 2] [1] [] true [["A"]; ["A"; "C"]; ["C"]]%char)
      demo_ev = Ok self' ∧
    (@to_data_file demo_tools self' "out" ∅).1 = Ok () ∧
    @to_data_file demo_tools self' "out" ∅
      = (Ok (),
         <["out" := (write_all (@data_file_chunks demo_tools self') "").2]> ∅) ∧
    Forall (λ c, ∃ s, c = Ok s) (@data_file_chunks demo_tools self').
Proof.
  run_extraction.
  split; [vm_compute; reflexivity|].
  apply (@to_data_file_after_extraction demo_tools
           (demo_prep [0; 2] [1] [] true [["A"]; ["A"; "C"]; ["C"]]%char)
           _ demo_ev "out" ∅).
  - intros aa Haa. simpl in Haa.
    apply elem_of_cons in Haa as [->|Haa]; [split; [done|vm_compute; eauto]|].
    apply list_elem_of_singleton in Haa as ->.
    split; [done|vm_compute; eauto].
  - intros i Hi. simpl in Hi.
    apply elem_of_cons in Hi as [->|Hi]; [vm_compute; eauto|].
    apply list_elem_of_singleton in Hi as ->. vm_compute; eauto.
  - simpl. lia.
  - vm_compute; reflexivity.
Defined.

(** X5: an exception of [format_hi] comes out of [to_data_file] only after
    the file has been opened and its first sections written.  If
    [possible_mutations] has an entry for every position of the wildtype
    sequence and [format_hi] raises, then [to_data_file] raises the same
    exception, and the file nevertheless exists afterwards, its previous
    text replaced by a text that starts with the banner of the first
    section. *)
Theorem to_data_file_failure_leaves_truncated_file `{Tools}
  (self : AbstractDeimmuPreparation) (out : string) (fs : gmap string string)
  (e : exn) :
  (length (sequence (wildtype self)) ≤ length (possible_mutations self))%nat →
  format_hi self = Raise e →
  (to_data_file self out fs).1 = Raise e ∧
  ∃ rest,
    (to_data_file self out fs).2 !! out = Some (banner "Sets I" +:+ rest).
Proof.
  intros Hlen Hhi. unfold to_data_file.
  destruct (write_all (data_file_chunks self) "") as [r text] eqn:Hw.
  simpl. rewrite lookup_insert_eq. split.
  - change r with (r, text).1. rewrite <- Hw. unfold data_file_chunks.
    rewrite Hhi. simpl write_all.
    lazymatch goal with
    | |- context [write_all (wt_sets self ++ ?after) ?w] =>
        destruct (write_all_skip (wt_sets self) after w (wt_sets_Ok self))
          as [w1 ->]
    end.
    lazymatch goal with
    | |- context [write_all (m_sets self ++ ?after) ?w] =>
        destruct (write_all_skip (m_sets self) after w (m_sets_Ok self Hlen))
          as [w2 ->]
    end.
    reflexivity.
  - change text with (r, text).2. rewrite <- Hw. unfold data_file_chunks.
    rewrite <- app_comm_cons.
    lazymatch goal with
    | |- context [write_all (Ok ?s :: ?chunks) ""] =>
        change (write_all (Ok s :: chunks) "") with (write_all chunks s);
        destruct (write_all_extends chunks s) as [rest Hrest]
    end.
    exists rest. f_equal. exact Hrest.
Qed.

Lemma to_data_file_failure_leaves_truncated_file_witness :
  @format_hi demo_tools
    (set_hi_indices [0] (demo_prep [0] [] [] false [["A"]; ["C"]; ["A"]]%char))
    = Raise KeyError ∧
  (@to_data_file demo_tools
     (set_hi_indices [0] (demo_prep [0] [] [] false [["A"]; ["C"]; ["A"]]%char))
     "out" {[ "out" := "old text" ]}).1 = Raise KeyError ∧
  ∃ rest,
    (@to_data_file demo_tools
       (set_hi_indices [0]
          (demo_prep [0] [] [] false [["A"]; ["C"]; ["A"]]%char))
       "out" {[ "out" := "old text" ]}).2 !! "out"
    = Some (banner "Sets I" +:+ rest).
Proof.
  split; [vm_compute; reflexivity|].
  apply (@to_data_file_failure_leaves_truncated_file demo_tools
           (set_hi_indices [0]
              (demo_prep [0] [] [] false [["A"]; ["C"]; ["A"]]%char))
           "out" {[ "out" := "old text" ]} KeyError).
  - simpl. lia.
  - vm_compute; reflexivity.
Defined.

(** X6: [possible_mutations] has to reach every position that opens a pair.
    If two native positions [i < j] are given, [i] is not ignored, and [i]
    lies outside [possible_mutations] (beyond its end, or below the negative
    of its length), then [extract_ev_paras] raises an exception. *)
Theorem extraction_needs_possible_mutations
  (self : AbstractDeimmuPreparation) (ev : EVcouplings) (i j : Z) :
  i ∈ upper (wildtype self) → j ∈ upper (wildtype self) → i < j →
  i ∉ ignored_pos self →
  ¬ (- Z.of_nat (length (possible_mutations self)) ≤ i
     < Z.of_nat (length (possible_mutations self))) →
  ∃ e, extract_ev_paras self ev = Raise e.
Proof.
  intros Hi Hj Hlt Hig Hout. unfold extract_ev_paras.
  destruct (for_each (upper (wildtype self)) _ ∅) as [hi0|e]; [|by exists e].
  simpl.
  destruct (if use_single_site_model self then _ else _) as [st|e];
    [|by exists e].
  simpl.
  destruct (for_each_fails
              (build_eij_indices (upper (wildtype self)) (ignored_pos self))
              (pair_couplings ev (wildtype self) (possible_mutations self))
              (i, j)) with (s := (∅ : gmap (Z * Z * ascii * ascii) Q))
    as [e He].
  - by apply elem_of_build_eij_indices.
  - intros tbl. exists IndexError. unfold pair_couplings.
    by rewrite list_get_out_of_range.
  - exists e. by rewrite He.
Qed.

Lemma extraction_needs_possible_mutations_witness :
  ∃ e,
    extract_ev_paras (demo_prep [0; 1] [] [] false []) demo_ev = Raise e.
Proof.
  apply (extraction_needs_possible_mutations
           (demo_prep [0; 1] [] [] false []) demo_ev 0 1).
  - simpl. set_solver.
  - simpl. set_solver.
  - lia.
  - simpl. set_solver.
  - simpl. lia.
Defined.

(** X18: the keys of [eij] are ordered pairs of native positions.  After a
    successful [extract_ev_paras], every key [(i, j, ai, aj)] of [eij] has
    [i < j], both positions native, and [i] not ignored; no coupling is
    stored twice under the two orders of a pair. *)
Theorem eij_keys_are_ordered_native_pairs
  (self self' : AbstractDeimmuPreparation) (ev : EVcouplings) :
  extract_ev_paras self ev = Ok self' →
  ∀ (i j : Z) (ai aj : ascii),
    is_Some (eij self' !! (i, j, ai, aj)) →
    i < j ∧ i ∈ upper (wildtype self) ∧ j ∈ upper (wildtype self) ∧
    (i ∉ ignored_pos self) ∧
    eij self' !! (j, i, aj, ai) = None.
Proof.
  intros Hrun i j ai aj [v Hv].
  destruct (extract_ev_paras_entries _ _ _ Hrun) as [_ Heij].
  destruct (Heij i j ai aj v Hv) as (Hij & _).
  apply elem_of_build_eij_indices in Hij as (Hi & Hj & Hlt & Hig).
  repeat split; try done.
  destruct (eij self' !! (j, i, aj, ai)) as [w|] eqn:Hw; [|done].
  destruct (Heij j i aj ai w Hw) as (Hji & _).
  apply elem_of_build_eij_indices in Hji as (_ & _ & Hlt' & _). lia.
Qed.

Lemma eij_keys_are_ordered_native_pairs_witness :
  ∃ self',
    extract_ev_paras
      (demo_prep [0; 2] [1] [] true [["A"]; ["A"; "C"]; ["C"]]%char)
      demo_ev = Ok self' ∧
    is_Some (eij self' !! (0, 2, "A"%char, "C"%char)) ∧
    ∀ (i j : Z) (ai aj : ascii),
      is_Some (eij self' !! (i, j, ai, aj)) →
      i < j ∧ i ∈ [0; 2] ∧ j ∈ [0; 2] ∧ (i ∉ @nil Z) ∧
      eij self' !! (j, i, aj, ai) = None.
Proof.
  run_extraction.
  split; [vm_compute; eauto|].
  apply (eij_keys_are_ordered_native_pairs
           (demo_prep [0; 2] [1] [] true [["A"]; ["A"; "C"]; ["C"]]%char)
           _ demo_ev).
  vm_compute; reflexivity.
Defined.

(** ** Further properties of the frequency estimator *)

(** X7: [_frequencies] returns exactly when the alignment has a
    two-dimensional shape (it is not empty and its sequences have one
    length) and every residue, uppercased, is one of [-], [.], [X], [B],
    [Z] or a symbol of the alphabet map with an index inside the matrix;
    in every other case it raises, and no residue is passed over. *)
Theorem frequencies_returns_iff (matrix : list (list ascii))
  (ev : EVcouplings) :
  (∃ fi, _frequencies matrix ev = Ok fi) ↔
  (∃ N L, shape matrix = Ok (N, L)) ∧ residues_countable matrix ev.
Proof.
  split.
  - intros [fi Hrun].
    destruct (frequencies_Ok_inv _ _ _ Hrun) as (N & L & Hshape & Hcnt).
    split; [by exists N, L|done].
  - intros [(N & L & Hshape) Hcnt].
    destruct (frequencies_structure matrix ev N L Hshape Hcnt)
      as (counts & Hrun & _).
    by eexists.
Qed.

(** X8: the matrix [_frequencies] returns for an alignment of fewer than
    [2 ^ 53] sequences has one row per alignment column and one column per
    symbol of the model; every entry is a finite binary64 number between 0
    and 1, and the entries of a row add up to no more than [1 + 2 ^ -53]. *)
Theorem frequencies_rows_are_subdistributions
  (matrix : list (list ascii)) (ev : EVcouplings) (fi : list (list float64)) :
  Z.of_nat (length matrix) < 2 ^ 53 →
  _frequencies matrix ev = Ok fi →
  ∃ N L : nat,
    shape matrix = Ok (N, L) ∧ length fi = L ∧
    Forall (λ row : list float64,
              length row = num_symbols ev ∧
              Forall (λ x : float64,
                        float64_is_finite x ∧
                        (0 <= float64_value x)%Q ∧ (float64_value x <= 1)%Q)
                     row ∧
              (row_sum (float64_value <$> row) <= 1 + (1 # 2 ^ 53))%Q) fi.
Proof.
  intros Hbig Hrun.
  destruct (frequencies_Ok_inv _ _ _ Hrun) as (N & L & Hshape & Hcnt).
  destruct (frequencies_structure matrix ev N L Hshape Hcnt)
    as (counts & Hrun' & [Hlen Hrows] & _ & Htotal).
  rewrite Hrun in Hrun'. injection Hrun' as ->.
  destruct (shape_Ok _ _ _ Hshape) as (HN & Hpos & _).
  rewrite <- HN in Hbig.
  exists N, L. split; [done|]. split; [by rewrite length_map|].
  apply Forall_forall. intros row Hrow.
  change (map (map (λ c : nat, frequency c N)) counts)
    with (map (λ c : nat, frequency c N) <$> counts) in Hrow.
  apply list_elem_of_fmap in Hrow as (r & -> & Hr).
  apply list_elem_of_lookup in Hr as [i Hi].
  assert (i < L)%nat as HiL by (rewrite <- Hlen; by eapply lookup_lt_Some).
  assert (sum_list r ≤ N)%nat as Hsum.
  { specialize (Htotal i HiL). unfold total in Htotal. rewrite Hi in Htotal.
    simpl in Htotal. rewrite Htotal. unfold kept.
    etrans; [apply length_filter_le|]. by rewrite length_seq. }
  split; [|split].
  - rewrite length_map. rewrite Forall_forall in Hrows. apply Hrows.
    by eapply list_elem_of_lookup_2.
  - by apply frequency_row_entries.
  - pose proof (frequency_row_sum r N Hpos Hbig Hsum) as Herr.
    change (map (λ c : nat, frequency c N) r)
      with ((λ c : nat, frequency c N) <$> r).
    apply Qabs_Qle_condition in Herr as [_ Hhi].
    assert (0 <= (Z.of_nat (sum_list r) # Pos.of_nat N))%Q as Hx0
      by (unfold Qle; simpl; lia).
    assert ((Z.of_nat (sum_list r) # Pos.of_nat N) <= 1)%Q as Hx1
      by (unfold Qle; simpl; lia).
    set (x := (Z.of_nat (sum_list r) # Pos.of_nat N)%Q) in *.
    set (S := row_sum (float64_value <$> ((λ c : nat, frequency c N) <$> r)))
      in *.
    assert (0 <= (1 # 2 ^ 53))%Q as Hu by (vm_compute; discriminate).
    set (u := (1 # 2 ^ 53)%Q) in *. clearbody x S u. Lqa.nra.
Qed.

Lemma frequencies_rows_are_subdistributions_witness :
  Z.of_nat (length demo_alignment) < 2 ^ 53 ∧
  _frequencies demo_alignment demo_ev = Ok demo_frequencies ∧
  ∃ N L : nat,
    shape demo_alignment = Ok (N, L) ∧
    length demo_frequencies = L ∧
    Forall (λ row : list float64,
              length row = num_symbols demo_ev ∧
              Forall (λ x : float64,
                        float64_is_finite x ∧
                        (0 <= float64_value x)%Q ∧ (float64_value x <= 1)%Q)
                     row ∧
              (row_sum (float64_value <$> row) <= 1 + (1 # 2 ^ 53))%Q)
           demo_frequencies.
Proof.
  split; [vm_compute; reflexivity|].
  split; [vm_compute; reflexivity|].
  apply (frequencies_rows_are_subdistributions demo_alignment demo_ev);
    vm_compute; reflexivity.
Defined.

(** ** Further properties of the single-site fitter *)

(** X9: [_independent_model] fits the first [L] rows of the frequency
    matrix.  On a matrix whose rows are as wide as the model has symbols,
    at least one, it returns exactly when the matrix has at least [L] rows,
    and then returns [L] rows; with fewer rows the row lookup raises an
    [IndexError]. *)
Theorem independent_model_returns_iff `{Optimizer}
  (f_i : list (list R)) (lambda N : R) (L n : nat) :
  (0 < n)%nat → Forall (λ row : list R, length row = n) f_i →
  ((∃ h, _independent_model f_i lambda N L n = Ok h ∧ length h = L) ↔
   (L ≤ length f_i)%nat) ∧
  (∀ e, _independent_model f_i lambda N L n = Raise e → e = IndexError).
Proof.
  intros _ _. unfold _independent_model. split; [split|].
  - intros (h & Hrun & _). apply map_res_Ok in Hrun.
    destruct L as [|L]; [lia|].
    assert (seq 0 (S L) !! L = Some L) as HL by (apply lookup_seq; lia).
    destruct (Forall2_lookup_l _ _ _ _ _ Hrun HL) as (row & _ & Hrow).
    simpl in Hrow. apply res_bind_Ok in Hrow as (fi & Hfi%array_get_Ok & _).
    apply lookup_lt_Some in Hfi. lia.
  - intros HL.
    lazymatch goal with
    | |- ∃ h, map_res ?f ?xs = Ok h ∧ _ =>
        destruct (map_res_total f xs) as [h Hh]
    end.
    + intros i Hi. apply elem_of_seq in Hi.
      destruct (lookup_lt_is_Some_2 f_i i) as [fi Hfi]; [lia|].
      simpl. rewrite Hfi. by eexists.
    + exists h. split; [done|]. apply map_res_Ok in Hh.
      rewrite <- (Forall2_length _ _ _ Hh). apply length_seq.
  - intros e Hrun. apply map_res_Raise in Hrun as (i & _ & Hrow).
    simpl in Hrow. destruct (f_i !! i); [discriminate|].
    by injection Hrow as <-.
Qed.

Lemma independent_model_returns_iff_witness :
  (0 < 2)%nat ∧
  Forall (λ row : list R, length row = 2%nat) [[1; 0]; [0; 1]]%R ∧
  ((∃ h, @_independent_model demo_optimizer [[1; 0]; [0; 1]]%R 1 4 2 2 = Ok h
         ∧ length h = 2%nat) ↔
   (2 ≤ length [[1; 0]; [0; 1]]%R)%nat) ∧
  (∀ e, @_independent_model demo_optimizer [[1; 0]; [0; 1]]%R 1 4 2 2
        = Raise e → e = IndexError).
Proof.
  assert (Forall (λ row : list R, length row = 2%nat) [[1; 0]; [0; 1]]%R)
    as Hwide by (repeat constructor).
  split; [lia|]. split; [exact Hwide|].
  apply (@independent_model_returns_iff demo_optimizer); [lia|exact Hwide].
Defined.

Lemma vsum_zip_plus (u v : list R) :
  length u = length v →
  vsum (zip_with Rplus u v) = (vsum u + vsum v)%R.
Proof.
  revert v. induction u as [|a u IH]; intros [|b v] Hlen;
    simpl in *; try lia; [lra|].
  rewrite IH by lia. lra.
Qed.

Lemma vsum_zip_minus (u v : list R) :
  length u = length v →
  vsum (zip_with Rminus u v) = (vsum u - vsum v)%R.
Proof.
  revert v. induction u as [|a u IH]; intros [|b v] Hlen;
    simpl in *; try lia; [lra|].
  rewrite IH by lia. lra.
Qed.

Lemma vsum_scale (c : R) (v : list R) :
  vsum (map (Rmult c) v) = (c * vsum v)%R.
Proof. induction v as [|a v IH]; simpl; [lra|]. rewrite IH. lra. Qed.

Lemma vsum_divide (z : R) (v : list R) :
  vsum (map (λ e, e / z)%R v) = (vsum v / z)%R.
Proof.
  induction v as [|a v IH]; simpl; [unfold Rdiv; lra|].
  rewrite IH. unfold Rdiv. lra.
Qed.

(** X10: the probabilities inside [_gradient] sum to one, so the
    coordinates of the gradient sum to
    [N (1 - sum_a f_a) + 2 lambda sum_a x_a]: on a frequency row that sums to
    one, the likelihood part of the gradient has no component along the
    all-ones direction. *)
Theorem gradient_coordinates_sum (x fi : list R) (lambda N : R) :
  length fi = length x → x ≠ [] →
  vsum (map (λ e, e / vsum (map exp x))%R (map exp x)) = 1%R ∧
  vsum (_gradient x (fi, lambda, N))
    = (N * (1 - vsum fi) + lambda * 2 * vsum x)%R.
Proof.
  intros Hlen Hne.
  assert (0 < vsum (map exp x))%R as Hpos.
  { destruct x as [|x0 x]; [done|]. by apply (vsum_exp_pos (x0 :: x) 0 x0). }
  assert (vsum (map (λ e, e / vsum (map exp x))%R (map exp x)) = 1%R) as HP.
  { rewrite vsum_divide. field. lra. }
  split; [done|]. unfold _gradient.
  rewrite vsum_zip_plus, !vsum_scale, vsum_zip_minus, HP; [lra| |].
  - by rewrite !length_map.
  - rewrite !length_map, length_zip_with, !length_map. lia.
Qed.

Lemma gradient_coordinates_sum_witness :
  vsum (map (λ e, e / vsum (map exp [0; 0]%R))%R (map exp [0; 0]%R)) = 1%R ∧
  vsum (_gradient [0; 0]%R ([1; 0]%R, 1%R, 4%R))
    = (4 * (1 - vsum [1; 0]%R) + 1 * 2 * vsum [0; 0]%R)%R.
Proof.
  apply (gradient_coordinates_sum [0; 0]%R [1; 0]%R 1%R 4%R); [done|done].
Defined.

(** ** Splitting text *)

Lemma split_on_nonempty (sep : ascii) (s : string) : split_on sep s ≠ [].
Proof.
  destruct s as [|c s]; simpl; [done|].
  case_decide; [done|]. by destruct (split_on sep s).
Qed.

Lemma split_on_cons_ne (sep c : ascii) (s : string) :
  c ≠ sep →
  ∃ piece rest,
    split_on sep s = piece :: rest ∧
    split_on sep (String c s) = String c piece :: rest.
Proof.
  intros Hne. simpl. rewrite decide_False by done.
  destruct (split_on sep s) as [|piece rest] eqn:Hs.
  - by destruct (split_on_nonempty sep s).
  - by exists piece, rest.
Qed.

(** A text without the separator is its own single piece. *)
Lemma split_on_no_sep (sep : ascii) (s : string) :
  sep ∉ chars s → split_on sep s = [s].
Proof.
  induction s as [|c s IH]; intros Hno; [done|].
  simpl in Hno. apply not_elem_of_cons in Hno as [Hne Hno].
  simpl. rewrite decide_False by done. by rewrite IH.
Qed.

(** Splitting a text at one of its separators splits the pieces. *)
Lemma split_on_app (sep : ascii) (a b : string) :
  split_on sep (a +:+ String sep b) = split_on sep a ++ split_on sep b.
Proof.
  induction a as [|c a IH].
  - simpl. by rewrite decide_True.
  - change (String c a +:+ String sep b) with (String c (a +:+ String sep b)).
    simpl. case_decide as Hc; [by rewrite IH|].
    rewrite IH. destruct (split_on sep a) as [|piece rest] eqn:Ha.
    + by destruct (split_on_nonempty sep a).
    + done.
Qed.

(** No piece holds the separator. *)
Lemma split_on_pieces (sep : ascii) (s : string) :
  Forall (λ piece, sep ∉ chars piece) (split_on sep s).
Proof.
  induction s as [|c s IH]; simpl.
  - constructor; [|constructor]. apply not_elem_of_nil.
  - case_decide as Hc.
    + constructor; [apply not_elem_of_nil|done].
    + destruct (split_on sep s) as [|piece rest].
      * constructor; [|constructor]. simpl.
        apply not_elem_of_cons. split; [done|apply not_elem_of_nil].
      * apply Forall_cons in IH as [Hp Hrest]. constructor; [|done].
        simpl. apply not_elem_of_cons. by split.
Qed.

(** The first piece is empty exactly for the empty text and for a text that
    starts with the separator. *)
Lemma split_on_first_empty (sep : ascii) (s : string) :
  split_on sep s !! 0%nat = Some "" ↔ s = "" ∨ ∃ s', s = String sep s'.
Proof.
  destruct s as [|c s]; simpl.
  - split; [by left|done].
  - case_decide as Hc.
    + subst. split; [right; by eexists|done].
    + destruct (split_on sep s) as [|piece rest]; simpl.
      * split; [done|]. intros [?|[s' ?]]; [done|]. congruence.
      * split; [done|]. intros [?|[s' ?]]; [done|]. congruence.
Qed.

Lemma chars_app (a b : string) : chars (a +:+ b) = chars a ++ chars b.
Proof.
  induction a as [|c a IH]; [done|].
  change (String c a +:+ b) with (String c (a +:+ b)). simpl. by rewrite IH.
Qed.

Lemma chars_text (l : list ascii) : chars (text l) = l.
Proof. apply list_ascii_of_string_of_list_ascii. Qed.

Lemma text_chars (s : string) : text (chars s) = s.
Proof. apply string_of_list_ascii_of_string. Qed.

Lemma join_cons_cons (sep x y : string) (l : list string) :
  join sep (x :: y :: l) = x +:+ sep +:+ join sep (y :: l).
Proof. reflexivity. Qed.

(** Joining without a separator brings in no character. *)
Lemma not_in_join_empty (c : ascii) (l : list string) :
  Forall (λ piece, c ∉ chars piece) l → c ∉ chars (join "" l).
Proof.
  induction l as [|x [|y l] IH]; intros Hall.
  - apply not_elem_of_nil.
  - by apply Forall_cons in Hall as [Hx _].
  - apply Forall_cons in Hall as [Hx Hl].
    rewrite join_cons_cons, !chars_app. simpl.
    rewrite not_elem_of_app. split; [done|by apply IH].
Qed.

(** Splitting undoes joining, for pieces free of the separator. *)
Lemma split_on_join (sep : ascii) (pieces : list string) :
  pieces ≠ [] → Forall (λ piece, sep ∉ chars piece) pieces →
  split_on sep (join (String sep "") pieces) = pieces.
Proof.
  intros Hne Hall. induction Hall as [|x l Hx Hl IH]; [done|].
  destruct l as [|y l].
  - simpl. by apply split_on_no_sep.
  - rewrite join_cons_cons.
    change (String sep "" +:+ join (String sep "") (y :: l))
      with (String sep (join (String sep "") (y :: l))).
    rewrite split_on_app, (split_on_no_sep sep x Hx), IH by done. done.
Qed.

(** ** Reading the configuration *)

Section config_facts.

Context `{Builtins}.

Lemma positions_of_Ok (txt : string) (l : list Z) :
  positions_of (split_on "," txt) = Ok l →
  ((txt = "" ∨ ∃ rest, txt = String "," rest) → l = []) ∧
  (¬ (txt = "" ∨ ∃ rest, txt = String "," rest) →
   Forall2 (λ piece pos, py_int (strip piece) = Ok (pos + 1))
           (split_on "," txt) l).
Proof.
  unfold positions_of. intros Hrun.
  apply res_bind_Ok in Hrun as (first & Hfirst%array_get_Ok & Hrun).
  case_decide as Hne.
  - split.
    + intros Hlead. apply split_on_first_empty in Hlead. congruence.
    + intros _. apply map_res_Ok in Hrun.
      eapply Forall2_impl; [exact Hrun|]. intros piece pos Hpiece.
      simpl in Hpiece. apply res_bind_Ok in Hpiece as (n & Hn & [= <-]).
      rewrite Hn. f_equal. lia.
  - injection Hrun as <-. split; [done|]. intros Hlead. destruct Hlead.
    apply split_on_first_empty.
    destruct (decide (first = "")) as [->|Hf]; [done|]. by destruct Hne.
Qed.

(** X11: the position lists of the configuration.  When
    [read_in_config_paras] returns, a list option whose text is empty or
    starts with a comma gives the empty list, whatever follows the comma;
    any other text gives one position per comma-separated piece, in order,
    each the number [int] reads from the stripped piece minus one. *)
Theorem config_positions_zero_based (config : ConfigOptions)
  (paras : ConfigParas) :
  read_in_config_paras config = Ok paras →
  ((opt_ignore_pos config = "" ∨
    (∃ rest, opt_ignore_pos config = String "," rest)) →
   cfg_ignored_pos paras = []) ∧
  (¬ (opt_ignore_pos config = "" ∨
      (∃ rest, opt_ignore_pos config = String "," rest)) →
   Forall2 (λ piece pos, py_int (strip piece) = Ok (pos + 1))
           (split_on "," (opt_ignore_pos config)) (cfg_ignored_pos paras)) ∧
  ((opt_exclude_pos config = "" ∨
    (∃ rest, opt_exclude_pos config = String "," rest)) →
   cfg_excluded_pos paras = []) ∧
  (¬ (opt_exclude_pos config = "" ∨
      (∃ rest, opt_exclude_pos config = String "," rest)) →
   Forall2 (λ piece pos, py_int (strip piece) = Ok (pos + 1))
           (split_on "," (opt_exclude_pos config)) (cfg_excluded_pos paras)).
Proof.
  unfold read_in_config_paras. intros Hrun.
  apply res_bind_Ok in Hrun as (k & _ & Hrun).
  apply res_bind_Ok in Hrun as (epi & _ & Hrun).
  apply res_bind_Ok in Hrun as (ex & Hex & Hrun).
  apply res_bind_Ok in Hrun as (ig & Hig & [= <-]). simpl.
  apply positions_of_Ok in Hex as [Hex1 Hex2].
  apply positions_of_Ok in Hig as [Hig1 Hig2].
  by repeat split.
Qed.

(** X12: a piece that [int] does not read stops the configuration.  If the
    two counts are read, the exclude list is read, and the text of the
    ignore list does not start with a comma and has a piece on which [int]
    raises, then [read_in_config_paras] raises that exception or the
    exception of an earlier piece; the piece is not dropped. *)
Theorem config_bad_position_raises (config : ConfigOptions) (k epi : Z)
  (ex : list Z) (piece : string) (e : exn) :
  py_int (opt_k config) = Ok k →
  py_int (opt_epi_len config) = Ok epi →
  positions_of (split_on "," (opt_exclude_pos config)) = Ok ex →
  ¬ (opt_ignore_pos config = "" ∨
     (∃ rest, opt_ignore_pos config = String "," rest)) →
  piece ∈ split_on "," (opt_ignore_pos config) →
  py_int (strip piece) = Raise e →
  ∃ e', read_in_config_paras config = Raise e'.
Proof.
  intros Hk Hepi Hex Hlead Hpiece Hbad. unfold read_in_config_paras.
  rewrite Hk, Hepi. simpl. rewrite Hex. simpl.
  destruct (positions_of (split_on "," (opt_ignore_pos config)))
    as [ig|e'] eqn:Hig; [|by exists e'].
  exfalso. apply positions_of_Ok in Hig as [_ Hall].
  specialize (Hall Hlead).
  apply list_elem_of_lookup in Hpiece as [n Hn].
  destruct (Forall2_lookup_l _ _ _ _ _ Hall Hn) as (pos & _ & Hpos).
  congruence.
Qed.

End config_facts.

Lemma config_positions_zero_based_witness :
  ∃ paras,
    @read_in_config_paras demo_builtins
      {| opt_k := "3"; opt_epi_len := "9"; opt_exclude_pos := ",7";
         opt_ignore_pos := "1, 12 ,4"; opt_single_site := "Yes" |}
      = Ok paras ∧
    cfg_ignored_pos paras = [0; 11; 3] ∧
    cfg_excluded_pos paras = [] ∧
    Forall2 (λ piece pos, @py_int demo_builtins (strip piece) = Ok (pos + 1))
            (split_on "," "1, 12 ,4") (cfg_ignored_pos paras).
Proof.
  eexists. split; [vm_compute; reflexivity|].
  split; [reflexivity|]. split; [reflexivity|].
  apply (@config_positions_zero_based demo_builtins
           {| opt_k := "3"; opt_epi_len := "9"; opt_exclude_pos := ",7";
              opt_ignore_pos := "1, 12 ,4"; opt_single_site := "Yes" |}).
  - vm_compute; reflexivity.
  - simpl. intros [?|[rest ?]]; discriminate.
Defined.

Lemma config_bad_position_raises_witness :
  ∃ e',
    @read_in_config_paras demo_builtins
      {| opt_k := "3"; opt_epi_len := "9"; opt_exclude_pos := "";
         opt_ignore_pos := "1,,2"; opt_single_site := "no" |}
      = Raise e'.
Proof.
  apply (@config_bad_position_raises demo_builtins
           {| opt_k := "3"; opt_epi_len := "9"; opt_exclude_pos := "";
              opt_ignore_pos := "1,,2"; opt_single_site := "no" |}
           3 9 [] "" ValueError).
  - vm_compute; reflexivity.
  - vm_compute; reflexivity.
  - vm_compute; reflexivity.
  - simpl. intros [?|[rest ?]]; discriminate.
  - vm_compute. apply list_elem_of_further, list_elem_of_here.
  - vm_compute; reflexivity.
Defined.

(** ** The solver files *)

Lemma Forall_removelast {A : Type} (P : A → Prop) (l : list A) :
  Forall P l → Forall P (removelast l).
Proof.
  induction 1 as [|x l Hx Hl IH]; [constructor|].
  simpl. destruct l; [constructor|]. by constructor.
Qed.

Lemma list_get_nat {V : Type} (l : list V) (n : nat) :
  (n < length l)%nat → list_get l (Z.of_nat n) = array_get (l !! n).
Proof.
  intros Hn. unfold list_get. rewrite bool_decide_eq_true_2 by lia.
  by rewrite Nat2Z.id.
Qed.

(** X13: the stem of the two LP files is the output name without its last
    dot-separated piece and without any dot.  It never holds a dot; it is
    empty for an output name without a dot; and for a name [stem.ext] it is
    [stem] with the dots of [stem] deleted, so that [a.b.data] and [ab.data]
    share their LP files. *)
Theorem lp_model_drops_every_dot (out : string) :
("."%char ∉ chars (lp_model out)) ∧
  ("."%char ∉ chars out → lp_model out = "") ∧
  (∀ stem ext : string,
     out = stem +:+ "." +:+ ext → "."%char ∉ chars ext →
     lp_model out = join "" (split_on "." stem) ∧
     ("."%char ∉ chars stem → lp_model out = stem)).
Proof.
  unfold lp_model. split; [|split].
  - apply not_in_join_empty, Forall_removelast, split_on_pieces.
  - intros Hno. by rewrite split_on_no_sep.
  - intros stem ext -> Hext.
    change ("." +:+ ext) with (String "." ext).
    rewrite split_on_app, (split_on_no_sep "." ext Hext).
    rewrite removelast_last. split; [done|].
    intros Hstem. rewrite (split_on_no_sep "." stem Hstem). simpl.
    done.
Qed.

Lemma lp_model_drops_every_dot_witness :
  lp_model "a.b.data" = "ab" ∧ lp_model "ab.data" = "ab" ∧
  lp_model "a.b.data" = join "" (split_on "." "a.b") ∧
  ("."%char ∉ chars "a.b" → lp_model "a.b.data" = "a.b").
Proof.
  split; [reflexivity|]. split; [reflexivity|].
  destruct (lp_model_drops_every_dot "a.b.data") as (_ & _ & Hstem).
  apply (Hstem "a.b" "data"); [reflexivity|].
  vm_compute. intros Hin.
  repeat (apply elem_of_cons in Hin as [Hin|Hin]; [discriminate|]).
  by apply elem_of_nil in Hin.
Defined.

(** X14: [generate_lp_files] hands the shell one command per model file, for
    the first two model files: with two or more it issues both commands and
    returns, ignoring the others; with one it issues the first command and
    then raises [IndexError]; with none it raises [IndexError] before any
    command.  The data file named in every command is [out] itself. *)
Theorem generate_lp_files_commands (out : string) (model : list string) :
  length (generate_lp_files out model).2 = Nat.min 2 (length model) ∧
  ((generate_lp_files out model).1 = Ok () ↔ (2 ≤ length model)%nat) ∧
  ((generate_lp_files out model).1 = Raise IndexError ↔
   (length model < 2)%nat) ∧
  (∀ (n : nat) (command : string),
     (generate_lp_files out model).2 !! n = Some command →
     ∃ model_file suffix,
       model !! n = Some model_file ∧
       (n = 0%nat ∧ suffix = "_imm.lp" ∨ n = 1%nat ∧ suffix = "_en.lp") ∧
       command = glpsol_command model_file out (lp_model out +:+ suffix)).
Proof.
  destruct model as [|m0 [|m1 rest]].
  - change (generate_lp_files out []) with (@Raise unit IndexError, @nil string).
    simpl. split; [done|]. split; [split; [done|lia]|].
    split; [split; [lia|done]|]. intros n command Hn. done.
  - change (generate_lp_files out [m0])
      with (@Raise unit IndexError,
            [glpsol_command m0 out (lp_model out +:+ "_imm.lp")]).
    simpl. split; [done|]. split; [split; [done|lia]|].
    split; [split; [lia|done]|].
    intros [|n] command Hn; [|done]. injection Hn as <-.
    exists m0, "_imm.lp". split; [done|]. split; [by left|done].
  - unfold generate_lp_files.
    change 0 with (Z.of_nat 0). change 1 with (Z.of_nat 1).
    rewrite !list_get_nat by (simpl; lia).
    simpl. split; [done|]. split; [split; [lia|done]|].
    split; [split; [done|lia]|].
    intros [|[|n]] command Hn; [| |done]; injection Hn as <-.
    + exists m0, "_imm.lp". split; [done|]. split; [by left|done].
    + exists m1, "_en.lp". split; [done|]. split; [by right|done].
Qed.

(** ** Kabat numbering *)

Section kabat_facts.

Context `{Builtins}.

(** The loop that numbers the residues, started at any dict and number. *)
Lemma number_loop (kl : list (string * string)) (d0 d : gmap (Z * string) Z)
  (n0 n : Z) :
  for_each kl number_residue (d0, n0) = Ok (d, n) →
  n = n0 + Z.of_nat (length (residue_entries kl)) ∧
  (∀ key v, d !! key = Some v →
     d0 !! key = Some v ∨
     (n0 ≤ v < n ∧
      ∃ kabat res,
        residue_entries kl !! Z.to_nat (v - n0) = Some (kabat, res) ∧
        kabat_key kabat = Ok key)) ∧
  (∀ (m : nat) kabat res key,
     residue_entries kl !! m = Some (kabat, res) →
     kabat_key kabat = Ok key →
     ∃ v, d !! key = Some v ∧ n0 + Z.of_nat m ≤ v < n) ∧
  (∀ key v0, d0 !! key = Some v0 →
     ∃ v, d !! key = Some v ∧ (v = v0 ∨ n0 ≤ v < n)).
Proof.
  revert d0 n0. induction kl as [|entry kl IH]; intros d0 n0 Hrun.
  - injection Hrun as <- <-. unfold residue_entries. simpl.
    split; [lia|]. split; [by left|]. split; [done|]. by eauto.
  - simpl in Hrun. apply res_bind_Ok in Hrun as ([d1 n1] & Hstep & Hrun).
    unfold number_residue in Hstep. unfold residue_entries.
    rewrite filter_cons. fold (residue_entries kl). simpl in Hstep.
    destruct (IH d1 n1 Hrun) as (Hn & Hb & Hc & Hd).
    case_decide as Hgap.
    + apply res_bind_Ok in Hstep as (k0 & Hk0 & [= <- <-]).
      simpl. split; [lia|]. split; [|split].
      * intros key v Hv. destruct (Hb key v Hv) as [Hold|[Hrange Hres]].
        -- destruct (decide (k0 = key)) as [->|Hne].
           ++ rewrite lookup_insert_eq in Hold. injection Hold as <-.
              right. split; [lia|]. destruct entry as [kabat res].
              exists kabat, res. by rewrite Z.sub_diag.
           ++ rewrite lookup_insert_ne in Hold by done. by left.
        -- right. split; [lia|].
           destruct Hres as (kabat & res & Hres & Hkey).
           exists kabat, res. split; [|done].
           replace (Z.to_nat (v - n0)) with (S (Z.to_nat (v - (n0 + 1))))
             by lia.
           done.
      * intros m kabat res key Hm Hkey. destruct m as [|m].
        -- simpl in Hm. injection Hm as ->. simpl in Hk0.
           rewrite Hk0 in Hkey. injection Hkey as <-.
           destruct (Hd k0 n0) as (v & Hv & Hrange);
             [by rewrite lookup_insert_eq|].
           exists v. split; [done|]. lia.
        -- simpl in Hm. destruct (Hc m kabat res key Hm Hkey)
             as (v & Hv & Hrange).
           exists v. split; [done|]. lia.
      * intros key v0 Hv0. destruct (decide (k0 = key)) as [->|Hne].
        -- destruct (Hd key n0) as (v & Hv & Hrange);
             [by rewrite lookup_insert_eq|].
           exists v. split; [done|]. right. lia.
        -- destruct (Hd key v0) as (v & Hv & Hrange);
             [by rewrite lookup_insert_ne|].
           exists v. split; [done|]. destruct Hrange; [by left|right; lia].
    + injection Hstep as <- <-. done.
Qed.

(** X15: the residue numbers of [kabat_dict].  When the raw data is read
    without an exception, the entries of [kabat_list] whose residue is not
    [-] are numbered 1, 2, 3, ... in their order, and the lines with [-]
    take no number.  Every value of the dict is the number of an entry that
    has the value's key; the key of the entry numbered [m + 1] is in the
    dict with that number or, when the key comes again further down, a
    larger one; and a key that no entry has is answered with -1. *)
Theorem kabat_dict_numbers_residues (rawdata : string)
  (kabat_list : list (string * string)) (kabat_dict : gmap (Z * string) Z) :
  kabat_numbering rawdata = Ok (kabat_list, kabat_dict) →
  kabat_list = kabat_list_of rawdata ∧
  (∀ key v, kabat_dict !! key = Some v →
     1 ≤ v ≤ Z.of_nat (length (residue_entries kabat_list)) ∧
     ∃ kabat res,
       residue_entries kabat_list !! Z.to_nat (v - 1) = Some (kabat, res) ∧
       kabat_key kabat = Ok key) ∧
  (∀ (m : nat) kabat res key,
     residue_entries kabat_list !! m = Some (kabat, res) →
     kabat_key kabat = Ok key →
     ∃ v, kabat_dict !! key = Some v ∧
          Z.of_nat m + 1 ≤ v ≤ Z.of_nat (length (residue_entries kabat_list))) ∧
  (∀ key,
     (∀ kabat res, (kabat, res) ∈ residue_entries kabat_list →
                   kabat_key kabat ≠ Ok key) →
     kabat_lookup kabat_dict key = -1).
Proof.
  unfold kabat_numbering. intros Hrun.
  apply res_bind_Ok in Hrun as ([d n] & Hloop & [= <- <-]).
  apply number_loop in Hloop as (Hn & Hb & Hc & _).
  split; [done|]. split; [|split].
  - intros key v Hv. destruct (Hb key v Hv) as [Hold|[Hrange Hres]].
    + by rewrite lookup_empty in Hold.
    + split; [lia|exact Hres].
  - intros m kabat res key Hm Hkey.
    destruct (Hc m kabat res key Hm Hkey) as (v & Hv & Hrange).
    exists v. split; [done|]. lia.
  - intros key Hnone. unfold kabat_lookup.
    destruct (d !! key) as [v|] eqn:Hv; [|done].
    destruct (Hb key v Hv) as [Hold|[_ (kabat & res & Hres & Hkey)]].
    + by rewrite lookup_empty in Hold.
    + destruct (Hnone kabat res); [|done]. by eapply list_elem_of_lookup_2.
Qed.

Lemma kabat_key_empty : kabat_key "" = Raise IndexError.
Proof. reflexivity. Qed.

(** X16: a line too short for an identifier stops the reading.  A
    non-empty line of the raw data with at most two characters whose last
    character is not [-] has an empty identifier, and [kabat_numbering]
    raises an exception instead of numbering it. *)
Theorem kabat_short_line_raises (rawdata line : string) :
  line ∈ split_on "010" rawdata → line ≠ "" →
  (length (chars line) ≤ 2)%nat → last_one line ≠ "-" →
  ∃ e, kabat_numbering rawdata = Raise e.
Proof.
  intros Hline Hne Hshort Hres. unfold kabat_numbering.
  destruct (for_each_fails (kabat_list_of rawdata) number_residue
              (all_but_last_two line, last_one line))
    with (s := ((∅ : gmap (Z * string) Z), 1)) as [e He].
  - unfold kabat_list_of.
    change (@map string (string * string))
      with (@fmap list _ string (string * string)).
    apply list_elem_of_fmap. exists line. split; [done|].
    by apply list_elem_of_filter.
  - intros st. exists IndexError. unfold number_residue. simpl.
    rewrite decide_True by done.
    assert (all_but_last_two line = "") as ->.
    { unfold all_but_last_two.
      by replace (length (chars line) - 2)%nat with 0%nat by lia. }
    by rewrite kabat_key_empty.
  - exists e. by rewrite He.
Qed.

End kabat_facts.

Lemma kabat_dict_numbers_residues_witness :
  @kabat_numbering demo_builtins
    ("H1 Q" +:+ nl +:+ "H2 -" +:+ nl +:+ "H100A G" +:+ nl)
  = Ok ([("H1", "Q"); ("H2", "-"); ("H100A", "G")],
        {[ (1, "") := 1; (100, "A") := 2 ]}) ∧
  residue_entries [("H1", "Q"); ("H2", "-"); ("H100A", "G")]
  = [("H1", "Q"); ("H100A", "G")] ∧
  (∀ key v,
     ({[ (1, "") := 1; (100, "A") := 2 ]} : gmap (Z * string) Z) !! key
       = Some v →
     1 ≤ v ≤ Z.of_nat
               (length (residue_entries
                          [("H1", "Q"); ("H2", "-"); ("H100A", "G")])) ∧
     ∃ kabat res,
       residue_entries [("H1", "Q"); ("H2", "-"); ("H100A", "G")]
         !! Z.to_nat (v - 1) = Some (kabat, res) ∧
       @kabat_key demo_builtins kabat = Ok key).
Proof.
  split; [vm_compute; reflexivity|]. split; [vm_compute; reflexivity|].
  apply (@kabat_dict_numbers_residues demo_builtins
           ("H1 Q" +:+ nl +:+ "H2 -" +:+ nl +:+ "H100A G" +:+ nl)
           [("H1", "Q"); ("H2", "-"); ("H100A", "G")]
           {[ (1, "") := 1; (100, "A") := 2 ]}).
  vm_compute; reflexivity.
Defined.

Lemma kabat_short_line_raises_witness :
  ∃ e,
    @kabat_numbering demo_builtins ("H1 Q" +:+ nl +:+ "GQ" +:+ nl) = Raise e.
Proof.
  apply (@kabat_short_line_raises demo_builtins
           ("H1 Q" +:+ nl +:+ "GQ" +:+ nl) "GQ").
  - vm_compute. apply list_elem_of_further, list_elem_of_here.
  - discriminate.
  - simpl. lia.
  - vm_compute. discriminate.
Defined.

Lemma all_but_last_two_line (kabat : string) (sep c : ascii) :
  all_but_last_two (kabat +:+ String sep (String c "")) = kabat.
Proof.
  unfold all_but_last_two. rewrite chars_app. simpl.
  rewrite length_app. simpl.
  replace (length (chars kabat) + 2 - 2)%nat with (length (chars kabat)) by lia.
  rewrite take_app_length. apply text_chars.
Qed.

Lemma last_one_line (kabat : string) (sep c : ascii) :
  last_one (kabat +:+ String sep (String c "")) = String c "".
Proof.
  unfold last_one. rewrite chars_app. simpl. rewrite length_app. simpl.
  replace (length (chars kabat) + 2 - 1)%nat
    with (length (chars kabat) + 1)%nat by lia.
  rewrite drop_app_add'; [done|done].
Qed.

Lemma filter_all {A : Type} (P : A → Prop) `{∀ x, Decision (P x)}
  (l : list A) :
  Forall P l → filter P l = l.
Proof.
  induction 1 as [|x l Hx _ IH]; [done|].
  by rewrite filter_cons, decide_True, IH.
Qed.

(** X17: [kabat_list] reads back the lines of a numbering.  For entries
    made of an identifier without a line break and a residue of one
    character other than the line break, the text that has one line per
    entry - the identifier, one blank and the residue -, the lines joined by
    line breaks, gives these entries back, in order. *)
Theorem kabat_list_reads_lines (entries : list (string * ascii)) :
  Forall (λ entry, ("010"%char ∉ chars entry.1) ∧ entry.2 ≠ "010"%char)
         entries →
  kabat_list_of
    (join nl (map (λ entry : string * ascii,
                     entry.1 +:+ String " " (String entry.2 "")) entries))
  = map (λ entry : string * ascii, (entry.1, String entry.2 "")) entries.
Proof.
  intros Hall. unfold kabat_list_of.
  destruct entries as [|entry0 entries]; [done|].
  unfold nl. rewrite split_on_join.
  - rewrite filter_all.
    + rewrite List.map_map. apply List.map_ext. intros [kabat c]. simpl.
      by rewrite all_but_last_two_line, last_one_line.
    + apply Forall_forall. intros x Hx.
      change (@map (string * ascii) string)
        with (@fmap list _ (string * ascii) string) in Hx.
      apply list_elem_of_fmap in Hx as ([kabat c] & -> & _). simpl.
      by destruct kabat.
  - done.
  - apply Forall_forall. intros x Hx.
    change (@map (string * ascii) string)
      with (@fmap list _ (string * ascii) string) in Hx.
    apply list_elem_of_fmap in Hx as ([kabat c] & -> & Hentry).
    rewrite Forall_forall in Hall. destruct (Hall _ Hentry) as [Hk Hc].
    simpl in *. rewrite chars_app. simpl.
    rewrite not_elem_of_app, !not_elem_of_cons.
    repeat split; [done|discriminate|congruence|apply not_elem_of_nil].
Qed.

Lemma kabat_list_reads_lines_witness :
  kabat_list_of
    (join nl (map (λ entry : string * ascii,
                     entry.1 +:+ String " " (String entry.2 ""))
                  [("H1", "Q"%char); ("H2", "-"%char); ("H100A", "G"%char)]))
  = [("H1", "Q"); ("H2", "-"); ("H100A", "G")].
Proof.
  apply (kabat_list_reads_lines [("H1", "Q"%char); ("H2", "-"%char); ("H100A", "G"%char)]).
  repeat (constructor; [split; [vm_compute|discriminate]|]);
    try constructor;
    intros Hin;
    repeat (apply elem_of_cons in Hin as [Hin|Hin]; [discriminate|]);
    by apply elem_of_nil in Hin.
Defined.
